(** * The DEX core: state transition engine and chain bookkeeping

    A shallow embedding of [pkg/dex] (market symbols, the account state,
    the transition builder) and of [pkg/consensus] (the block tree, the
    notarization share pool, the block syncer), with the properties of
    the design document stated over it. *)

From Stdlib Require Import ZArith Lia Bool String.
From Stdlib Require Import Floats.SpecFloat.
From stdpp Require Import base option list gmap fin_maps.

Open Scope Z_scope.

(** ** Machine integers and byte strings *)

(** Go's [uint64] is a [Z] in [0, 2^64); arithmetic wraps. *)
Definition wrap64 (z : Z) : Z := z mod 2 ^ 64.

Definition is_uint64 (z : Z) : Prop := 0 <= z < 2 ^ 64.

(** A byte is a [Z] in [0, 256); a byte string is a list of them. *)
Abbreviation byte := Z.
Abbreviation bytes := (list Z).

(** [outcome] separates a normal return from a Go [panic]. *)
Inductive outcome (A : Type) : Type :=
| Returned (a : A)
| Panicked (msg : string).
Arguments Returned {A} a.
Arguments Panicked {A} msg.

Module Dex.

(** ** [encoding/binary], little endian *)

(** [make([]byte, n)] *)
Definition make_bytes (n : nat) : bytes := replicate n 0.

(** [byte(v >> (8*i))] *)
Definition byte_at (v : Z) (i : nat) : byte :=
  Z.land (Z.shiftr v (8 * Z.of_nat i)) 255.

(** [binary.LittleEndian.PutUint64(b, v)]: stores the eight bytes of [v]
    in [b[0..8)], least significant first.  The buffers passed here are
    [make([]byte, 64)], so the bounds check of the original never fires. *)
Definition PutUint64 (b : bytes) (v : Z) : bytes :=
  foldl (fun buf i => <[i := byte_at v i]> buf) b (seq 0 8).

(** [b[i]], zero when out of range (callers check the length first). *)
Definition at_index (b : bytes) (i : nat) : byte := default 0 (b !! i).

(** [binary.LittleEndian.Uint64(b)]:
    [uint64(b[0]) | uint64(b[1])<<8 | ... | uint64(b[7])<<56]. *)
Definition Uint64 (b : bytes) : Z :=
  foldr (fun i acc => Z.lor (Z.shiftl (at_index b i) (8 * Z.of_nat i)) acc)
        0 (seq 0 8).

(** ** Market symbols ([state.go]) *)

Abbreviation TokenID := Z.   (* uint64 *)

Record MarketSymbol : Type := mkMarketSymbol {
  Base : TokenID;   (* the unit of the order's quantity *)
  Quote : TokenID   (* the unit of the order's price *)
}.

(** [MarketSymbol.Encode] *)
Definition Encode (m : MarketSymbol) : bytes :=
  let bufA := make_bytes 64 in
  let bufB := make_bytes 64 in
  let bufA := PutUint64 bufA (Quote m) in
  let bufB := PutUint64 bufB (Base m) in
  bufA ++ bufB.

(** The error of [MarketSymbol.Decode]:
    "bytes len not correct, expected 128, received %d". *)
Inductive DecodeError : Type :=
| ErrBytesLen (received : nat).

(** [MarketSymbol.Decode]: the receiver [m] is overwritten on success and
    left alone on error; the result pairs the receiver afterwards with
    the returned error ([None] is Go's [nil]). *)
Definition Decode (m : MarketSymbol) (b : bytes) : MarketSymbol * option DecodeError :=
  if negb (Nat.eqb (length b) 128) then (m, Some (ErrBytesLen (length b)))
  else
    let quote := Uint64 (take 64 b) in
    let base := Uint64 (drop 64 b) in
    ({| Base := base; Quote := quote |}, None).

(** The layout the design document gives for [enc(Market)]:
    LE64(Quote) zero-padded to 64 bytes, then LE64(Base) likewise. *)
Definition LE64 (v : Z) : bytes := map (byte_at v) (seq 0 8).

Definition spec_enc_Market (m : MarketSymbol) : bytes :=
  (LE64 (Quote m) ++ replicate 56 0) ++ (LE64 (Base m) ++ replicate 56 0).

(** ** Floating point ([float64]) as used for the buy-side quantity *)

(** IEEE-754 binary64, as the Standard Library's [spec_float] with 53
    bits of precision. *)
Definition float64 := spec_float.

(** [float64(n)] for an unsigned integer [n]: round to nearest even. *)
Definition float64_of_uint64 (n : Z) : float64 := binary_normalize 53 1024 n 0 false.

Definition float64_mul (x y : float64) : float64 := SFmul 53 1024 x y.

(** The integer part of a finite float (truncation toward zero). *)
Definition float64_trunc (f : float64) : option Z :=
  match f with
  | S754_zero _ => Some 0
  | S754_finite sgn m e =>
      let mag := if 0 <=? e then Z.pos m * 2 ^ e else Z.pos m / 2 ^ (- e) in
      Some (if sgn then - mag else mag)
  | S754_infinity _ | S754_nan => None
  end.

(** [uint64(f)]: the truncation when it fits.  Otherwise Go leaves the
    result to the implementation; the gc compiler on amd64 yields
    [0x8000000000000000]. *)
Definition uint64_of_float64 (f : float64) : Z :=
  match float64_trunc f with
  | Some z => if (0 <=? z) && (z <? 2 ^ 64) then z else 2 ^ 63
  | None => 2 ^ 63
  end.

(** ** Transactions ([txn.go]) *)

Abbreviation consensus_Addr := Z.      (* [20]byte, as a 160-bit number *)
Abbreviation consensus_PK := (list Z).   (* []byte *)
Abbreviation Sig := (list Z).


Abbreviation TxnType := Z.   (* uint8 *)
Definition PlaceOrder : TxnType := 0.
Definition CancelOrder : TxnType := 1.
Definition IssueToken : TxnType := 2.
Definition SendToken : TxnType := 3.
Definition FreezeToken : TxnType := 4.
Definition BurnToken : TxnType := 5.
(** The transition switches on [CreateToken]; it is the third constant,
    declared as [IssueToken]. *)
Definition CreateToken : TxnType := IssueToken.

Record Txn : Type := mkTxn {
  T : TxnType;
  Data : bytes;
  NonceIdx : Z;      (* uint8 *)
  NonceValue : Z;    (* uint64 *)
  Owner : consensus_Addr;
  TxnSig : Sig
}.

(** [PlaceOrderTxn].  The transition multiplies [float64(txn.Quant)] by
    [txn.Price] with no conversion, which Go accepts only for a
    [float64] field: in the transition's version of the record the price
    is a [float64], the price itself.  ([txn.go] declares the field as a
    [uint64] in ticks of [10^-8]; a value of that type does not reach
    the product.) *)
Record PlaceOrderTxn : Type := mkPlaceOrderTxn {
  SellSide : bool;
  (* quant step size is the decimals of the token *)
  Quant : Z;
  Price : float64;
  (* the order is expired when ExpireRound >= block height *)
  ExpireRound : Z;
  Market : MarketSymbol
}.

Record SendTokenTxn : Type := mkSendTokenTxn {
  send_TokenID : TokenID;
  To : consensus_PK;
  send_Quant : Z
}.

(** ** Tokens, balances, accounts *)

Record TokenInfo : Type := mkTokenInfo {
  Symbol : string;
  Decimals : Z;     (* uint8 *)
  TotalUnits : Z    (* uint64 *)
}.

Record Token : Type := mkToken {
  ID : TokenID;
  Info : TokenInfo
}.

Definition BNBInfo : TokenInfo :=
  {| Symbol := "BNB"; Decimals := 8; TotalUnits := 200000000 * 100000000 |}.

(** Modelled from the spec: the declarations of [Balance] and [Account]
    are not in the sources.  An account has a public key, a per-token
    balance map [TokenID -> {Available, Pending}], a nonce vector and the
    markets in which it has orders; the fields are the ones the sources
    read ([acc.PK], [acc.Balances], [acc.NonceVec], [acc.OrderMarkets]). *)
Record Balance : Type := mkBalance {
  Available : Z;   (* uint64 *)
  Pending : Z      (* uint64 *)
}.

Record Account : Type := mkAccount {
  PK : consensus_PK;
  NonceVec : list Z;
  Balances : gmap Z Balance;
  OrderMarkets : list MarketSymbol
}.

(** Modelled from the spec: package [matching] is not in the sources.
    An order is priced, sided and sized; [Order_zero] is the zero value
    [matching.Order{}]. *)
Record Order : Type := mkOrder {
  order_SellSide : bool;
  order_Quant : Z;
  order_Price : float64;
  order_ExpireRound : Z
}.

Definition Order_zero : Order :=
  {| order_SellSide := false; order_Quant := 0; order_Price := S754_zero false;
     order_ExpireRound := 0 |}.

(** Modelled from the spec: [PendingOrder] is [{owner Addr, order}]. *)
Record PendingOrder : Type := mkPendingOrder {
  po_Owner : consensus_Addr;
  po_Order : Order
}.

Abbreviation OrderID := Z.

Record orderExpiration : Type := mkOrderExpiration {
  exp_ID : OrderID;
  exp_Owner : consensus_Addr
}.

(** ** The state ([state.go])

    The Merkle trie [s.state] is kept as its typed leaves: the token
    leaves (under [tokenPrefix]), the account leaves (under
    [accountPrefix], the trie the transition reads as [accounts]), the
    expiration lists per round (under [orderExpirationPrefix]) and the
    pending orders per market (under [marketPrefix]); each leaf holds the
    value that its bytes decode to.  The account cache and its dirty
    flags are the maps of the source. *)
Record State : Type := mkState {
  tokens : gmap Z Token;
  accounts : gmap Z Account;
  orderExpirations : gmap Z (list orderExpiration);
  pendingOrders : gmap (Z * Z) (list PendingOrder);
  accountCache : gmap Z Account;
  accountDirty : gmap Z bool
}.

(** [NewState]: an empty trie and empty caches. *)
Definition NewState : State :=
  {| tokens := ∅; accounts := ∅; orderExpirations := ∅; pendingOrders := ∅;
     accountCache := ∅; accountDirty := ∅ |}.

(** What the sources take from outside the two packages: the address of
    a public key ([PK.Addr()]), the wire decoding of a transaction
    envelope and the [gob] decoding of the two payloads. *)
Class Codec : Type := mkCodec {
  pkAddr : consensus_PK -> consensus_Addr;
  decodeTxn : bytes -> option Txn;
  gobDecodePlaceOrder : bytes -> option PlaceOrderTxn;
  gobDecodeSendToken : bytes -> option SendTokenTxn
}.

Section WithCodec.
Context {codec : Codec}.

(** [State.UpdateToken] *)
Definition UpdateToken (s : State) (token : Token) : State :=
  {| tokens := <[ID token := token]> (tokens s);
     accounts := accounts s;
     orderExpirations := orderExpirations s;
     pendingOrders := pendingOrders s;
     accountCache := accountCache s;
     accountDirty := accountDirty s |}.

(** [State.UpdateAccount]: marks the account dirty and caches it. *)
Definition UpdateAccount (s : State) (acc : Account) : State :=
  let addr := pkAddr (PK acc) in
  {| tokens := tokens s;
     accounts := accounts s;
     orderExpirations := orderExpirations s;
     pendingOrders := pendingOrders s;
     accountCache := <[addr := acc]> (accountCache s);
     accountDirty := <[addr := true]> (accountDirty s) |}.

(** [State.updateAccount]: writes the account leaf. *)
Definition updateAccount (s : State) (acc : Account) : State :=
  let addr := pkAddr (PK acc) in
  {| tokens := tokens s;
     accounts := <[addr := acc]> (accounts s);
     orderExpirations := orderExpirations s;
     pendingOrders := pendingOrders s;
     accountCache := accountCache s;
     accountDirty := accountDirty s |}.

(** [State.CommitCache]: every dirty address has its cached account
    written to the trie.  A dirty address is always cached
    ([UpdateAccount] sets the flag and the entry together and nothing
    removes an entry), so the case of a dirty address without a cached
    account, where the source would dereference nil, does not arise;
    see [dirtyCached]. *)
Definition CommitCache (s : State) : State :=
  map_fold (fun addr (dirty : bool) s' =>
              if dirty then
                match accountCache s !! addr with
                | Some acc => updateAccount s' acc
                | None => s'
                end
              else s')
           s (accountDirty s).

(** [State.Account]: the cached account if there is one, else the
    account leaf, which is then cached. *)
Definition State_Account (s : State) (addr : consensus_Addr) : State * option Account :=
  match accountCache s !! addr with
  | Some cache => (s, Some cache)
  | None =>
      match accounts s !! addr with
      | None => (s, None)
      | Some account =>
          ({| tokens := tokens s;
              accounts := accounts s;
              orderExpirations := orderExpirations s;
              pendingOrders := pendingOrders s;
              accountCache := <[addr := account]> (accountCache s);
              accountDirty := accountDirty s |}, Some account)
      end
  end.

(** [State.getOrderExpirations] *)
Definition getOrderExpirations (s : State) (round : Z) : list orderExpiration :=
  default [] (orderExpirations s !! round).

(** [State.AddOrderExpirations] *)
Definition AddOrderExpirations (s : State) (round : Z) (ids : list orderExpiration) : State :=
  let all := getOrderExpirations s round ++ ids in
  {| tokens := tokens s;
     accounts := accounts s;
     orderExpirations := <[round := all]> (orderExpirations s);
     pendingOrders := pendingOrders s;
     accountCache := accountCache s;
     accountDirty := accountDirty s |}.

(** [CreateGenesisState]: token 0 is BNB, the additional tokens follow
    with consecutive ids; every recipient receives
    [TotalUnits / len(recipients)] of every token. *)
Definition genesisTokens (additionalTokens : list TokenInfo) : list Token :=
  {| ID := 0; Info := BNBInfo |}
    :: imap (fun i t => {| ID := wrap64 (Z.of_nat i + 1); Info := t |}) additionalTokens.

Definition genesisBalances (n : nat) (tokens : list Token) : gmap Z Balance :=
  foldl (fun bals t =>
           let avg := TotalUnits (Info t) / Z.of_nat n in
           <[ID t := {| Available := avg; Pending := 0 |}]> bals)
        ∅ tokens.

Definition CreateGenesisState (recipients : list consensus_PK)
    (additionalTokens : list TokenInfo) : State :=
  let s := NewState in
  let tokens := genesisTokens additionalTokens in
  let s := foldl UpdateToken s tokens in
  foldl (fun s pk =>
           let account :=
             {| PK := pk; NonceVec := [];
                Balances := genesisBalances (length recipients) tokens;
                OrderMarkets := [] |} in
           UpdateAccount s account)
        s recipients.

(** ** Nonce validation ([txn.go]) *)

(** [validateNonce]: the owner must exist; the nonce and signature
    checks are commented out in the source, so every transaction of an
    existing owner is ready and valid. *)
Definition validateNonce (s : State) (txn : Txn) : State * (option Account * bool * bool) :=
  match State_Account s (Owner txn) with
  | (s', None) => (s', (None, false, false))
  | (s', Some acc) => (s', (Some acc, true, true))
  end.

(** Modelled from the spec: [validateSigAndNonce] is not in the sources.
    A transaction is valid when its bytes decode and the declared owner
    account exists and passes the nonce check; the latter part is
    [validateNonce]. *)
Definition validateSigAndNonce (s : State) (b : bytes)
  : State * (option Txn * option Account * bool * bool) :=
  match decodeTxn b with
  | None => (s, (None, None, false, false))
  | Some txn =>
      let '(s', (acc, ready, valid)) := validateNonce s txn in
      (s', (Some txn, acc, ready, valid))
  end.

(** ** The transition ([transition.go]) *)

Record Transition : Type := mkTransition {
  state : State;
  txns : list bytes
}.

Definition newTransition (s : State) : Transition := {| state := s; txns := [] |}.

(** [newState]: a state on a trie, with empty caches. *)
Definition newState (trie : State) : State :=
  {| tokens := tokens trie;
     accounts := accounts trie;
     orderExpirations := orderExpirations trie;
     pendingOrders := pendingOrders trie;
     accountCache := ∅;
     accountDirty := ∅ |}.

(** [State.Transition]: the trie is committed and reopened in a new
    state, on which the transition is built.  The account cache is not
    committed here. *)
Definition State_Transition (s : State) (round : Z) : Transition :=
  newTransition (newState s).

(** Modelled from the spec: [State.Commit], which [Transition.Commit]
    calls, is not in the sources.  Committing a transition writes its
    account cache through ([CommitCache] is called at commit time); the
    state it leaves is the one the next transition is opened on. *)
Definition Transition_Commit (t : Transition) : State := CommitCache (state t).

(** Modelled from the spec: the token cache is not in the sources;
    [tokenCache.Info(id)] is the registered token's info, if any. *)
Definition tokenCache_Info (s : State) (id : TokenID) : option TokenInfo :=
  Info <$> tokens s !! id.

(** Modelled from the spec: [UpdatePendingOrder] is not in the sources;
    it appends the added entry to the pending orders of the market. *)
Definition UpdatePendingOrder (s : State) (m : MarketSymbol)
    (add : option PendingOrder) : State :=
  match add with
  | None => s
  | Some a =>
      let key := (Base m, Quote m) in
      {| tokens := tokens s;
         accounts := accounts s;
         orderExpirations := orderExpirations s;
         pendingOrders := <[key := default [] (pendingOrders s !! key) ++ [a]]> (pendingOrders s);
         accountCache := accountCache s;
         accountDirty := accountDirty s |}
  end.

(** The quantity a [PlaceOrder] reserves and the token it is taken from.
    On the buy side the source computes
    [uint64(float64(txn.Quant) * txn.Price)]: the quantity as a float,
    times the price, truncated. *)
Definition sellQuantAndToken (txn : PlaceOrderTxn) : Z * TokenID :=
  if SellSide txn then (Quant txn, Base (Market txn))
  else (uint64_of_float64 (float64_mul (float64_of_uint64 (Quant txn)) (Price txn)),
        Quote (Market txn)).

Definition setBalance (acc : Account) (id : TokenID) (b : Balance) : Account :=
  {| PK := PK acc; NonceVec := NonceVec acc;
     Balances := <[id := b]> (Balances acc);
     OrderMarkets := OrderMarkets acc |}.

(** [Transition.placeOrder] *)
Definition placeOrder (s : State) (owner : Account) (txn : PlaceOrderTxn) : bool * State :=
  match tokenCache_Info s (Base (Market txn)) with
  | None => (false, s)
  | Some baseInfo =>
  match tokenCache_Info s (Quote (Market txn)) with
  | None => (false, s)
  | Some quoteInfo =>
  let '(sellQuant, sell) := sellQuantAndToken txn in
  match Balances owner !! sell with
  | None => (false, s)
  | Some sb =>
  if Available sb <=? sellQuant then (false, s)
  else
    let owner := setBalance owner sell
                   {| Available := wrap64 (Available sb - sellQuant);
                      Pending := wrap64 (Pending sb + sellQuant) |} in
    let s := UpdateAccount s owner in
    let add := {| po_Owner := pkAddr (PK owner); po_Order := Order_zero |} in
    (true, UpdatePendingOrder s (Market txn) (Some add))
  end end end.

(** [gob]'s [Decoder.Decode(e)] stores through the pointer [e]; on a nil
    pointer it fails ("DecodeValue of unassignable value").  The target
    is [Some] for an allocated account and [None] for the nil pointer. *)
Definition gobDecodeAccount (target : option Account) (leaf : Account) : option Account :=
  match target with
  | None => None
  | Some _ => Some leaf
  end.

(** [Transition.sendToken] *)
Definition sendToken (s : State) (owner : Account) (txn : SendTokenTxn) : bool * State :=
  if send_Quant txn =? 0 then (false, s)
  else
  match Balances owner !! send_TokenID txn with
  | None => (false, s)
  | Some b =>
  if Available b <? send_Quant txn then (false, s)
  else
    let toAddr := pkAddr (To txn) in
    let to := accounts s !! toAddr in
    let toAcc0 : option Account := None in   (* var toAcc *Account *)
    let toAcc :=
      match to with
      | None => Some {| PK := To txn; NonceVec := []; Balances := ∅; OrderMarkets := [] |}
      | Some leaf => gobDecodeAccount toAcc0 leaf
      end in
    match toAcc with
    | None => (false, s)     (* error decode recv account *)
    | Some toAcc =>
        let owner := setBalance owner (send_TokenID txn)
                       {| Available := wrap64 (Available b - send_Quant txn);
                          Pending := Pending b |} in
        let tb := default {| Available := 0; Pending := 0 |}
                          (Balances toAcc !! send_TokenID txn) in
        let toAcc := setBalance toAcc (send_TokenID txn)
                       {| Available := wrap64 (Available tb + send_Quant txn);
                          Pending := Pending tb |} in
        let s := UpdateAccount s toAcc in
        let s := UpdateAccount s owner in
        (true, s)
    end
  end.

(** [Transition.Record]: the result is [(valid, success)] and the
    transition afterwards. *)
Definition Transition_Record (t : Transition) (b : bytes) : outcome (bool * bool * Transition) :=
  let '(s, (txn, acc, ready, valid)) := validateSigAndNonce (state t) b in
  if negb valid then Returned (false, false, {| state := s; txns := txns t |})
  else if negb ready then Returned (true, false, {| state := s; txns := txns t |})
  else
    match txn, acc with
    | Some txn, Some acc =>
        if T txn =? PlaceOrder then
          match gobDecodePlaceOrder (Data txn) with
          | None => Returned (true, false, {| state := s; txns := txns t |})
          | Some ptxn =>
              let '(ok, s) := placeOrder s acc ptxn in
              if ok then Returned (true, true, {| state := s; txns := txns t ++ [b] |})
              else Returned (true, false, {| state := s; txns := txns t |})
          end
        else if T txn =? CancelOrder then Panicked "not implemented"
        else if T txn =? CreateToken then Panicked "not implemented"
        else if T txn =? SendToken then
          match gobDecodeSendToken (Data txn) with
          | None => Returned (true, false, {| state := s; txns := txns t |})
          | Some stxn =>
              let '(ok, s) := sendToken s acc stxn in
              if ok then Returned (true, true, {| state := s; txns := txns t ++ [b] |})
              else Returned (true, false, {| state := s; txns := txns t |})
          end
        else Panicked "unknown txn type"
    | _, _ => Panicked "nil pointer dereference"
    end.

(** [Transition.Txns] *)
Definition Txns (t : Transition) : list bytes := txns t.

(** ** Views used to state the properties *)

(** The account an observer gets for an address: the cache entry if
    present, else the trie leaf (see [State_Account]). *)
Definition accountView (s : State) : gmap Z Account := accountCache s ∪ accounts s.

(** The units of a token an account holds: [Available + Pending]. *)
Definition accountUnits (id : TokenID) (acc : Account) : Z :=
  match Balances acc !! id with
  | Some b => Available b + Pending b
  | None => 0
  end.

(** The sum over all accounts of [Available + Pending] of a token. *)
Definition sumUnits (id : TokenID) (m : gmap Z Account) : Z :=
  map_fold (fun _ acc z => accountUnits id acc + z) 0 m.

Definition totalUnits (s : State) (id : TokenID) : Z :=
  sumUnits id (accountView s).

(** What an observer can read from a state: the account of every
    address, the account leaves, the dirty flags, the tokens, the pending
    orders and the expirations. *)
Definition sameObservableState (s s' : State) : Prop :=
  accountView s' = accountView s /\
  (forall addr, snd (State_Account s' addr) = snd (State_Account s addr)) /\
  accounts s' = accounts s /\
  accountDirty s' = accountDirty s /\
  tokens s' = tokens s /\
  pendingOrders s' = pendingOrders s /\
  orderExpirations s' = orderExpirations s.

(** The account a transfer creates for a new recipient. *)
Definition freshRecipient (txn : SendTokenTxn) : Account :=
  setBalance {| PK := To txn; NonceVec := []; Balances := ∅; OrderMarkets := [] |}
    (send_TokenID txn)
    {| Available := wrap64 (0 + send_Quant txn); Pending := 0 |}.

(** Well-formed accounts: each is stored under the address of its key
    and its balances are [uint64] values. *)
Definition balancesOk (m : gmap Z Account) : Prop :=
  (forall addr acc, m !! addr = Some acc -> pkAddr (PK acc) = addr) /\
  (forall addr acc id b,
      m !! addr = Some acc -> Balances acc !! id = Some b ->
      is_uint64 (Available b) /\ is_uint64 (Pending b)).

(** The payload decoders produce [uint64] quantities. *)
Definition CodecWf : Prop :=
  (forall b p, gobDecodePlaceOrder b = Some p -> is_uint64 (Quant p)) /\
  (forall b p, gobDecodeSendToken b = Some p -> is_uint64 (send_Quant p)).

(** Cached accounts are stored under the address of their key. *)
Definition cacheKeyed (s : State) : Prop :=
  forall addr acc, accountCache s !! addr = Some acc -> pkAddr (PK acc) = addr.

(** A cached account that is not flagged dirty is the account of the
    leaf. *)
Definition cacheCoherent (s : State) : Prop :=
  forall addr acc,
    accountCache s !! addr = Some acc ->
    accountDirty s !! addr = Some true \/ accounts s !! addr = Some acc.

(** Every address flagged dirty has a cached account. *)
Definition dirtyCached (s : State) : Prop :=
  forall addr, accountDirty s !! addr = Some true -> is_Some (accountCache s !! addr).

(** The bytes [b], if they are a transfer, name a recipient that has no
    account in [s] yet, neither a leaf nor a cached account (the
    recipient is created by the transfer). *)
Definition lazyRecipient (s : State) (b : bytes) : Prop :=
  forall txn stxn,
    decodeTxn b = Some txn -> T txn = SendToken ->
    gobDecodeSendToken (Data txn) = Some stxn ->
    accountView s !! pkAddr (To stxn) = None.

(** The transitions the chain builds from genesis.  The genesis state
    has its account cache committed ([Serialize] does it) and a
    transition is opened on it with [State.Transition]; transactions are
    recorded, every successful transfer going to a recipient without an
    account; a transition is committed and the next one opened on the
    state it leaves. *)
Inductive reachable (recipients : list consensus_PK) (additionalTokens : list TokenInfo)
  : Transition -> Prop :=
| reachable_genesis round :
    reachable recipients additionalTokens
      (State_Transition (CommitCache (CreateGenesisState recipients additionalTokens)) round)
| reachable_Record t b valid success t' :
    reachable recipients additionalTokens t ->
    Transition_Record t b = Returned (valid, success, t') ->
    (success = true -> lazyRecipient (state t) b) ->
    reachable recipients additionalTokens t'
| reachable_Commit t round :
    reachable recipients additionalTokens t ->
    reachable recipients additionalTokens (State_Transition (Transition_Commit t) round).

End WithCodec.

(** The balance an observer reads for an address and a token. *)
Definition balanceOf (s : State) (addr : consensus_Addr) (id : TokenID) : option Balance :=
  match accountView s !! addr with
  | Some acc => Balances acc !! id
  | None => None
  end.

(** ** The scenarios of the design document

    Two recipients [P1], [P2], a third key [P3], the extra token ACME,
    and a table codec: the one-byte string [[k]] is the [k]-th
    transaction below and carries the [k]-th payload. *)
Definition P1 : consensus_PK := [1].
Definition P2 : consensus_PK := [2].
Definition P3 : consensus_PK := [3].

Definition ACME : TokenInfo :=
  {| Symbol := "ACME"; Decimals := 2; TotalUnits := 1000000 |}.

Definition BNB_ID : TokenID := 0.
Definition ACME_ID : TokenID := 1.

(** Public keys are read as little-endian numbers. *)
Definition example_pkAddr (pk : consensus_PK) : consensus_Addr :=
  foldr (fun b a => b + 256 * a) 0 pk.

(** Scenario A: send 10_000 ACME from P1 to P2. *)
Definition sendA : SendTokenTxn :=
  {| send_TokenID := ACME_ID; To := P2; send_Quant := 10000 |}.

(** The [float64] values 5.0 and 1.0. *)
Definition float64_5 : float64 := S754_finite false 5629499534213120 (-50).
Definition float64_1 : float64 := S754_finite false 4503599627370496 (-52).

(** Scenario B: P1 sells 1_000 ACME at 5.0 BNB, expiring at round 100. *)
Definition orderB : PlaceOrderTxn :=
  {| SellSide := true; Quant := 1000; Price := float64_5; ExpireRound := 100;
     Market := {| Base := ACME_ID; Quote := BNB_ID |} |}.

(** Scenario C: P1 buys 1_000 ACME at 5.0 BNB. *)
Definition orderC : PlaceOrderTxn :=
  {| SellSide := false; Quant := 1000; Price := float64_5; ExpireRound := 100;
     Market := {| Base := ACME_ID; Quote := BNB_ID |} |}.

(** P1 buys [2^53 + 1] ACME at 1.0 BNB. *)
Definition orderBig : PlaceOrderTxn :=
  {| SellSide := false; Quant := 9007199254740993; Price := float64_1; ExpireRound := 100;
     Market := {| Base := ACME_ID; Quote := BNB_ID |} |}.

(** A send of 10_000 ACME from P1 to the new key P3. *)
Definition sendP3 : SendTokenTxn :=
  {| send_TokenID := ACME_ID; To := P3; send_Quant := 10000 |}.

Definition example_decodeTxn (b : bytes) : option Txn :=
  match b with
  | [1] => Some {| T := SendToken; Data := [1]; NonceIdx := 0; NonceValue := 0;
                   Owner := example_pkAddr P1; TxnSig := [] |}
  | [2] => Some {| T := PlaceOrder; Data := [2]; NonceIdx := 0; NonceValue := 0;
                   Owner := example_pkAddr P1; TxnSig := [] |}
  | [3] => Some {| T := PlaceOrder; Data := [3]; NonceIdx := 0; NonceValue := 0;
                   Owner := example_pkAddr P1; TxnSig := [] |}
  (* Scenario D: slot 0, value 9 *)
  | [4] => Some {| T := PlaceOrder; Data := [2]; NonceIdx := 0; NonceValue := 9;
                   Owner := example_pkAddr P1; TxnSig := [] |}
  | [5] => Some {| T := SendToken; Data := [5]; NonceIdx := 0; NonceValue := 0;
                   Owner := example_pkAddr P1; TxnSig := [] |}
  | [6] => Some {| T := PlaceOrder; Data := [6]; NonceIdx := 0; NonceValue := 0;
                   Owner := example_pkAddr P1; TxnSig := [] |}
  (* a cancellation, which the transition does not implement *)
  | [7] => Some {| T := CancelOrder; Data := []; NonceIdx := 0; NonceValue := 0;
                   Owner := example_pkAddr P1; TxnSig := [] |}
  | _ => None
  end.

Definition example_gobDecodePlaceOrder (b : bytes) : option PlaceOrderTxn :=
  match b with
  | [2] => Some orderB
  | [3] => Some orderC
  | [6] => Some orderBig
  | _ => None
  end.

Definition example_gobDecodeSendToken (b : bytes) : option SendTokenTxn :=
  match b with
  | [1] => Some sendA
  | [5] => Some sendP3
  | _ => None
  end.

Definition exampleCodec : Codec :=
  {| pkAddr := example_pkAddr;
     decodeTxn := example_decodeTxn;
     gobDecodePlaceOrder := example_gobDecodePlaceOrder;
     gobDecodeSendToken := example_gobDecodeSendToken |}.

(** Scenario A's genesis. *)
Definition genesisA : State :=
  CreateGenesisState (codec := exampleCodec) [P1; P2] [ACME].

(** Scenario A's genesis with its account cache committed, and the
    transition of round 1 opened on it. *)
Definition genesisA_committed : State := CommitCache (codec := exampleCodec) genesisA.

Definition transitionA : Transition := State_Transition genesisA_committed 1.

(** The transition after [Record] of [b]. *)
Definition afterRecord (t : Transition) (b : bytes) : Transition :=
  match Transition_Record (codec := exampleCodec) t b with
  | Returned (_, _, t') => t'
  | Panicked _ => t
  end.

(** The transition of round 1 after the Scenario A transfer, after the
    Scenario C order, after the order of [2^53 + 1] ACME, and after one
    and two transfers of 10_000 ACME from P1 to the new key P3. *)
Definition transitionA1 : Transition := afterRecord transitionA [1].
Definition transitionA5 : Transition := afterRecord transitionA [5].
Definition transitionA55 : Transition := afterRecord transitionA5 [5].

(** Scenario D's account: P1 with nonce slot 0 at counter 7. *)
Definition stateD : State :=
  UpdateAccount (codec := exampleCodec)
    (UpdateToken (UpdateToken NewState {| ID := BNB_ID; Info := BNBInfo |})
                 {| ID := ACME_ID; Info := ACME |})
    {| PK := P1; NonceVec := [7];
       Balances := <[ACME_ID := {| Available := 500000; Pending := 0 |}]> ∅;
       OrderMarkets := [] |}.

(** The genesis account of P1, and an order selling all of its ACME. *)
Definition accountP1 : Account :=
  {| PK := P1; NonceVec := [];
     Balances := genesisBalances 2 (genesisTokens [ACME]); OrderMarkets := [] |}.

Definition orderAll : PlaceOrderTxn :=
  {| SellSide := true; Quant := 500000; Price := float64_5; ExpireRound := 100;
     Market := {| Base := ACME_ID; Quote := BNB_ID |} |}.

(** ** Paths of the state trie ([state.go]) *)

Definition accountPrefix : bytes := [0].
Definition marketPrefix : bytes := [1].
Definition tokenPrefix : bytes := [2].
Definition orderExpirationPrefix : bytes := [3].
Definition freezeAtRoundPrefix : bytes := [4].

(** [freezeAtRoundToPath] *)
Definition freezeAtRoundToPath (round : Z) : bytes :=
  let b := make_bytes 64 in
  let b := PutUint64 b round in
  freezeAtRoundPrefix ++ b.

(** [accountAddrToPath]; [addr] is the 20 bytes [addr[:]]. *)
Definition accountAddrToPath (addr : bytes) : bytes := accountPrefix ++ addr.

(** [expirationToPath] *)
Definition expirationToPath (round : Z) : bytes :=
  let b := make_bytes 64 in
  let b := PutUint64 b round in
  orderExpirationPrefix ++ b.

(** [tokenPath] *)
Definition tokenPath (tokenID : TokenID) : bytes :=
  let path := make_bytes 64 in
  let path := PutUint64 path tokenID in
  tokenPrefix ++ path.

(** [marketPath] *)
Definition marketPath (path : bytes) : bytes := marketPrefix ++ path.

(** [encodePath]: the nibbles of a byte string, written into a buffer
    of twice the length. *)
Definition encodePath (str : bytes) : bytes :=
  let l := (length str * 2)%nat in
  let nibbles := make_bytes l in
  foldl (fun nibbles ib =>
           let i := fst ib in
           let b := snd ib in
           let nibbles := <[(i * 2)%nat := b / 16]> nibbles in
           <[(i * 2 + 1)%nat := b mod 16]> nibbles)
        nibbles (imap (fun i b => (i, b)) str).

(** ** More of the state ([state.go]) *)

(** [State.RemoveOrderExpirations]: the entries of the round whose id
    is not flagged in [ids] are kept, in order, and written back. *)
Definition RemoveOrderExpirations (s : State) (round : Z) (ids : gmap Z bool) : State :=
  let all := getOrderExpirations s round in
  let newExps :=
    foldl (fun newExps exp =>
             if negb (default false (ids !! exp_ID exp)) then newExps ++ [exp]
             else newExps)
          [] all in
  {| tokens := tokens s;
     accounts := accounts s;
     orderExpirations := <[round := newExps]> (orderExpirations s);
     pendingOrders := pendingOrders s;
     accountCache := accountCache s;
     accountDirty := accountDirty s |}.

End Dex.

Module Consensus.

Abbreviation Hash := Z.           (* [32]byte, as a 256-bit number *)
Abbreviation Addr := Z.
Abbreviation PK := (list Z).
Abbreviation Sig := (list Z).
Abbreviation float64 := spec_float.

(** ** Blocks, proposals, notarization shares *)

Record SysTxn : Type := mkSysTxn { sys_Data : bytes }.

Record Block : Type := mkBlock {
  b_Owner : Addr;
  b_Round : Z;                  (* uint64 *)
  b_BlockProposal : Hash;
  b_PrevBlock : Hash;
  b_SysTxns : list SysTxn;
  b_StateRoot : Hash;
  b_NotarizationSig : Sig
}.

Record BlockProposal : Type := mkBlockProposal {
  bp_Round : Z;
  bp_PrevBlock : Hash;
  bp_Owner : Addr;
  bp_SysTxns : list SysTxn;
  bp_Data : bytes;
  bp_OwnerSig : Sig
}.

(** Modelled from the spec: the declaration of [NtShare] is not in the
    sources; the chain reads its round, the proposal it notarizes
    ([BP]) and its owner, and it carries a signature share. *)
Record NtShare : Type := mkNtShare {
  nt_Round : Z;
  nt_BP : Hash;
  nt_Owner : Addr;
  nt_SigShare : Sig
}.

(** ** The fork tree ([chain.go]) *)

Record bpNode : Type := mkBpNode {
  bpn_BP : Hash;
  bpn_Weight : float64
}.

#[local] Unset Elimination Schemes.
Inductive blockNode : Type :=
| mkBlockNode (Block_ : Hash) (BP : Hash) (Weight : float64)
              (blockChildren : list blockNode) (bpChildren : list bpNode).

#[local] Set Elimination Schemes.

Definition bn_Block (n : blockNode) : Hash :=
  match n with mkBlockNode blk _ _ _ _ => blk end.
Definition bn_BP (n : blockNode) : Hash :=
  match n with mkBlockNode _ bp _ _ _ => bp end.
Definition bn_Weight (n : blockNode) : float64 :=
  match n with mkBlockNode _ _ w _ _ => w end.
Definition bn_blockChildren (n : blockNode) : list blockNode :=
  match n with mkBlockNode _ _ _ cs _ => cs end.
Definition bn_bpChildren (n : blockNode) : list bpNode :=
  match n with mkBlockNode _ _ _ _ bps => bps end.

(** The hashes of the blocks of a fork tree, a node before its
    children and the children before the next sibling. *)
Fixpoint blocksOf_node (n : blockNode) : list Hash :=
  match n with
  | mkBlockNode blk _ _ children _ =>
      blk :: (fix go (ns : list blockNode) : list Hash :=
                match ns with
                | [] => []
                | c :: rest => blocksOf_node c ++ go rest
                end) children
  end.

Definition blocksOf (ns : list blockNode) : list Hash :=
  foldr (fun n l => blocksOf_node n ++ l) [] ns.



(** The errors the chain and the syncer return. *)
Inductive error : Type :=
| errCanNotConnectToChain          (* "can not connect to chain" *)
| errParentNotFound (prevBlock : Hash) (round : Z)
                                   (* "block proposal's parent not found: %x, round: %d" *)
| errInvalidTxnData                (* "impossible: notarized block contains invalid txn data: %v" *)
| errInvalidTransactions           (* "invalid transactions: %v" *)
| errFailedToApply                 (* "failed to apply transactions" *)
| errInvalidStateRoot              (* "invalid state root" *)
| errRequest (code : Z).           (* an error of the requester *)

(** What the consensus package takes from outside: the application's
    [State] and [Transition] interfaces, the system state, the [rlp]
    decoding of a transaction batch, the hashes and encodings of the
    chain's items, and the threshold signature scheme. *)
Class Env : Type := mkEnv {
  State : Type;
  SysState : Type;
  Transition : Type;
  State_Transition : State -> Z -> Transition;
  Transition_Record : Transition -> bytes -> bool * bool * Transition;
  Transition_StateHash : Transition -> Hash;
  Transition_Commit : Transition -> State;
  rlpDecodeTxns : bytes -> option (list bytes);
  SHA3 : bytes -> Hash;
  Block_Hash : Block -> Hash;
  Block_Encode : Block -> bool -> bytes;
  BlockProposal_Hash : BlockProposal -> Hash;
  NtShare_Hash : NtShare -> Hash;
  recoverNtSig : list NtShare -> option Sig;
  Sig_Verify : Sig -> PK -> bytes -> bool
}.

Section WithEnv.
Context {env : Env}.

(** The calls the chain hands to other goroutines or to the pool. *)
Inductive Effect : Type :=
| recvBPForNotary (bp : BlockProposal)   (* go c.n.recvBPForNotary(bp) *)
| Update (leaderState : option State)    (* go c.updater.Update(leaderState) *)
| EndRound (round : Z)                   (* go c.n.EndRound(beginRound) *)
| txnPool_Remove (h : Hash).             (* c.txnPool.Remove(SHA3(txn)) *)

(** The chain: the configuration's group threshold, the public keys of
    the random beacon's groups, and the mutable fields of [Chain].  A
    [nil] state is [None]. *)
Record Chain : Type := mkChain {
  cfg_GroupThreshold : Z;
  groups : list PK;
  finalized : list Hash;
  lastFinalizedState : option State;
  lastFinalizedSysState : option SysState;
  fork : list blockNode;
  bpNotOnFork : list bpNode;
  unFinalizedState : gmap Z (option State);
  unFinalizedSysState : gmap Z (option SysState);
  hashToBlock : gmap Z Block;
  hashToBP : gmap Z BlockProposal;
  hashToNtShare : gmap Z NtShare;
  bpToNtShares : gmap Z (list NtShare);
  bpNeedNotarize : gmap Z bool
}.

Definition set_finalized (v : list Hash) (c : Chain) : Chain :=
  {| cfg_GroupThreshold := cfg_GroupThreshold c;
     groups := groups c;
     finalized := v;
     lastFinalizedState := lastFinalizedState c;
     lastFinalizedSysState := lastFinalizedSysState c;
     fork := fork c;
     bpNotOnFork := bpNotOnFork c;
     unFinalizedState := unFinalizedState c;
     unFinalizedSysState := unFinalizedSysState c;
     hashToBlock := hashToBlock c;
     hashToBP := hashToBP c;
     hashToNtShare := hashToNtShare c;
     bpToNtShares := bpToNtShares c;
     bpNeedNotarize := bpNeedNotarize c |}.

Definition set_lastFinalizedState (v : option State) (c : Chain) : Chain :=
  {| cfg_GroupThreshold := cfg_GroupThreshold c;
     groups := groups c;
     finalized := finalized c;
     lastFinalizedState := v;
     lastFinalizedSysState := lastFinalizedSysState c;
     fork := fork c;
     bpNotOnFork := bpNotOnFork c;
     unFinalizedState := unFinalizedState c;
     unFinalizedSysState := unFinalizedSysState c;
     hashToBlock := hashToBlock c;
     hashToBP := hashToBP c;
     hashToNtShare := hashToNtShare c;
     bpToNtShares := bpToNtShares c;
     bpNeedNotarize := bpNeedNotarize c |}.

Definition set_lastFinalizedSysState (v : option SysState) (c : Chain) : Chain :=
  {| cfg_GroupThreshold := cfg_GroupThreshold c;
     groups := groups c;
     finalized := finalized c;
     lastFinalizedState := lastFinalizedState c;
     lastFinalizedSysState := v;
     fork := fork c;
     bpNotOnFork := bpNotOnFork c;
     unFinalizedState := unFinalizedState c;
     unFinalizedSysState := unFinalizedSysState c;
     hashToBlock := hashToBlock c;
     hashToBP := hashToBP c;
     hashToNtShare := hashToNtShare c;
     bpToNtShares := bpToNtShares c;
     bpNeedNotarize := bpNeedNotarize c |}.

Definition set_fork (v : list blockNode) (c : Chain) : Chain :=
  {| cfg_GroupThreshold := cfg_GroupThreshold c;
     groups := groups c;
     finalized := finalized c;
     lastFinalizedState := lastFinalizedState c;
     lastFinalizedSysState := lastFinalizedSysState c;
     fork := v;
     bpNotOnFork := bpNotOnFork c;
     unFinalizedState := unFinalizedState c;
     unFinalizedSysState := unFinalizedSysState c;
     hashToBlock := hashToBlock c;
     hashToBP := hashToBP c;
     hashToNtShare := hashToNtShare c;
     bpToNtShares := bpToNtShares c;
     bpNeedNotarize := bpNeedNotarize c |}.

Definition set_bpNotOnFork (v : list bpNode) (c : Chain) : Chain :=
  {| cfg_GroupThreshold := cfg_GroupThreshold c;
     groups := groups c;
     finalized := finalized c;
     lastFinalizedState := lastFinalizedState c;
     lastFinalizedSysState := lastFinalizedSysState c;
     fork := fork c;
     bpNotOnFork := v;
     unFinalizedState := unFinalizedState c;
     unFinalizedSysState := unFinalizedSysState c;
     hashToBlock := hashToBlock c;
     hashToBP := hashToBP c;
     hashToNtShare := hashToNtShare c;
     bpToNtShares := bpToNtShares c;
     bpNeedNotarize := bpNeedNotarize c |}.

Definition set_unFinalizedState (v : gmap Z (option State)) (c : Chain) : Chain :=
  {| cfg_GroupThreshold := cfg_GroupThreshold c;
     groups := groups c;
     finalized := finalized c;
     lastFinalizedState := lastFinalizedState c;
     lastFinalizedSysState := lastFinalizedSysState c;
     fork := fork c;
     bpNotOnFork := bpNotOnFork c;
     unFinalizedState := v;
     unFinalizedSysState := unFinalizedSysState c;
     hashToBlock := hashToBlock c;
     hashToBP := hashToBP c;
     hashToNtShare := hashToNtShare c;
     bpToNtShares := bpToNtShares c;
     bpNeedNotarize := bpNeedNotarize c |}.

Definition set_unFinalizedSysState (v : gmap Z (option SysState)) (c : Chain) : Chain :=
  {| cfg_GroupThreshold := cfg_GroupThreshold c;
     groups := groups c;
     finalized := finalized c;
     lastFinalizedState := lastFinalizedState c;
     lastFinalizedSysState := lastFinalizedSysState c;
     fork := fork c;
     bpNotOnFork := bpNotOnFork c;
     unFinalizedState := unFinalizedState c;
     unFinalizedSysState := v;
     hashToBlock := hashToBlock c;
     hashToBP := hashToBP c;
     hashToNtShare := hashToNtShare c;
     bpToNtShares := bpToNtShares c;
     bpNeedNotarize := bpNeedNotarize c |}.

Definition set_hashToBlock (v : gmap Z Block) (c : Chain) : Chain :=
  {| cfg_GroupThreshold := cfg_GroupThreshold c;
     groups := groups c;
     finalized := finalized c;
     lastFinalizedState := lastFinalizedState c;
     lastFinalizedSysState := lastFinalizedSysState c;
     fork := fork c;
     bpNotOnFork := bpNotOnFork c;
     unFinalizedState := unFinalizedState c;
     unFinalizedSysState := unFinalizedSysState c;
     hashToBlock := v;
     hashToBP := hashToBP c;
     hashToNtShare := hashToNtShare c;
     bpToNtShares := bpToNtShares c;
     bpNeedNotarize := bpNeedNotarize c |}.

Definition set_hashToBP (v : gmap Z BlockProposal) (c : Chain) : Chain :=
  {| cfg_GroupThreshold := cfg_GroupThreshold c;
     groups := groups c;
     finalized := finalized c;
     lastFinalizedState := lastFinalizedState c;
     lastFinalizedSysState := lastFinalizedSysState c;
     fork := fork c;
     bpNotOnFork := bpNotOnFork c;
     unFinalizedState := unFinalizedState c;
     unFinalizedSysState := unFinalizedSysState c;
     hashToBlock := hashToBlock c;
     hashToBP := v;
     hashToNtShare := hashToNtShare c;
     bpToNtShares := bpToNtShares c;
     bpNeedNotarize := bpNeedNotarize c |}.

Definition set_hashToNtShare (v : gmap Z NtShare) (c : Chain) : Chain :=
  {| cfg_GroupThreshold := cfg_GroupThreshold c;
     groups := groups c;
     finalized := finalized c;
     lastFinalizedState := lastFinalizedState c;
     lastFinalizedSysState := lastFinalizedSysState c;
     fork := fork c;
     bpNotOnFork := bpNotOnFork c;
     unFinalizedState := unFinalizedState c;
     unFinalizedSysState := unFinalizedSysState c;
     hashToBlock := hashToBlock c;
     hashToBP := hashToBP c;
     hashToNtShare := v;
     bpToNtShares := bpToNtShares c;
     bpNeedNotarize := bpNeedNotarize c |}.

Definition set_bpToNtShares (v : gmap Z (list NtShare)) (c : Chain) : Chain :=
  {| cfg_GroupThreshold := cfg_GroupThreshold c;
     groups := groups c;
     finalized := finalized c;
     lastFinalizedState := lastFinalizedState c;
     lastFinalizedSysState := lastFinalizedSysState c;
     fork := fork c;
     bpNotOnFork := bpNotOnFork c;
     unFinalizedState := unFinalizedState c;
     unFinalizedSysState := unFinalizedSysState c;
     hashToBlock := hashToBlock c;
     hashToBP := hashToBP c;
     hashToNtShare := hashToNtShare c;
     bpToNtShares := v;
     bpNeedNotarize := bpNeedNotarize c |}.

Definition set_bpNeedNotarize (v : gmap Z bool) (c : Chain) : Chain :=
  {| cfg_GroupThreshold := cfg_GroupThreshold c;
     groups := groups c;
     finalized := finalized c;
     lastFinalizedState := lastFinalizedState c;
     lastFinalizedSysState := lastFinalizedSysState c;
     fork := fork c;
     bpNotOnFork := bpNotOnFork c;
     unFinalizedState := unFinalizedState c;
     unFinalizedSysState := unFinalizedSysState c;
     hashToBlock := hashToBlock c;
     hashToBP := hashToBP c;
     hashToNtShare := hashToNtShare c;
     bpToNtShares := bpToNtShares c;
     bpNeedNotarize := v |}.

(** [maxHeight] *)
Fixpoint maxHeight_node (n : blockNode) : nat :=
  match n with
  | mkBlockNode _ _ _ children _ =>
      S ((fix go (ns : list blockNode) : nat :=
            match ns with
            | [] => 0%nat
            | c :: rest => Nat.max (maxHeight_node c) (go rest)
            end) children)
  end.

Definition maxHeight (ns : list blockNode) : nat :=
  foldr (fun n m => Nat.max (maxHeight_node n) m) 0%nat ns.

(** [Chain.round] *)
Definition round (c : Chain) : Z :=
  wrap64 (Z.of_nat (length (finalized c) + maxHeight (fork c))).

(** [Chain.FinalizedRound]: [uint64(len(c.finalized) - 1)] *)
Definition FinalizedRound (c : Chain) : Z :=
  wrap64 (Z.of_nat (length (finalized c)) - 1).

(** [Chain.Genesis]: [c.finalized[0]] *)
Definition Genesis (c : Chain) : option Hash := head (finalized c).

(** [Chain.Block] *)
Definition Chain_Block (c : Chain) (h : Hash) : option Block := hashToBlock c !! h.

(** [Chain.NeedNotarize]: a proposal that has not arrived is treated as
    needing notarization. *)
Definition NeedNotarize (c : Chain) (h : Hash) : bool :=
  match bpNeedNotarize c !! h with
  | Some b => b
  | None => true
  end.

(** [Chain.BlockProposal] *)
Definition Chain_BlockProposal (c : Chain) (h : Hash) : option BlockProposal :=
  hashToBP c !! h.

(** [Chain.NtShare] *)
Definition Chain_NtShare (c : Chain) (h : Hash) : option NtShare :=
  hashToNtShare c !! h.

(** [findPrevBlock]: depth-first, a node before its children, the
    children before the next sibling; the index is the position of the
    node that was found among its siblings. *)
Fixpoint findPrevBlock_node (prevBlock : Hash) (n : blockNode) (i : nat)
  : option (blockNode * nat) :=
  match n with
  | mkBlockNode blk _ _ children _ =>
      if blk =? prevBlock then Some (n, i)
      else
        (fix go (ns : list blockNode) (j : nat) : option (blockNode * nat) :=
           match ns with
           | [] => None
           | c :: rest =>
               match findPrevBlock_node prevBlock c j with
               | Some r => Some r
               | None => go rest (S j)
               end
           end) children 0%nat
  end.

Fixpoint findPrevBlock_from (prevBlock : Hash) (ns : list blockNode) (i : nat)
  : option (blockNode * nat) :=
  match ns with
  | [] => None
  | n :: rest =>
      match findPrevBlock_node prevBlock n i with
      | Some r => Some r
      | None => findPrevBlock_from prevBlock rest (S i)
      end
  end.

Definition findPrevBlock (prevBlock : Hash) (ns : list blockNode)
  : option (blockNode * nat) :=
  findPrevBlock_from prevBlock ns 0.

(** An assignment through the pointer [findPrevBlock] returns: the
    node it finds is replaced by [f] of it; [None] when there is none. *)
Fixpoint updatePrevBlock_node (prevBlock : Hash) (f : blockNode -> blockNode)
    (n : blockNode) : option blockNode :=
  match n with
  | mkBlockNode blk bp w children bps =>
      if blk =? prevBlock then Some (f n)
      else
        match (fix go (ns : list blockNode) : option (list blockNode) :=
                 match ns with
                 | [] => None
                 | c :: rest =>
                     match updatePrevBlock_node prevBlock f c with
                     | Some c' => Some (c' :: rest)
                     | None =>
                         match go rest with
                         | Some rest' => Some (c :: rest')
                         | None => None
                         end
                     end
                 end) children with
        | Some children' => Some (mkBlockNode blk bp w children' bps)
        | None => None
        end
  end.

Fixpoint updatePrevBlock (prevBlock : Hash) (f : blockNode -> blockNode)
    (ns : list blockNode) : option (list blockNode) :=
  match ns with
  | [] => None
  | n :: rest =>
      match updatePrevBlock_node prevBlock f n with
      | Some n' => Some (n' :: rest)
      | None =>
          match updatePrevBlock prevBlock f rest with
          | Some rest' => Some (n :: rest')
          | None => None
          end
      end
  end.

(** [Chain.heaviestFork]: the first child, all the way down. *)
Fixpoint heaviestFork_node (n : blockNode) : blockNode :=
  match n with
  | mkBlockNode _ _ _ children _ =>
      match children with
      | [] => n
      | c :: _ => heaviestFork_node c
      end
  end.

(** [Chain.blockToState] *)
Definition blockToState (c : Chain) (h : Hash) : outcome (option State) :=
  match last (finalized c) with
  | None => Panicked "index out of range"
  | Some tip =>
      if h =? tip then Returned (lastFinalizedState c)
      else Returned (default None (unFinalizedState c !! h))
  end.

(** [Chain.leader] *)
Definition leader (c : Chain)
  : outcome (option Block * option State * option SysState) :=
  match fork c with
  | [] =>
      match last (finalized c) with
      | None => Panicked "index out of range"
      | Some tip =>
          Returned (hashToBlock c !! tip, lastFinalizedState c, lastFinalizedSysState c)
      end
  | n0 :: _ =>
      let n := heaviestFork_node n0 in
      Returned (hashToBlock c !! bn_Block n,
                default None (unFinalizedState c !! bn_Block n),
                default None (unFinalizedSysState c !! bn_Block n))
  end.

(** [Chain.addBP] *)
Definition addBP (c : Chain) (bp : BlockProposal) (weight : float64)
  : outcome (bool * option error * Chain * list Effect) :=
  let h := BlockProposal_Hash bp in
  match hashToBP c !! h with
  | Some _ => Returned (false, None, c, [])
  | None =>
      let notarized := findPrevBlock (bp_PrevBlock bp) (fork c) in
      let parentKnown : outcome bool :=
        match notarized with
        | Some _ => Returned true
        | None =>
            match last (finalized c) with
            | None => Panicked "index out of range"
            | Some tip => Returned (tip =? bp_PrevBlock bp)
            end
        end in
      match parentKnown with
      | Panicked m => Panicked m
      | Returned false =>
          Returned (false, Some (errParentNotFound (bp_PrevBlock bp) (bp_Round bp)), c, [])
      | Returned true =>
          let c := set_hashToBP (<[h := bp]> (hashToBP c)) c in
          let u := {| bpn_BP := h; bpn_Weight := weight |} in
          let c :=
            match notarized with
            | Some _ =>
                (* notarized.bpChildren = append(notarized.bpChildren, u) *)
                set_fork
                  (default (fork c)
                     (updatePrevBlock (bp_PrevBlock bp)
                        (fun n => mkBlockNode (bn_Block n) (bn_BP n) (bn_Weight n)
                                    (bn_blockChildren n) (bn_bpChildren n ++ [u]))
                        (fork c))) c
            | None => set_bpNotOnFork (bpNotOnFork c ++ [u]) c
            end in
          let c := set_bpNeedNotarize (<[h := true]> (bpNeedNotarize c)) c in
          Returned (true, None, c, [recvBPForNotary bp])
      end
  end.

(** [getTransition]: re-applies a proposal's batch to a state.  The
    transition built so far is returned together with the error. *)
Fixpoint recordAll (trans : Transition) (txns : list bytes) : Transition * option error :=
  match txns with
  | [] => (trans, None)
  | t :: rest =>
      let '(valid, success, trans) := Transition_Record trans t in
      if negb valid || negb success then (trans, Some errFailedToApply)
      else recordAll trans rest
  end.

Definition getTransition (state : option State) (txnData : bytes) (round : Z)
  : outcome (Transition * option error) :=
  match state with
  | None => Panicked "nil pointer dereference"
  | Some st =>
      let trans := State_Transition st round in
      if Nat.eqb (length txnData) 0 then Returned (trans, None)
      else
        match rlpDecodeTxns txnData with
        | None => Returned (trans, Some errInvalidTransactions)
        | Some txns => Returned (recordAll trans txns)
        end
  end.

(** [b.NotarizationSig = sig] *)
Definition set_NotarizationSig (sig : Sig) (b : Block) : Block :=
  {| b_Owner := b_Owner b;
     b_Round := b_Round b;
     b_BlockProposal := b_BlockProposal b;
     b_PrevBlock := b_PrevBlock b;
     b_SysTxns := b_SysTxns b;
     b_StateRoot := b_StateRoot b;
     b_NotarizationSig := sig |}.

(** The block [addNtShare] builds for a proposal, before it is signed. *)
Definition blockOfProposal (bp : BlockProposal) (trans : Transition) : Block :=
  {| b_Owner := bp_Owner bp;
     b_Round := bp_Round bp;
     b_BlockProposal := BlockProposal_Hash bp;
     b_PrevBlock := bp_PrevBlock bp;
     b_SysTxns := bp_SysTxns bp;
     b_StateRoot := Transition_StateHash trans;
     b_NotarizationSig := [] |}.

(** The shares stored for a proposal. *)
Definition sharesOf (c : Chain) (bp : Hash) : list NtShare :=
  default [] (bpToNtShares c !! bp).

(** [Chain.addNtShare]: the result is [(b, added, success)]. *)
Definition addNtShare (c : Chain) (n : NtShare) (groupID : Z)
  : outcome (option Block * bool * bool * Chain) :=
  match hashToBP c !! nt_BP n with
  | None => Returned (None, false, false, c)
  | Some bp =>
      if negb (default false (bpNeedNotarize c !! nt_BP n))
      then Returned (None, false, true, c)
      else if existsb (fun s => nt_Owner s =? nt_Owner n) (sharesOf c (nt_BP n))
      then Returned (None, false, true, c)
      else
        let shares := sharesOf c (nt_BP n) ++ [n] in
        let c := set_bpToNtShares (<[nt_BP n := shares]> (bpToNtShares c)) c in
        if cfg_GroupThreshold c <=? Z.of_nat (length shares) then
          match recoverNtSig shares with
          | None => Panicked "recoverNtSig"
          | Some sig =>
              match blockToState c (bp_PrevBlock bp) with
              | Panicked m => Panicked m
              | Returned None => Panicked "TODO"
              | Returned (Some state) =>
                  match getTransition (Some state) (bp_Data bp) (bp_Round bp) with
                  | Panicked m => Panicked m
                  | Returned (_, Some _) => Panicked "TODO"
                  | Returned (trans, None) =>
                      let b := blockOfProposal bp trans in
                      let msg := Block_Encode b false in
                      if groupID <? 0 then Panicked "index out of range"
                      else
                        match groups c !! Z.to_nat groupID with
                        | None => Panicked "index out of range"
                        | Some groupPK =>
                            if negb (Sig_Verify sig groupPK msg)
                            then Panicked "impossible: group sig not valid"
                            else
                              let b := set_NotarizationSig sig b in
                              let c := set_bpNeedNotarize
                                         (delete (nt_BP n) (bpNeedNotarize c)) c in
                              let c := set_hashToNtShare
                                         (foldl (fun m share => delete (NtShare_Hash share) m)
                                                (hashToNtShare c) shares) c in
                              let c := set_bpToNtShares
                                         (delete (nt_BP n) (bpToNtShares c)) c in
                              Returned (Some b, true, true, c)
                        end
                  end
              end
          end
        else
          let c := set_hashToNtShare (<[NtShare_Hash n := n]> (hashToNtShare c)) c in
          Returned (None, true, true, c)
  end.

(** [Chain.finalize] *)
Definition finalize (c : Chain) (round : Z) : outcome Chain :=
  let depth := round in
  let count := wrap64 (Z.of_nat (length (finalized c))) in
  if depth <? count then Returned c
  else
    let depth := wrap64 (depth - count) in
    let c := set_bpNotOnFork [] c in
    if depth =? 0 then
      if Nat.ltb 1 (length (fork c)) then Returned c
      else
        match fork c with
        | [] => Panicked "index out of range"
        | f :: _ =>
            let c := set_finalized (finalized c ++ [bn_Block f]) c in
            let c := set_lastFinalizedState
                       (default None (unFinalizedState c !! bn_Block f)) c in
            let c := set_unFinalizedState (delete (bn_Block f) (unFinalizedState c)) c in
            let c := set_lastFinalizedSysState
                       (default None (unFinalizedSysState c !! bn_Block f)) c in
            let c := set_unFinalizedSysState
                       (delete (bn_Block f) (unFinalizedSysState c)) c in
            let c := set_fork (bn_blockChildren f) c in
            let c := set_bpNotOnFork (bn_bpChildren f) c in
            Returned c
        end
    else Panicked "not under normal operation, not implemented".

(** [append(l[:i], l[i+1:]...)]; the slice expressions panic unless
    [i < len(l)]. *)
Definition removeAt {A : Type} (i : nat) (l : list A) : outcome (list A) :=
  if Nat.ltb i (length l) then Returned (take i l ++ drop (S i) l)
  else Panicked "slice bounds out of range".

(** The last index [i] with [l[i].BP == bp], as the loop of [addBlock]
    computes it ([None] for [-1]). *)
Definition lastIndexOfBP (bp : Hash) (l : list bpNode) : option nat :=
  foldl (fun r ie => if bpn_BP (snd ie) =? bp then Some (fst ie) else r)
        None (imap (fun i e => (i, e)) l).

(** [Chain.addBlock] *)
Definition addBlock (c : Chain) (b : Block) (bp : BlockProposal) (s : option State)
    (weight : float64) : outcome (bool * option error * Chain * list Effect) :=
  let beginRound := round c in
  let h := Block_Hash b in
  match hashToBlock c !! h with
  | Some _ => Returned (false, None, c, [])
  | None =>
  let nt := mkBlockNode h (b_BlockProposal b) weight [] [] in
  let c := set_unFinalizedState (<[h := s]> (unFinalizedState c)) c in
  match last (finalized c) with
  | None => Panicked "index out of range"
  | Some tip =>
  let prevFinalized := bp_PrevBlock bp =? tip in
  let prevSysState :=
    if prevFinalized then lastFinalizedSysState c
    else default None (unFinalizedSysState c !! bp_PrevBlock bp) in
  if negb prevFinalized && negb (bool_decide (is_Some prevSysState)) then Panicked "TODO"
  else
  let c := set_unFinalizedSysState (<[h := prevSysState]> (unFinalizedSysState c)) c in
  let attached : outcome Chain :=
    if prevFinalized then
      let c := set_fork (fork c ++ [nt]) c in
      match lastIndexOfBP (bn_BP nt) (bpNotOnFork c) with
      | None => Returned c     (* block's proposal not found on chain *)
      | Some removeIdx =>
          match removeAt removeIdx (bpNotOnFork c) with
          | Panicked m => Panicked m
          | Returned l => Returned (set_bpNotOnFork l c)
          end
      end
    else
      match findPrevBlock (bp_PrevBlock bp) (fork c) with
      | None => Panicked "nil pointer dereference"
      | Some (prev, removeIdx) =>
          (* prev.blockChildren = append(prev.blockChildren, nt);
             prev.bpChildren = append(prev.bpChildren[:removeIdx],
                                      prev.bpChildren[removeIdx+1:]...) *)
          match removeAt removeIdx (bn_bpChildren prev) with
          | Panicked m => Panicked m
          | Returned bps =>
              Returned
                (set_fork
                   (default (fork c)
                      (updatePrevBlock (bp_PrevBlock bp)
                         (fun n => mkBlockNode (bn_Block n) (bn_BP n) (bn_Weight n)
                                     (bn_blockChildren n ++ [nt]) bps)
                         (fork c))) c)
          end
      end in
  match attached with
  | Panicked m => Panicked m
  | Returned c =>
  let c := set_hashToBlock (<[h := b]> (hashToBlock c)) c in
  let c := set_bpNeedNotarize (delete (b_BlockProposal b) (bpNeedNotarize c)) c in
  let c := set_bpToNtShares (delete (b_BlockProposal b) (bpToNtShares c)) c in
  let round1 := round c in
  match (if 3 <? round1 then finalize c (wrap64 (round1 - 3)) else Returned c) with
  | Panicked m => Panicked m
  | Returned c =>
  let removed : option (list Effect) :=
    if Nat.ltb 0 (length (bp_Data bp)) then
      match rlpDecodeTxns (bp_Data bp) with
      | None => None
      | Some txns => Some (map (fun txn => txnPool_Remove (SHA3 txn)) txns)
      end
    else Some [] in
  match removed with
  | None => Returned (false, Some errInvalidTxnData, c, [])
  | Some removals =>
  match leader c with
  | Panicked m => Panicked m
  | Returned (_, leaderState, _) =>
      let endRound :=
        if (beginRound =? b_Round b) && (wrap64 (beginRound + 1) =? round1)
        then [EndRound beginRound] else [] in
      Returned (true, None, c, removals ++ [Update leaderState] ++ endRound)
  end end end end end end.

(** ** The syncer ([syncer.go]) *)

(** The peer, as the answers it gives. *)
Record requester : Type := mkRequester {
  RequestBlock : Hash -> Block + error;
  RequestBlockProposal : Hash -> BlockProposal + error
}.

(** [syncer.syncBlockAndConnectToChain], by recursion on the round
    [n]; the result is the block and its state, or the error, and the
    chain afterwards.  The proposal is requested concurrently in the
    source; its answer is only read after the recursion. *)
Fixpoint syncBlockAndConnectToChain (r : requester) (c : Chain) (hash : Hash) (n : nat)
  : outcome ((Block * option State + error) * Chain) :=
  let round := Z.of_nat n in
  match Chain_Block c hash with
  | Some b =>
      (* already connected to the chain *)
      match blockToState c hash with
      | Panicked m => Panicked m
      | Returned st => Returned (inl (b, st), c)
      end
  | None =>
  if round <=? FinalizedRound c then Returned (inr errCanNotConnectToChain, c)
  else
  match RequestBlock r hash with
  | inr err => Returned (inr err, c)
  | inl b =>
  let bpr := RequestBlockProposal r (b_BlockProposal b) in
  let parent : outcome ((option State + error) * Chain) :=
    match n with
    | O => Panicked "unreachable: round 0 is not above the finalized round"
    | S m =>
        if round =? 1 then
          match Genesis c with
          | None => Panicked "index out of range"
          | Some g =>
              if negb (b_PrevBlock b =? g) then Returned (inr errCanNotConnectToChain, c)
              else
                match blockToState c (b_PrevBlock b) with
                | Panicked msg => Panicked msg
                | Returned st => Returned (inl st, c)
                end
          end
        else
          match syncBlockAndConnectToChain r c (b_PrevBlock b) m with
          | Panicked msg => Panicked msg
          | Returned (inr err, c) => Returned (inr err, c)
          | Returned (inl (_, st), c) => Returned (inl st, c)
          end
    end in
  match parent with
  | Panicked msg => Panicked msg
  | Returned (inr err, c) => Returned (inr err, c)
  | Returned (inl state, c) =>
  match bpr with
  | inr err => Returned (inr err, c)
  | inl bp =>
  match getTransition state (bp_Data bp) (bp_Round bp) with
  | Panicked msg => Panicked msg
  | Returned (_, Some err) => Returned (inr err, c)
  | Returned (trans, None) =>
  if negb (Transition_StateHash trans =? b_StateRoot b)
  then Returned (inr errInvalidStateRoot, c)
  else
  match addBP c bp (S754_zero false) with
  | Panicked msg => Panicked msg
  | Returned (_, _, c, _) =>
  let state := Transition_Commit trans in
  match addBlock c b bp (Some state) (S754_zero false) with
  | Panicked msg => Panicked msg
  | Returned (_, _, c, _) => Returned (inl (b, Some state), c)
  end end end end end end end.

(** [syncer.SyncBlock] *)
Definition SyncBlock (r : requester) (c : Chain) (hash : Hash) (round : Z)
  : outcome ((option Block * option error) * Chain) :=
  match syncBlockAndConnectToChain r c hash (Z.to_nat round) with
  | Panicked msg => Panicked msg
  | Returned (inl (b, _), c) => Returned ((Some b, None), c)
  | Returned (inr err, c) => Returned ((None, Some err), c)
  end.

End WithEnv.

(** ** A small application for the scenarios

    States and transitions are numbers, a transaction is one byte that
    is added to the state, a batch is the list of its bytes (a batch
    holding the byte 255 does not decode), the state hash is the state.
    A recovered signature lists the owners of its shares and verifies
    when it has at least three of them. *)
Definition example_SHA3 (b : bytes) : Hash := foldr (fun x a => x + 256 * a) 0 b.

Definition exampleEnv : Env :=
  {| State := Z;
     SysState := unit;
     Transition := Z;
     State_Transition := fun st _ => st;
     Transition_Record := fun t b =>
       match b with
       | [x] => (true, true, t + x)
       | _ => (false, false, t)
       end;
     Transition_StateHash := fun t => t;
     Transition_Commit := fun t => t;
     rlpDecodeTxns := fun data =>
       if existsb (Z.eqb 255) data then None else Some (map (fun x => [x]) data);
     SHA3 := example_SHA3;
     Block_Hash := fun b => 1000 * b_Round b + 10 * b_StateRoot b + 1;
     Block_Encode := fun b withSig =>
       [b_Round b; b_StateRoot b] ++ (if withSig then b_NotarizationSig b else []);
     BlockProposal_Hash := fun bp => 1000 * bp_Round bp + 10 * example_SHA3 (bp_Data bp) + 2;
     NtShare_Hash := fun n => 5000 + nt_Owner n;
     recoverNtSig := fun shares => Some (map nt_Owner shares);
     Sig_Verify := fun sig pk msg => Nat.leb 3 (length sig) |}.

Definition genesisBlock : Block :=
  {| b_Owner := 0; b_Round := 0; b_BlockProposal := 0; b_PrevBlock := 0;
     b_SysTxns := []; b_StateRoot := 0; b_NotarizationSig := [] |}.

(** A chain holding the genesis block only, with group threshold 3. *)
Definition genesisChain : Chain (env := exampleEnv) :=
  @mkChain exampleEnv
    3                                   (* cfg_GroupThreshold *)
    [[42]]                              (* groups *)
    [Block_Hash (Env := exampleEnv) genesisBlock]   (* finalized *)
    (Some 0) (Some tt)                  (* lastFinalizedState, lastFinalizedSysState *)
    [] []                               (* fork, bpNotOnFork *)
    ∅ ∅                                 (* unFinalizedState, unFinalizedSysState *)
    (<[Block_Hash (Env := exampleEnv) genesisBlock := genesisBlock]> ∅)   (* hashToBlock *)
    ∅ ∅ ∅ ∅.                            (* hashToBP, hashToNtShare, bpToNtShares, bpNeedNotarize *)

(** Round 1: a proposal on genesis with the batch [[5]], and its block
    with the right state root [5]. *)
Definition bp1 : BlockProposal :=
  {| bp_Round := 1; bp_PrevBlock := Block_Hash (Env := exampleEnv) genesisBlock;
     bp_Owner := 1; bp_SysTxns := []; bp_Data := [5]; bp_OwnerSig := [] |}.

Definition block1 : Block :=
  {| b_Owner := 1; b_Round := 1;
     b_BlockProposal := BlockProposal_Hash (Env := exampleEnv) bp1;
     b_PrevBlock := Block_Hash (Env := exampleEnv) genesisBlock;
     b_SysTxns := []; b_StateRoot := 5; b_NotarizationSig := [1; 2; 3] |}.

(** Round 2: a proposal on [block1] with the batch [[7]]; its block
    should have state root [12], [badBlock2] declares [99]. *)
Definition bp2 : BlockProposal :=
  {| bp_Round := 2; bp_PrevBlock := Block_Hash (Env := exampleEnv) block1;
     bp_Owner := 2; bp_SysTxns := []; bp_Data := [7]; bp_OwnerSig := [] |}.

Definition badBlock2 : Block :=
  {| b_Owner := 2; b_Round := 2;
     b_BlockProposal := BlockProposal_Hash (Env := exampleEnv) bp2;
     b_PrevBlock := Block_Hash (Env := exampleEnv) block1;
     b_SysTxns := []; b_StateRoot := 99; b_NotarizationSig := [1; 2; 3] |}.

(** A round-1 block on genesis with a wrong state root. *)
Definition badBlock1 : Block :=
  {| b_Owner := 1; b_Round := 1;
     b_BlockProposal := BlockProposal_Hash (Env := exampleEnv) bp1;
     b_PrevBlock := Block_Hash (Env := exampleEnv) genesisBlock;
     b_SysTxns := []; b_StateRoot := 6; b_NotarizationSig := [1; 2; 3] |}.

(** A peer that serves these blocks and proposals. *)
Definition examplePeer : requester :=
  {| RequestBlock := fun h =>
       if h =? Block_Hash (Env := exampleEnv) block1 then inl block1
       else if h =? Block_Hash (Env := exampleEnv) badBlock2 then inl badBlock2
       else if h =? Block_Hash (Env := exampleEnv) badBlock1 then inl badBlock1
       else inr (errRequest 404);
     RequestBlockProposal := fun h =>
       if h =? BlockProposal_Hash (Env := exampleEnv) bp1 then inl bp1
       else if h =? BlockProposal_Hash (Env := exampleEnv) bp2 then inl bp2
       else inr (errRequest 404) |}.

(** Scenario E: three shares for [bp1] from the owners 1, 2 and 3. *)
Definition shareOf (owner : Addr) : NtShare :=
  {| nt_Round := 1; nt_BP := BlockProposal_Hash (Env := exampleEnv) bp1;
     nt_Owner := owner; nt_SigShare := [owner] |}.

(** The chain after [bp1] was added and the first [k] shares arrived. *)
Definition chainE0 : Chain (env := exampleEnv) :=
  match addBP genesisChain bp1 (S754_zero false) with
  | Returned (_, _, c, _) => c
  | Panicked _ => genesisChain
  end.

Fixpoint chainE (k : nat) : Chain (env := exampleEnv) :=
  match k with
  | O => chainE0
  | S k' =>
      match addNtShare (chainE k') (shareOf (Z.of_nat k)) 0 with
      | Returned (_, _, _, c) => c
      | Panicked _ => chainE k'
      end
  end.

(** The chain after [block1] was added to [chainE0]. *)
Definition chainB1 : Chain (env := exampleEnv) :=
  match addBlock chainE0 block1 bp1 (Some 5) (S754_zero false) with
  | Returned (_, _, c, _) => c
  | Panicked _ => chainE0
  end.

(** The chain after [block1] was fetched from the peer and connected. *)
Definition chainS1 : Chain (env := exampleEnv) :=
  match syncBlockAndConnectToChain examplePeer genesisChain
          (Block_Hash (Env := exampleEnv) block1) 1 with
  | Returned (_, c) => c
  | Panicked _ => genesisChain
  end.

End Consensus.

Module DexTheory.
Import Dex.

(** ** Little-endian round trip *)

Lemma byte_at_range v i : 0 <= byte_at v i < 256.
Proof.
  unfold byte_at. change 255 with (Z.ones 8).
  rewrite Z.land_ones by lia. apply Z.mod_pos_bound. lia.
Qed.

Lemma land_shiftl_disjoint a b k :
  0 <= k -> 0 <= a < 2 ^ k -> Z.land (Z.shiftl b k) a = 0.
Proof.
  intros Hk Ha. apply Z.bits_inj'. intros n Hn.
  rewrite Z.land_spec, Z.bits_0.
  destruct (Z.lt_ge_cases n k).
  - rewrite Z.shiftl_spec_low by lia. reflexivity.
  - rewrite <- (Z.mod_small a (2 ^ k)) by lia.
    rewrite Z.mod_pow2_bits_high by lia. apply andb_false_r.
Qed.

Lemma lor_shiftl_disjoint a b k :
  0 <= k -> 0 <= a < 2 ^ k -> Z.lor (Z.shiftl b k) a = b * 2 ^ k + a.
Proof.
  intros Hk Ha.
  rewrite <- Z.shiftl_mul_pow2 by lia.
  rewrite Z.add_nocarry_lxor by (apply land_shiftl_disjoint; lia).
  symmetry. apply Z.lxor_lor. apply land_shiftl_disjoint; lia.
Qed.

Lemma testbit_byte_at_shiftl v i n :
  0 <= n ->
  Z.testbit (Z.shiftl (byte_at v i) (8 * Z.of_nat i)) n =
  (8 * Z.of_nat i <=? n) && (n <? 8 * Z.of_nat i + 8) && Z.testbit v n.
Proof.
  intros Hn. unfold byte_at.
  destruct (Z.leb_spec (8 * Z.of_nat i) n) as [Hle|Hlt].
  - rewrite Z.shiftl_spec by lia. change 255 with (Z.ones 8).
    rewrite Z.land_spec, Z.shiftr_spec by lia.
    replace (n - 8 * Z.of_nat i + 8 * Z.of_nat i) with n by lia.
    destruct (Z.ltb_spec n (8 * Z.of_nat i + 8)).
    + rewrite Z.ones_spec_low by lia. simpl. apply andb_true_r.
    + rewrite Z.ones_spec_high by lia. simpl. apply andb_false_r.
  - rewrite Z.shiftl_spec_low by lia. reflexivity.
Qed.

Lemma Uint64_LE64 v rest : is_uint64 v -> Uint64 (LE64 v ++ rest) = v.
Proof.
  intros Hv. unfold Uint64, LE64, at_index.
  cbn [seq map foldr app lookup list_lookup default id].
  apply Z.bits_inj'. intros n Hn.
  rewrite !Z.lor_spec, !testbit_byte_at_shiftl, Z.bits_0 by lia.
  destruct (Z.lt_ge_cases n 64) as [Hlt|Hge].
  - repeat match goal with
           | |- context [Z.leb ?a ?b] => destruct (Z.leb_spec a b); try lia
           | |- context [Z.ltb ?a ?b] => destruct (Z.ltb_spec a b); try lia
           end; cbn [andb orb]; rewrite ?orb_false_r; reflexivity.
  - assert (Z.testbit v n = false) as ->.
    { rewrite <- (Z.mod_small v (2 ^ 64)) by apply Hv.
      apply Z.mod_pow2_bits_high. lia. }
    rewrite !andb_false_r. reflexivity.
Qed.

Lemma PutUint64_make64 v : PutUint64 (make_bytes 64) v = LE64 v ++ replicate 56 0.
Proof. reflexivity. Qed.

Lemma Encode_length m : length (Encode m) = 128%nat.
Proof. reflexivity. Qed.

(** C9. [MarketSymbol.Decode] undoes [MarketSymbol.Encode]: the encoding
    of a symbol whose token ids are [uint64] values is 128 bytes long, is
    LE64(Quote) zero-padded to 64 bytes followed by LE64(Base) zero-padded
    to 64 bytes, and decodes (into any receiver) to the same symbol with
    no error; decoding a byte string of any other length returns the
    length error and leaves the receiver alone. *)
Theorem MarketSymbol_Decode_Encode :
  (forall m m0 : MarketSymbol,
      is_uint64 (Base m) -> is_uint64 (Quote m) ->
      length (Encode m) = 128%nat /\
      Encode m = spec_enc_Market m /\
      Decode m0 (Encode m) = (m, None)) /\
  (forall (m0 : MarketSymbol) (b : bytes),
      length b <> 128%nat ->
      Decode m0 b = (m0, Some (ErrBytesLen (length b)))).
Proof.
  split.
  - intros m m0 Hb Hq. split; [reflexivity|]. split; [reflexivity|].
    unfold Decode. rewrite Encode_length. cbn [Nat.eqb negb].
    unfold Encode. rewrite !PutUint64_make64.
    rewrite take_app_length' by reflexivity.
    rewrite drop_app_length' by reflexivity.
    rewrite !Uint64_LE64 by assumption.
    destruct m; reflexivity.
  - intros m0 b Hlen. unfold Decode.
    destruct (Nat.eqb_spec (length b) 128) as [He|Hne]; [contradiction|].
    reflexivity.
Qed.

Lemma MarketSymbol_Decode_Encode_witness :
  is_uint64 1 /\ is_uint64 0 /\
  Decode {| Base := 7; Quote := 7 |} (Encode {| Base := 1; Quote := 0 |})
  = ({| Base := 1; Quote := 0 |}, None) /\
  length [1; 2; 3] <> 128%nat /\
  Decode {| Base := 7; Quote := 7 |} [1; 2; 3]
  = ({| Base := 7; Quote := 7 |}, Some (ErrBytesLen 3)).
Proof.
  assert (H1 : is_uint64 1) by (unfold is_uint64; lia).
  assert (H0 : is_uint64 0) by (unfold is_uint64; lia).
  assert (Hl : length [1; 2; 3] <> 128%nat) by (simpl; lia).
  split; [exact H1|]. split; [exact H0|].
  split; [apply (proj1 MarketSymbol_Decode_Encode {| Base := 1; Quote := 0 |} _ H1 H0)|].
  split; [exact Hl|].
  apply (proj2 MarketSymbol_Decode_Encode _ _ Hl).
Defined.

(** ** Reading accounts *)

Section Accounts.
Context {codec : Codec}.

Lemma lookup_accountView s addr :
  accountView s !! addr =
  match accountCache s !! addr with
  | Some a => Some a
  | None => accounts s !! addr
  end.
Proof.
  unfold accountView. rewrite lookup_union.
  destruct (accountCache s !! addr), (accounts s !! addr); reflexivity.
Qed.

(** [State.Account] returns the view's entry and only fills the cache. *)
Lemma State_Account_spec s addr :
  let '(s', r) := State_Account s addr in
  r = accountView s !! addr /\
  accountView s' = accountView s /\
  tokens s' = tokens s /\ accounts s' = accounts s /\
  orderExpirations s' = orderExpirations s /\
  pendingOrders s' = pendingOrders s /\
  accountDirty s' = accountDirty s.
Proof.
  unfold State_Account.
  destruct (accountCache s !! addr) as [a|] eqn:Hc.
  { rewrite lookup_accountView, Hc. repeat split; done. }
  destruct (accounts s !! addr) as [a|] eqn:Ha.
  2:{ rewrite lookup_accountView, Hc, Ha. repeat split; done. }
  rewrite lookup_accountView, Hc, Ha.
  repeat split; try done.
  apply map_eq. intros k. rewrite !lookup_accountView. cbn.
  destruct (decide (addr = k)) as [->|Hne].
  - rewrite lookup_insert_eq, Hc. done.
  - rewrite lookup_insert_ne by done. done.
Qed.

Lemma placeOrder_false s owner txn s' :
  placeOrder s owner txn = (false, s') -> s' = s.
Proof.
  unfold placeOrder. intros H.
  repeat match type of H with
         | context [match ?x with _ => _ end] => destruct x eqn:?
         | context [if ?x then _ else _] => destruct x eqn:?
         end; congruence.
Qed.

Lemma sendToken_false s owner txn s' :
  sendToken s owner txn = (false, s') -> s' = s.
Proof.
  unfold sendToken. intros H.
  repeat match type of H with
         | context [match ?x with _ => _ end] => destruct x eqn:?
         | context [if ?x then _ else _] => destruct x eqn:?
         end; congruence.
Qed.

Lemma sameObservableState_refl s : sameObservableState s s.
Proof. repeat split; done. Qed.

Lemma State_Account_observable s addr :
  sameObservableState s (fst (State_Account s addr)).
Proof.
  pose proof (State_Account_spec s addr) as H.
  destruct (State_Account s addr) as [s' r]. cbn.
  destruct H as (_ & Hv & Ht & Ha & He & Hp & Hd).
  repeat split; try done.
  intros k.
  pose proof (State_Account_spec s' k) as H1.
  pose proof (State_Account_spec s k) as H2.
  destruct (State_Account s' k), (State_Account s k). cbn.
  destruct H1 as [-> _], H2 as [-> _]. by rewrite Hv.
Qed.

Lemma validateSigAndNonce_observable s b :
  sameObservableState s (fst (validateSigAndNonce s b)).
Proof.
  unfold validateSigAndNonce, validateNonce.
  destruct (decodeTxn b) as [txn|]; [|apply sameObservableState_refl].
  pose proof (State_Account_observable s (Owner txn)) as H.
  destruct (State_Account s (Owner txn)) as [s' [acc|]]; exact H.
Qed.

(** A [Record] that reports no success leaves the transition with the
    state [validateSigAndNonce] left and the transactions it had. *)
Lemma Record_failure_state (t : Transition) (b : bytes) (valid : bool) (t' : Transition) :
  Transition_Record t b = Returned (valid, false, t') ->
  txns t' = txns t /\ state t' = fst (validateSigAndNonce (state t) b).
Proof.
  unfold Transition_Record.
  destruct (validateSigAndNonce (state t) b) as [s [[[txn acc] ready] v]].
  cbn [fst]. intros H.
  destruct v; cbn in H; [|by inversion H].
  destruct ready; cbn in H; [|by inversion H].
  destruct txn as [txn|], acc as [acc|]; try discriminate.
  destruct (T txn =? PlaceOrder).
  { destruct (gobDecodePlaceOrder (Data txn)) as [ptxn|]; [|by inversion H].
    destruct (placeOrder s acc ptxn) as [ok s2] eqn:Hp.
    destruct ok; [discriminate|].
    apply placeOrder_false in Hp as ->. by inversion H. }
  destruct (T txn =? CancelOrder); [discriminate|].
  destruct (T txn =? CreateToken); [discriminate|].
  destruct (T txn =? SendToken); [|discriminate].
  destruct (gobDecodeSendToken (Data txn)) as [stxn|]; [|by inversion H].
  destruct (sendToken s acc stxn) as [ok s2] eqn:Hp.
  destruct ok; [discriminate|].
  apply sendToken_false in Hp as ->. by inversion H.
Qed.

(** C10. Failure atomicity of [Record]: whenever [Record] returns with
    [success = false] (an invalid transaction, an undecodable payload, a
    rejected order or transfer), [Txns()] is the list it was before the
    call and no account, balance, pending order or expiration entry has
    changed. *)
Theorem Record_failure_atomic (t : Transition) (b : bytes) (valid : bool) (t' : Transition) :
  Transition_Record t b = Returned (valid, false, t') ->
  Txns t' = Txns t /\ sameObservableState (state t) (state t').
Proof.
  intros H. unfold Txns.
  destruct (Record_failure_state t b valid t' H) as [Htx Hst].
  split; [exact Htx|].
  rewrite Hst.
  (* the failed call has at most looked the owner up, which fills the
     account cache and changes nothing an observer reads *)
  unfold validateSigAndNonce, validateNonce.
  destruct (decodeTxn b) as [txn|]; [|apply sameObservableState_refl].
  pose proof (State_Account_observable (state t) (Owner txn)) as Hobs.
  destruct (State_Account (state t) (Owner txn)) as [s' [acc|]]; exact Hobs.
Qed.

End Accounts.

Lemma Record_failure_atomic_witness :
  Transition_Record (codec := exampleCodec) (newTransition genesisA) [9]
  = Returned (false, false, newTransition genesisA) /\
  Txns (newTransition genesisA) = Txns (newTransition genesisA) /\
  sameObservableState genesisA genesisA.
Proof.
  assert (H : Transition_Record (codec := exampleCodec) (newTransition genesisA) [9]
              = Returned (false, false, newTransition genesisA)) by reflexivity.
  split; [exact H|].
  exact (Record_failure_atomic (codec := exampleCodec) _ _ _ _ H).
Defined.

(** [placeOrder] never touches the expiration index. *)
Lemma placeOrder_orderExpirations {codec : Codec} s owner txn :
  orderExpirations (snd (placeOrder s owner txn)) = orderExpirations s.
Proof.
  unfold placeOrder.
  repeat match goal with
         | |- context [match ?x with _ => _ end] => destruct x eqn:?
         end; reflexivity.
Qed.

(** C4. Scenario B on the code, from the Scenario A genesis: P1's sell
    order of 1_000 ACME expiring at round 100 is recorded successfully,
    1_000 ACME move from [Available] to [Pending] and one pending order
    of P1 is stored for the market; but the stored entry carries the
    zero order, not the placed one, and no expiration is indexed at
    round 100. *)
Theorem placeOrder_scenarioB_no_expiration :
  exists t',
    Transition_Record (codec := exampleCodec) (newTransition genesisA) [2]
    = Returned (true, true, t') /\
    gobDecodePlaceOrder (Codec := exampleCodec) [2] = Some orderB /\
    balanceOf genesisA (example_pkAddr P1) ACME_ID
    = Some {| Available := 500000; Pending := 0 |} /\
    balanceOf (state t') (example_pkAddr P1) ACME_ID
    = Some {| Available := 499000; Pending := 1000 |} /\
    pendingOrders (state t') !! (ACME_ID, BNB_ID)
    = Some [{| po_Owner := example_pkAddr P1; po_Order := Order_zero |}] /\
    Order_zero <> {| order_SellSide := SellSide orderB; order_Quant := Quant orderB;
                     order_Price := Price orderB;
                     order_ExpireRound := ExpireRound orderB |} /\
    getOrderExpirations (state t') (ExpireRound orderB) = [] /\
    orderExpirations (state t') = ∅.
Proof.
  eexists.
  split; [vm_compute; reflexivity|].
  split; [reflexivity|].
  split; [vm_compute; reflexivity|].
  split; [vm_compute; reflexivity|].
  split; [vm_compute; reflexivity|].
  split; [discriminate|].
  split; vm_compute; reflexivity.
Qed.

(** C7. Scenario D on the code: the account has nonce slot 0 at counter
    7 and the transaction carries [(slotIdx = 0, slotValue = 9)];
    [validateNonce] reports it ready, [Record] returns
    [(valid, success) = (true, true)], the order is applied to the
    account and the transaction is appended to [Txns()]. *)
Theorem Record_scenarioD_future_nonce :
  (exists acc,
      accountView stateD !! example_pkAddr P1 = Some acc /\ NonceVec acc = [7]) /\
  (exists txn,
      decodeTxn (Codec := exampleCodec) [4] = Some txn /\
      Owner txn = example_pkAddr P1 /\ NonceIdx txn = 0 /\ NonceValue txn = 9 /\
      snd (validateNonce stateD txn)
      = (accountView stateD !! example_pkAddr P1, true, true)) /\
  exists t',
    Transition_Record (codec := exampleCodec) (newTransition stateD) [4]
    = Returned (true, true, t') /\
    Txns t' = [[4]] /\
    balanceOf stateD (example_pkAddr P1) ACME_ID
    = Some {| Available := 500000; Pending := 0 |} /\
    balanceOf (state t') (example_pkAddr P1) ACME_ID
    = Some {| Available := 499000; Pending := 1000 |} /\
    (* the same transaction on the genesis account, whose slot 0 is at 0 *)
    exists t'',
      Transition_Record (codec := exampleCodec) (newTransition genesisA) [4]
      = Returned (true, true, t'') /\
      Txns t'' = [[4]].
Proof.
  split; [eexists; split; vm_compute; reflexivity|].
  split; [eexists; repeat split; vm_compute; reflexivity|].
  eexists. split; [vm_compute; reflexivity|].
  split; [vm_compute; reflexivity|].
  split; [vm_compute; reflexivity|].
  split; [vm_compute; reflexivity|].
  eexists. split; vm_compute; reflexivity.
Qed.

Section Genesis.
Context {codec : Codec}.

Lemma balanceOf_UpdateAccount s acc addr id :
  balanceOf (UpdateAccount s acc) addr id =
  if decide (pkAddr (PK acc) = addr) then Balances acc !! id else balanceOf s addr id.
Proof.
  unfold balanceOf. rewrite !lookup_accountView. cbn.
  case_decide as Hd.
  - subst addr. by rewrite lookup_insert_eq.
  - by rewrite lookup_insert_ne.
Qed.

Lemma State_Account_cached s addr acc :
  accountCache s !! addr = Some acc -> State_Account s addr = (s, Some acc).
Proof. intros H. unfold State_Account. by rewrite H. Qed.

Lemma sendToken_true s owner txn s' :
  sendToken s owner txn = (true, s') ->
  exists b,
    Balances owner !! send_TokenID txn = Some b /\
    send_Quant txn <> 0 /\ send_Quant txn <= Available b /\
    accounts s !! pkAddr (To txn) = None /\
    s' = UpdateAccount (UpdateAccount s (freshRecipient txn))
           (setBalance owner (send_TokenID txn)
              {| Available := wrap64 (Available b - send_Quant txn);
                 Pending := Pending b |}).
Proof.
  unfold sendToken. intros H.
  destruct (Z.eqb_spec (send_Quant txn) 0) as [|Hq]; [discriminate|].
  destruct (Balances owner !! send_TokenID txn) as [b|] eqn:Hb; [|discriminate].
  destruct (Z.ltb_spec (Available b) (send_Quant txn)) as [|Hle]; [discriminate|].
  destruct (accounts s !! pkAddr (To txn)) as [leaf|] eqn:Hto; cbn in H; [discriminate|].
  exists b. repeat split; try done. by inversion H.
Qed.

Lemma placeOrder_true s owner txn s' :
  placeOrder s owner txn = (true, s') ->
  exists sb,
    is_Some (tokens s !! Base (Market txn)) /\
    is_Some (tokens s !! Quote (Market txn)) /\
    Balances owner !! snd (sellQuantAndToken txn) = Some sb /\
    fst (sellQuantAndToken txn) < Available sb /\
    s' = UpdatePendingOrder
           (UpdateAccount s
              (setBalance owner (snd (sellQuantAndToken txn))
                 {| Available := wrap64 (Available sb - fst (sellQuantAndToken txn));
                    Pending := wrap64 (Pending sb + fst (sellQuantAndToken txn)) |}))
           (Market txn)
           (Some {| po_Owner := pkAddr (PK owner); po_Order := Order_zero |}).
Proof.
  unfold placeOrder, tokenCache_Info. intros H.
  destruct (tokens s !! Base (Market txn)) as [tb|]; [|discriminate].
  destruct (tokens s !! Quote (Market txn)) as [tq|]; [|discriminate].
  cbn in H. destruct (sellQuantAndToken txn) as [sellQuant sell]. cbn.
  destruct (Balances owner !! sell) as [sb|]; [|discriminate].
  destruct (Z.leb_spec (Available sb) sellQuant) as [|Hlt]; [discriminate|].
  exists sb. repeat split; try done. by inversion H.
Qed.

(** What a successful [Record] has done. *)
Lemma Record_success t b valid t' :
  Transition_Record t b = Returned (valid, true, t') ->
  valid = true /\ txns t' = txns t ++ [b] /\
  exists txn acc s1,
    decodeTxn b = Some txn /\
    State_Account (state t) (Owner txn) = (s1, Some acc) /\
    ((T txn = PlaceOrder /\
      exists ptxn, gobDecodePlaceOrder (Data txn) = Some ptxn /\
                   placeOrder s1 acc ptxn = (true, state t')) \/
     (T txn = SendToken /\
      exists stxn, gobDecodeSendToken (Data txn) = Some stxn /\
                   sendToken s1 acc stxn = (true, state t'))).
Proof.
  unfold Transition_Record, validateSigAndNonce, validateNonce.
  destruct (decodeTxn b) as [txn|]; [|discriminate].
  destruct (State_Account (state t) (Owner txn)) as [s1 [acc|]] eqn:Hacc; [|discriminate].
  cbn. intros H.
  destruct (Z.eqb_spec (T txn) PlaceOrder) as [HT|_].
  { destruct (gobDecodePlaceOrder (Data txn)) as [ptxn|] eqn:Hd; [|discriminate].
    destruct (placeOrder s1 acc ptxn) as [[] s2] eqn:Hp; [|discriminate].
    inversion H; subst. split; [done|]. split; [done|].
    exists txn, acc, s1. split; [done|]. split; [done|]. left. eauto. }
  destruct (T txn =? CancelOrder); [discriminate|].
  destruct (T txn =? CreateToken); [discriminate|].
  destruct (Z.eqb_spec (T txn) SendToken) as [HT|_]; [|discriminate].
  destruct (gobDecodeSendToken (Data txn)) as [stxn|] eqn:Hd; [|discriminate].
  destruct (sendToken s1 acc stxn) as [[] s2] eqn:Hp; [|discriminate].
  inversion H; subst. split; [done|]. split; [done|].
  exists txn, acc, s1. split; [done|]. split; [done|]. right. eauto.
Qed.

Lemma wrap64_small z : is_uint64 z -> wrap64 z = z.
Proof. intros H. unfold wrap64. apply Z.mod_small. exact H. Qed.

End Genesis.

(** ** Sums of units over the accounts *)

Lemma sumUnits_comm id (j1 j2 : Z) (z1 z2 : Account) (y : Z) :
  accountUnits id z1 + (accountUnits id z2 + y)
  = accountUnits id z2 + (accountUnits id z1 + y).
Proof. lia. Qed.

Lemma sumUnits_empty id : sumUnits id ∅ = 0.
Proof. unfold sumUnits. apply map_fold_empty. Qed.

Lemma sumUnits_insert_fresh id (m : gmap Z Account) k a :
  m !! k = None -> sumUnits id (<[k := a]> m) = accountUnits id a + sumUnits id m.
Proof.
  intros H. unfold sumUnits.
  rewrite map_fold_insert_L; [done| |done].
  intros. apply sumUnits_comm; done.
Qed.

Lemma sumUnits_delete id (m : gmap Z Account) k a :
  m !! k = Some a -> sumUnits id m = accountUnits id a + sumUnits id (delete k m).
Proof.
  intros H. unfold sumUnits.
  rewrite (map_fold_delete_L _ _ k a m); [done| |done].
  intros. apply sumUnits_comm; done.
Qed.

Lemma sumUnits_insert id (m : gmap Z Account) k a old :
  m !! k = Some old ->
  sumUnits id (<[k := a]> m) = sumUnits id m - accountUnits id old + accountUnits id a.
Proof.
  intros H. rewrite <- insert_delete_eq.
  rewrite sumUnits_insert_fresh by apply lookup_delete_eq.
  rewrite (sumUnits_delete id m k old H). lia.
Qed.

Lemma sumUnits_nonneg id (m : gmap Z Account) :
  (forall k a, m !! k = Some a -> 0 <= accountUnits id a) -> 0 <= sumUnits id m.
Proof.
  unfold sumUnits.
  apply (map_fold_weak_ind
           (fun r m => (forall k a, m !! k = Some a -> 0 <= accountUnits id a) -> 0 <= r)).
  - intros _. lia.
  - intros k a m' r Hk IH Hall.
    assert (0 <= accountUnits id a) by (apply (Hall k); apply lookup_insert_eq).
    assert (0 <= r).
    { apply IH. intros k' a' Hk'. apply (Hall k').
      rewrite lookup_insert_ne; [done|]. intros ->. congruence. }
    lia.
Qed.

Lemma sumUnits_member_le id (m : gmap Z Account) k a :
  (forall k a, m !! k = Some a -> 0 <= accountUnits id a) ->
  m !! k = Some a -> accountUnits id a <= sumUnits id m.
Proof.
  intros Hall Hk. rewrite (sumUnits_delete id m k a Hk).
  assert (0 <= sumUnits id (delete k m)); [|lia].
  apply sumUnits_nonneg. intros k' a' Hk'.
  apply (Hall k'). apply lookup_delete_Some in Hk'. tauto.
Qed.

(** ** Steps of the transition and the sum of units *)

Section Conservation.
Context {codec : Codec}.

Lemma wrap64_uint64 z : is_uint64 (wrap64 z).
Proof. unfold is_uint64, wrap64. apply Z.mod_pos_bound. lia. Qed.

Lemma uint64_of_float64_uint64 f : is_uint64 (uint64_of_float64 f).
Proof.
  unfold uint64_of_float64, is_uint64.
  destruct (float64_trunc f) as [z|]; [|lia].
  destruct (Z.leb_spec 0 z), (Z.ltb_spec z (2 ^ 64)); cbn; lia.
Qed.

Lemma accountView_UpdateAccount s acc :
  accountView (UpdateAccount s acc) = <[pkAddr (PK acc) := acc]> (accountView s).
Proof. unfold accountView. cbn. by rewrite insert_union_l. Qed.

Lemma accountView_UpdatePendingOrder s m add :
  accountView (UpdatePendingOrder s m add) = accountView s.
Proof. destruct add; reflexivity. Qed.

Lemma accountUnits_nonneg m addr acc id :
  balancesOk m -> m !! addr = Some acc -> 0 <= accountUnits id acc.
Proof.
  intros [_ Hu] Hacc. unfold accountUnits.
  destruct (Balances acc !! id) as [b|] eqn:Hb; [|lia].
  destruct (Hu _ _ _ _ Hacc Hb) as [[? _] [? _]]. lia.
Qed.

Lemma accountUnits_setBalance acc id b id' :
  accountUnits id' (setBalance acc id b) =
  if decide (id = id') then Available b + Pending b else accountUnits id' acc.
Proof.
  unfold accountUnits, setBalance. cbn.
  case_decide as Hd.
  - subst. by rewrite lookup_insert_eq.
  - by rewrite lookup_insert_ne.
Qed.

Lemma balancesOk_insert m addr acc :
  balancesOk m -> pkAddr (PK acc) = addr ->
  (forall id b, Balances acc !! id = Some b ->
                is_uint64 (Available b) /\ is_uint64 (Pending b)) ->
  balancesOk (<[addr := acc]> m).
Proof.
  intros [Ha Hu] Hpk Hb. split.
  - intros k a Hk. destruct (decide (addr = k)) as [->|Hne].
    + rewrite lookup_insert_eq in Hk. by inversion Hk; subst.
    + rewrite lookup_insert_ne in Hk by done. eauto.
  - intros k a id b Hk Hbal. destruct (decide (addr = k)) as [->|Hne].
    + rewrite lookup_insert_eq in Hk. inversion Hk; subst. eauto.
    + rewrite lookup_insert_ne in Hk by done. eauto.
Qed.

Lemma setBalance_uint64 acc id b :
  (forall id' b', Balances acc !! id' = Some b' ->
                  is_uint64 (Available b') /\ is_uint64 (Pending b')) ->
  is_uint64 (Available b) -> is_uint64 (Pending b) ->
  forall id' b', Balances (setBalance acc id b) !! id' = Some b' ->
                 is_uint64 (Available b') /\ is_uint64 (Pending b').
Proof.
  intros Hacc Ha Hp id' b'. unfold setBalance. cbn.
  destruct (decide (id = id')) as [->|Hne].
  - rewrite lookup_insert_eq. by inversion 1; subst.
  - rewrite lookup_insert_ne by done. eauto.
Qed.

(** A successful [placeOrder] keeps the accounts well formed and, for a
    token whose total fits a [uint64], keeps the total. *)
Lemma placeOrder_step s owner ptxn s' :
  balancesOk (accountView s) ->
  accountView s !! pkAddr (PK owner) = Some owner ->
  placeOrder s owner ptxn = (true, s') ->
  is_uint64 (Quant ptxn) ->
  balancesOk (accountView s') /\
  tokens s' = tokens s /\
  forall id, totalUnits s id < 2 ^ 64 -> totalUnits s' id = totalUnits s id.
Proof.
  intros Hok Hown Hp Hq.
  apply placeOrder_true in Hp as (sb & _ & _ & Hsb & Hlt & ->).
  set (q := fst (sellQuantAndToken ptxn)) in *.
  set (sell := snd (sellQuantAndToken ptxn)) in *.
  assert (Hq0 : is_uint64 q).
  { unfold q, sellQuantAndToken. destruct (SellSide ptxn); cbn; [done|].
    apply uint64_of_float64_uint64. }
  destruct (proj2 Hok _ _ _ _ Hown Hsb) as [HA HP].
  rewrite accountView_UpdatePendingOrder, accountView_UpdateAccount. cbn [setBalance PK].
  split; [|split; [done|]].
  - apply balancesOk_insert; [done|done|].
    apply setBalance_uint64; cbn; [|apply wrap64_uint64|apply wrap64_uint64].
    intros id' b'. apply (proj2 Hok _ _ _ _ Hown).
  - intros id Hbound. unfold totalUnits.
    rewrite accountView_UpdatePendingOrder, accountView_UpdateAccount. cbn [setBalance PK].
    rewrite (sumUnits_insert id _ _ _ owner Hown).
    fold (setBalance owner sell
            {| Available := wrap64 (Available sb - q); Pending := wrap64 (Pending sb + q) |}).
    rewrite accountUnits_setBalance. case_decide as Hd; [|lia]. subst id. cbn.
    assert (Hle : accountUnits sell owner <= sumUnits sell (accountView s)).
    { apply sumUnits_member_le with (k := pkAddr (PK owner)); [|done].
      intros k a Hk. by apply (accountUnits_nonneg (accountView s) k). }
    unfold totalUnits in Hbound.
    assert (Hu : accountUnits sell owner = Available sb + Pending sb).
    { unfold accountUnits. by rewrite Hsb. }
    unfold is_uint64 in *.
    rewrite !wrap64_small by (unfold is_uint64; lia). lia.
Qed.

(** A successful [sendToken] to a recipient without an account keeps the
    accounts well formed and keeps every total. *)
Lemma sendToken_step s owner stxn s' :
  balancesOk (accountView s) ->
  accountView s !! pkAddr (PK owner) = Some owner ->
  accountView s !! pkAddr (To stxn) = None ->
  sendToken s owner stxn = (true, s') ->
  is_uint64 (send_Quant stxn) ->
  balancesOk (accountView s') /\
  tokens s' = tokens s /\
  forall id, totalUnits s' id = totalUnits s id.
Proof.
  intros Hok Hown Hto Hs Hq.
  apply sendToken_true in Hs as (b & Hb & Hq0 & Hle & _ & ->).
  destruct (proj2 Hok _ _ _ _ Hown Hb) as [HA HP].
  assert (Hne : pkAddr (To stxn) <> pkAddr (PK owner)) by congruence.
  rewrite !accountView_UpdateAccount. cbn [setBalance PK freshRecipient].
  split; [|split; [done|]].
  - apply balancesOk_insert; [|done|].
    + apply balancesOk_insert; [done|done|].
      cbn. intros id' b'. destruct (decide (send_TokenID stxn = id')) as [->|Hd].
      * rewrite lookup_insert_eq. inversion 1; subst. cbn.
        split; [apply wrap64_uint64|unfold is_uint64; lia].
      * rewrite lookup_insert_ne by done. by rewrite lookup_empty.
    + apply setBalance_uint64; cbn; [|apply wrap64_uint64|done].
      intros id' b'. apply (proj2 Hok _ _ _ _ Hown).
  - intros id. unfold totalUnits.
    rewrite !accountView_UpdateAccount. cbn [setBalance PK freshRecipient].
    rewrite (sumUnits_insert id _ _ _ owner).
    2:{ rewrite lookup_insert_ne by done. done. }
    rewrite sumUnits_insert_fresh by done.
    fold (setBalance owner (send_TokenID stxn)
            {| Available := wrap64 (Available b - send_Quant stxn); Pending := Pending b |}).
    rewrite accountUnits_setBalance.
    unfold accountUnits at 1. cbn.
    destruct (decide (send_TokenID stxn = id)) as [Heq|Hd].
    + rewrite Heq, lookup_insert_eq. cbn.
      assert (Hu : accountUnits id owner = Available b + Pending b).
      { unfold accountUnits. by rewrite <- Heq, Hb. }
      unfold is_uint64 in *.
      rewrite !wrap64_small by (unfold is_uint64; lia). lia.
    + rewrite lookup_insert_ne by done. rewrite lookup_empty. lia.
Qed.

(** [CommitCache] writes cached accounts to their own leaves. *)
Lemma CommitCache_spec s :
  balancesOk (accountView s) ->
  accountView (CommitCache s) = accountView s /\ tokens (CommitCache s) = tokens s.
Proof.
  intros Hok.
  assert (Hinv : tokens (CommitCache s) = tokens s /\
                 accountCache (CommitCache s) = accountCache s /\
                 forall k, accountCache s !! k = None ->
                           accounts (CommitCache s) !! k = accounts s !! k).
  { unfold CommitCache.
    apply (map_fold_weak_ind
             (fun (r : State) (_ : gmap Z bool) =>
                tokens r = tokens s /\ accountCache r = accountCache s /\
                forall k, accountCache s !! k = None -> accounts r !! k = accounts s !! k)).
    - done.
    - intros addr dirty m r _ (Ht & Hc & Ha).
      destruct dirty; [|done].
      destruct (accountCache s !! addr) as [acc|] eqn:Hacc; [|done].
      cbn. repeat split; try done.
      intros k Hk. rewrite lookup_insert_ne; [by apply Ha|].
      assert (pkAddr (PK acc) = addr).
      { apply (proj1 Hok). by rewrite lookup_accountView, Hacc. }
      congruence. }
  destruct Hinv as (Ht & Hc & Ha). split; [|done].
  apply map_eq. intros k. rewrite !lookup_accountView, Hc.
  destruct (accountCache s !! k) eqn:Hk; [done|]. by apply Ha.
Qed.

(** *** Genesis *)

Lemma genesisTokens_IDs additionalTokens :
  Z.of_nat (length additionalTokens) < 2 ^ 64 - 1 ->
  NoDup (ID <$> genesisTokens additionalTokens).
Proof.
  intros Hlen. unfold genesisTokens. rewrite fmap_cons. cbn [ID].
  assert (Hl : forall i x,
             (ID <$> imap (fun i t => {| ID := wrap64 (Z.of_nat i + 1); Info := t |})
                          additionalTokens) !! i = Some x ->
             x = Z.of_nat i + 1 /\ (i < length additionalTokens)%nat).
  { intros i x. rewrite list_lookup_fmap, list_lookup_imap.
    destruct (additionalTokens !! i) as [t|] eqn:Ht; [|done].
    cbn. intros [= <-]. apply lookup_lt_Some in Ht.
    split; [|done]. apply wrap64_small. unfold is_uint64. lia. }
  apply NoDup_cons. split.
  - intros Hin. apply list_elem_of_lookup in Hin as [i Hi].
    apply Hl in Hi. lia.
  - apply NoDup_alt. intros i j x Hi Hj.
    apply Hl in Hi, Hj. lia.
Qed.

Lemma genesisTokens_uint64 additionalTokens tok :
  Forall (fun ti => is_uint64 (TotalUnits ti)) additionalTokens ->
  tok ∈ genesisTokens additionalTokens -> is_uint64 (TotalUnits (Info tok)).
Proof.
  intros Hall Hin. unfold genesisTokens in Hin.
  apply elem_of_cons in Hin as [->|Hin].
  - cbn. unfold is_uint64. lia.
  - apply elem_of_lookup_imap in Hin as (i & t & -> & Ht). cbn.
    rewrite Forall_forall in Hall. apply Hall.
    eapply list_elem_of_lookup_2. exact Ht.
Qed.

Lemma genesisBalances_foldl_notin n (toks : list Token) (acc0 : gmap Z Balance) id :
  id ∉ ID <$> toks ->
  foldl (fun bals t =>
           <[ID t := {| Available := TotalUnits (Info t) / Z.of_nat n; Pending := 0 |}]> bals)
        acc0 toks !! id = acc0 !! id.
Proof.
  revert acc0. induction toks as [|t toks IH]; intros acc0 Hnotin; [done|].
  rewrite fmap_cons in Hnotin. apply not_elem_of_cons in Hnotin as [Hne Hnotin].
  cbn [foldl]. rewrite IH by done. by rewrite lookup_insert_ne.
Qed.

Lemma genesisBalances_lookup n toks tok :
  NoDup (ID <$> toks) -> tok ∈ toks ->
  genesisBalances n toks !! ID tok
  = Some {| Available := TotalUnits (Info tok) / Z.of_nat n; Pending := 0 |}.
Proof.
  unfold genesisBalances. generalize (∅ : gmap Z Balance).
  induction toks as [|t toks IH]; intros acc0 Hnd Hin; [by apply elem_of_nil in Hin|].
  rewrite fmap_cons in Hnd. apply NoDup_cons in Hnd as [Hnotin Hnd].
  cbn [foldl]. apply elem_of_cons in Hin as [->|Hin].
  - rewrite genesisBalances_foldl_notin by done. apply lookup_insert_eq.
  - by apply IH.
Qed.

Lemma genesisBalances_uint64 n toks id b :
  (forall tok, tok ∈ toks -> is_uint64 (TotalUnits (Info tok))) ->
  genesisBalances n toks !! id = Some b ->
  is_uint64 (Available b) /\ is_uint64 (Pending b).
Proof.
  unfold genesisBalances.
  assert (H0 : forall id b, (∅ : gmap Z Balance) !! id = Some b ->
                            is_uint64 (Available b) /\ is_uint64 (Pending b)).
  { intros ? ?. by rewrite lookup_empty. }
  revert H0. generalize (∅ : gmap Z Balance). revert id b.
  induction toks as [|t toks IH]; intros id b acc0 H0 Hall; cbn [foldl]; [by apply H0|].
  apply IH.
  - intros id' b'. destruct (decide (ID t = id')) as [<-|Hne].
    + rewrite lookup_insert_eq. intros [= <-]. cbn.
      assert (Hu : is_uint64 (TotalUnits (Info t))) by (apply Hall; left).
      unfold is_uint64 in *. split; [|lia].
      destruct (Z.of_nat n) as [|p|p] eqn:Hn; [rewrite Z.div_0_r; lia| |lia].
      split; [apply Z.div_pos; lia|].
      apply Z.le_lt_trans with (TotalUnits (Info t)); [|lia].
      apply Z.div_le_upper_bound; [lia|]. nia.
    + rewrite lookup_insert_ne by done. apply H0.
  - intros tok Hin. apply Hall. by right.
Qed.

(** The recipients' accounts are added one by one. *)
Lemma genesis_recipients (bals : gmap Z Balance) (rs : list consensus_PK) s :
  (forall id b, bals !! id = Some b -> is_uint64 (Available b) /\ is_uint64 (Pending b)) ->
  NoDup (pkAddr <$> rs) ->
  (forall pk, pk ∈ rs -> accountView s !! pkAddr pk = None) ->
  balancesOk (accountView s) ->
  let s' := foldl (fun s pk =>
                     UpdateAccount s {| PK := pk; NonceVec := []; Balances := bals;
                                        OrderMarkets := [] |}) s rs in
  balancesOk (accountView s') /\
  tokens s' = tokens s /\
  forall id, totalUnits s' id
             = totalUnits s id
               + Z.of_nat (length rs)
                 * match bals !! id with Some b => Available b + Pending b | None => 0 end.
Proof.
  intros Hb. revert s. induction rs as [|pk rs IH]; intros s Hnd Hfresh Hok; cbn zeta.
  { cbn [foldl]. split; [done|]. split; [done|]. intros id. cbn [length]. lia. }
  rewrite fmap_cons in Hnd. apply NoDup_cons in Hnd as [Hnotin Hnd].
  cbn [foldl].
  set (acc := {| PK := pk; NonceVec := []; Balances := bals; OrderMarkets := [] |}).
  specialize (IH (UpdateAccount s acc) Hnd).
  destruct IH as (IH1 & IH2 & IH3).
  - intros pk' Hin. rewrite accountView_UpdateAccount. cbn.
    rewrite lookup_insert_ne; [apply Hfresh; by right|].
    intros Heq. apply Hnotin. rewrite Heq. apply list_elem_of_fmap. eauto.
  - rewrite accountView_UpdateAccount. apply balancesOk_insert; done.
  - split; [done|]. split; [done|]. intros id. rewrite IH3.
    unfold totalUnits at 1. rewrite accountView_UpdateAccount.
    rewrite sumUnits_insert_fresh by (apply Hfresh; left).
    unfold totalUnits. change (accountUnits id acc) with
      (match bals !! id with Some b => Available b + Pending b | None => 0 end).
    cbn [length]. lia.
Qed.

Lemma foldl_UpdateToken_accountView toks s :
  accountView (foldl UpdateToken s toks) = accountView s.
Proof. revert s. induction toks as [|t toks IH]; intros s; [done|]. cbn. by rewrite IH. Qed.

Lemma balancesOk_empty : balancesOk ∅.
Proof. split; intros *; by rewrite lookup_empty. Qed.

(** At genesis every token's total is [n * (TotalUnits / n)] for [n]
    recipients of distinct addresses. *)
Lemma genesis_totalUnits recipients additionalTokens :
  NoDup (pkAddr <$> recipients) ->
  Forall (fun ti => is_uint64 (TotalUnits ti)) additionalTokens ->
  Z.of_nat (length additionalTokens) < 2 ^ 64 - 1 ->
  let s := CreateGenesisState recipients additionalTokens in
  balancesOk (accountView s) /\
  forall tok, tok ∈ genesisTokens additionalTokens ->
    totalUnits s (ID tok)
    = Z.of_nat (length recipients)
      * (TotalUnits (Info tok) / Z.of_nat (length recipients)).
Proof.
  intros Hnd Hall Hlen s. unfold CreateGenesisState in s.
  set (toks := genesisTokens additionalTokens) in *.
  set (s0 := foldl UpdateToken NewState toks) in *.
  assert (Hv0 : accountView s0 = ∅).
  { unfold s0. rewrite foldl_UpdateToken_accountView. unfold accountView. cbn.
    apply (left_id_L ∅ (∪)). }
  destruct (genesis_recipients (genesisBalances (length recipients) toks) recipients s0)
    as (H1 & _ & H3).
  - intros id b. apply genesisBalances_uint64.
    intros tok. by apply genesisTokens_uint64.
  - done.
  - intros pk _. by rewrite Hv0.
  - rewrite Hv0. apply balancesOk_empty.
  - split; [exact H1|]. intros tok Hin. unfold s. rewrite H3.
    rewrite genesisBalances_lookup; [|by apply genesisTokens_IDs|done].
    cbn [Available Pending].
    unfold totalUnits. rewrite Hv0, sumUnits_empty. lia.
Qed.

Lemma mul_div_le_total n total :
  0 <= n -> is_uint64 total -> n * (total / n) < 2 ^ 64.
Proof.
  intros Hn [H0 Hlt]. destruct (Z.eq_dec n 0) as [->|Hne]; [lia|].
  pose proof (Z.mul_div_le total n). lia.
Qed.

(** ** The account cache and its commit *)

Lemma CommitCache_fields s :
  tokens (CommitCache s) = tokens s /\
  orderExpirations (CommitCache s) = orderExpirations s /\
  pendingOrders (CommitCache s) = pendingOrders s /\
  accountCache (CommitCache s) = accountCache s /\
  accountDirty (CommitCache s) = accountDirty s.
Proof.
  unfold CommitCache.
  apply (map_fold_weak_ind
           (fun (r : State) (_ : gmap Z bool) =>
              tokens r = tokens s /\ orderExpirations r = orderExpirations s /\
              pendingOrders r = pendingOrders s /\ accountCache r = accountCache s /\
              accountDirty r = accountDirty s)); [done|].
  intros addr dirty m r _ IH. destruct dirty; [|done].
  by destruct (accountCache s !! addr).
Qed.

Lemma CommitCache_accounts s :
  cacheKeyed s ->
  forall k,
    accounts (CommitCache s) !! k =
    match accountDirty s !! k, accountCache s !! k with
    | Some true, Some acc => Some acc
    | _, _ => accounts s !! k
    end.
Proof.
  intros Hkey. unfold CommitCache.
  apply (map_fold_weak_ind
           (fun (r : State) (m : gmap Z bool) =>
              forall k, accounts r !! k =
                        match m !! k, accountCache s !! k with
                        | Some true, Some acc => Some acc
                        | _, _ => accounts s !! k
                        end)).
  - intros k. by rewrite lookup_empty.
  - intros addr dirty m r Hm IH k.
    destruct (decide (addr = k)) as [->|Hne].
    + rewrite lookup_insert_eq. destruct dirty.
      * destruct (accountCache s !! k) as [acc|] eqn:Hc.
        -- cbn. rewrite (Hkey _ _ Hc). apply lookup_insert_eq.
        -- rewrite IH, Hm. done.
      * rewrite IH, Hm. done.
    + rewrite lookup_insert_ne by done. rewrite <- IH.
      destruct dirty; [|done].
      destruct (accountCache s !! addr) as [acc|] eqn:Hc; [|done].
      cbn. rewrite lookup_insert_ne; [done|]. by rewrite (Hkey _ _ Hc).
Qed.

Lemma balancesOk_cacheKeyed s : balancesOk (accountView s) -> cacheKeyed s.
Proof.
  intros [Hk _] addr acc Hc. apply Hk. by rewrite lookup_accountView, Hc.
Qed.

(** On a coherent cache the committed leaves are what was read. *)
Lemma CommitCache_accounts_view s :
  cacheKeyed s -> cacheCoherent s -> accounts (CommitCache s) = accountView s.
Proof.
  intros Hkey Hcoh. apply map_eq. intros k.
  rewrite (CommitCache_accounts s Hkey), lookup_accountView.
  destruct (accountCache s !! k) as [acc|] eqn:Hc.
  - destruct (Hcoh _ _ Hc) as [Hd|Ha]; [by rewrite Hd|].
    rewrite Ha. by destruct (accountDirty s !! k) as [[]|].
  - by destruct (accountDirty s !! k) as [[]|].
Qed.

(** The transition opened on a committed state reads what the state
    read. *)
Lemma accountView_Transition_Commit s round :
  cacheKeyed s -> cacheCoherent s ->
  accountView (state (State_Transition (CommitCache s) round)) = accountView s.
Proof.
  intros Hkey Hcoh. unfold accountView at 1. cbn.
  rewrite (left_id_L ∅ (∪)). by apply CommitCache_accounts_view.
Qed.

Lemma cacheCoherent_newState s : cacheCoherent (newState s).
Proof. intros addr acc. cbn. by rewrite lookup_empty. Qed.

Lemma cacheCoherent_UpdateAccount s acc :
  cacheCoherent s -> cacheCoherent (UpdateAccount s acc).
Proof.
  intros Hcoh addr a. cbn.
  destruct (decide (pkAddr (PK acc) = addr)) as [->|Hne].
  - rewrite !lookup_insert_eq. by left.
  - rewrite !lookup_insert_ne by done. apply Hcoh.
Qed.

Lemma cacheCoherent_UpdateToken s tok :
  cacheCoherent s -> cacheCoherent (UpdateToken s tok).
Proof. intros Hcoh addr a. cbn. apply Hcoh. Qed.

Lemma cacheCoherent_UpdatePendingOrder s m add :
  cacheCoherent s -> cacheCoherent (UpdatePendingOrder s m add).
Proof. intros Hcoh. destruct add; [|done]. intros addr a. cbn. apply Hcoh. Qed.

Lemma cacheCoherent_State_Account s addr :
  cacheCoherent s -> cacheCoherent (fst (State_Account s addr)).
Proof.
  intros Hcoh. unfold State_Account.
  destruct (accountCache s !! addr) as [a|] eqn:Hc; [done|].
  destruct (accounts s !! addr) as [a|] eqn:Ha; [|done].
  intros k a'. cbn. destruct (decide (addr = k)) as [->|Hne].
  - rewrite lookup_insert_eq. intros [= <-]. by right.
  - rewrite lookup_insert_ne by done. apply Hcoh.
Qed.

Lemma cacheCoherent_validateSigAndNonce s b :
  cacheCoherent s -> cacheCoherent (fst (validateSigAndNonce s b)).
Proof.
  intros Hcoh. unfold validateSigAndNonce, validateNonce.
  destruct (decodeTxn b) as [txn|]; [|done].
  pose proof (cacheCoherent_State_Account s (Owner txn) Hcoh) as H.
  destruct (State_Account s (Owner txn)) as [s' [acc|]]; exact H.
Qed.

Lemma cacheCoherent_genesis recipients additionalTokens :
  cacheCoherent (CreateGenesisState recipients additionalTokens).
Proof.
  unfold CreateGenesisState.
  generalize (genesisBalances (length recipients) (genesisTokens additionalTokens)).
  intros bals.
  assert (H0 : cacheCoherent (foldl UpdateToken NewState (genesisTokens additionalTokens))).
  { generalize (genesisTokens additionalTokens). intros toks.
    assert (Hn : cacheCoherent NewState) by (intros addr a; cbn; by rewrite lookup_empty).
    revert Hn. generalize NewState.
    induction toks as [|tok toks IH]; intros s Hs; [done|].
    cbn [foldl]. apply IH. by apply cacheCoherent_UpdateToken. }
  revert H0. generalize (foldl UpdateToken NewState (genesisTokens additionalTokens)).
  induction recipients as [|pk rs IH]; intros s Hs; [done|].
  cbn [foldl]. apply IH. by apply cacheCoherent_UpdateAccount.
Qed.

(** A transition step keeps the cache coherent. *)
Lemma cacheCoherent_Record t b valid success t' :
  cacheCoherent (state t) ->
  Transition_Record t b = Returned (valid, success, t') ->
  cacheCoherent (state t').
Proof.
  intros Hcoh Hrec. destruct success.
  - apply Record_success in Hrec as (_ & _ & txn & acc & s1 & _ & Hacc & Hcase).
    pose proof (cacheCoherent_State_Account (state t) (Owner txn) Hcoh) as H1.
    rewrite Hacc in H1. cbn in H1.
    destruct Hcase as [[_ (ptxn & _ & Hp)]|[_ (stxn & _ & Hs)]].
    + apply placeOrder_true in Hp as (sb & _ & _ & _ & _ & ->).
      by apply cacheCoherent_UpdatePendingOrder, cacheCoherent_UpdateAccount.
    + apply sendToken_true in Hs as (bal & _ & _ & _ & _ & ->).
      by do 2 apply cacheCoherent_UpdateAccount.
  - apply Record_failure_state in Hrec as [_ ->].
    by apply cacheCoherent_validateSigAndNonce.
Qed.

(** *** Dirty addresses are cached *)

Lemma dirtyCached_newState s : dirtyCached (newState s).
Proof. intros addr. cbn. by rewrite lookup_empty. Qed.

Lemma dirtyCached_UpdateAccount s acc :
  dirtyCached s -> dirtyCached (UpdateAccount s acc).
Proof.
  intros Hd addr. cbn.
  destruct (decide (pkAddr (PK acc) = addr)) as [->|Hne].
  - rewrite !lookup_insert_eq. eauto.
  - rewrite !lookup_insert_ne by done. apply Hd.
Qed.

Lemma dirtyCached_UpdatePendingOrder s m add :
  dirtyCached s -> dirtyCached (UpdatePendingOrder s m add).
Proof. intros Hd. destruct add; [|done]. intros addr. cbn. apply Hd. Qed.

Lemma dirtyCached_State_Account s addr :
  dirtyCached s -> dirtyCached (fst (State_Account s addr)).
Proof.
  intros Hd. unfold State_Account.
  destruct (accountCache s !! addr) as [a|] eqn:Hc; [done|].
  destruct (accounts s !! addr) as [a|] eqn:Ha; [|done].
  intros k. cbn. destruct (decide (addr = k)) as [->|Hne].
  - rewrite lookup_insert_eq. eauto.
  - rewrite lookup_insert_ne by done. apply Hd.
Qed.

Lemma dirtyCached_genesis recipients additionalTokens :
  dirtyCached (CreateGenesisState recipients additionalTokens).
Proof.
  unfold CreateGenesisState.
  generalize (genesisBalances (length recipients) (genesisTokens additionalTokens)).
  intros bals.
  assert (H0 : dirtyCached (foldl UpdateToken NewState (genesisTokens additionalTokens))).
  { generalize (genesisTokens additionalTokens). intros toks.
    assert (Hn : dirtyCached NewState) by (intros addr; cbn; by rewrite lookup_empty).
    revert Hn. generalize NewState.
    induction toks as [|tok toks IH]; intros s Hs; [done|].
    cbn [foldl]. apply IH. intros addr. cbn. apply Hs. }
  revert H0. generalize (foldl UpdateToken NewState (genesisTokens additionalTokens)).
  induction recipients as [|pk rs IH]; intros s Hs; [done|].
  cbn [foldl]. apply IH. by apply dirtyCached_UpdateAccount.
Qed.

Lemma dirtyCached_Record t b valid success t' :
  dirtyCached (state t) ->
  Transition_Record t b = Returned (valid, success, t') ->
  dirtyCached (state t').
Proof.
  intros Hd Hrec. destruct success.
  - apply Record_success in Hrec as (_ & _ & txn & acc & s1 & _ & Hacc & Hcase).
    pose proof (dirtyCached_State_Account (state t) (Owner txn) Hd) as H1.
    rewrite Hacc in H1. cbn in H1.
    destruct Hcase as [[_ (ptxn & _ & Hp)]|[_ (stxn & _ & Hs)]].
    + apply placeOrder_true in Hp as (sb & _ & _ & _ & _ & ->).
      by apply dirtyCached_UpdatePendingOrder, dirtyCached_UpdateAccount.
    + apply sendToken_true in Hs as (bal & _ & _ & _ & _ & ->).
      by do 2 apply dirtyCached_UpdateAccount.
  - apply Record_failure_state in Hrec as [_ ->].
    unfold validateSigAndNonce, validateNonce.
    destruct (decodeTxn b) as [txn|]; [|done].
    pose proof (dirtyCached_State_Account (state t) (Owner txn) Hd) as H.
    destruct (State_Account (state t) (Owner txn)) as [s' [acc|]]; exact H.
Qed.

(** On the transitions the chain builds, and at genesis, a commit never
    meets a dirty address without a cached account. *)
Lemma reachable_dirtyCached recipients additionalTokens t :
  reachable recipients additionalTokens t ->
  dirtyCached (CreateGenesisState recipients additionalTokens) /\ dirtyCached (state t).
Proof.
  intros Hreach. split; [apply dirtyCached_genesis|].
  induction Hreach as [round|t b valid success t' Hreach IH Hrec Hlazy|t round Hreach IH].
  - apply dirtyCached_newState.
  - exact (dirtyCached_Record _ _ _ _ _ IH Hrec).
  - apply dirtyCached_newState.
Qed.

(** C1 (amended). From the genesis of [n] recipients with distinct
    addresses, its account cache committed, in every transition the
    chain builds by recording transactions ([PlaceOrder], [SendToken],
    failed ones included), committing and opening the next transition,
    each successful transfer going to a recipient that had no account,
    the sum over all accounts of [Available + Pending] of a genesis
    token [T] is [n * floor(T.TotalUnits / n)], in the transition and in
    the state its commit leaves; it is [T.TotalUnits] when [n] divides
    it. *)
Theorem conservation_from_genesis recipients additionalTokens t tok :
  CodecWf ->
  NoDup (pkAddr <$> recipients) ->
  Forall (fun ti => is_uint64 (TotalUnits ti)) additionalTokens ->
  Z.of_nat (length additionalTokens) < 2 ^ 64 - 1 ->
  reachable recipients additionalTokens t ->
  tok ∈ genesisTokens additionalTokens ->
  let n := Z.of_nat (length recipients) in
  totalUnits (state t) (ID tok) = n * (TotalUnits (Info tok) / n) /\
  totalUnits (Transition_Commit t) (ID tok) = n * (TotalUnits (Info tok) / n) /\
  ((n | TotalUnits (Info tok)) ->
   totalUnits (Transition_Commit t) (ID tok) = TotalUnits (Info tok)).
Proof.
  intros [Hwfp Hwfs] Hnd Hall Hlen Hreach Hin n.
  assert (Hinv : balancesOk (accountView (state t)) /\ cacheCoherent (state t) /\
                 forall tok, tok ∈ genesisTokens additionalTokens ->
                   totalUnits (state t) (ID tok) = n * (TotalUnits (Info tok) / n)).
  { clear tok Hin.
    induction Hreach as [round|t b valid success t' Hreach IH Hrec Hlazy|t round Hreach IH].
    - destruct (genesis_totalUnits recipients additionalTokens Hnd Hall Hlen) as [Hok Hsum].
      pose proof (cacheCoherent_genesis recipients additionalTokens) as Hcoh.
      pose proof (accountView_Transition_Commit _ round (balancesOk_cacheKeyed _ Hok) Hcoh)
        as Hv.
      unfold totalUnits. rewrite Hv.
      split; [done|]. split; [apply cacheCoherent_newState|]. exact Hsum.
    - destruct IH as (Hok & Hcoh & Hsum).
      split; [|split; [exact (cacheCoherent_Record _ _ _ _ _ Hcoh Hrec)|]].
      + destruct success.
        * apply Record_success in Hrec as (_ & _ & txn & acc & s1 & Hdec & Hacc & Hcase).
          pose proof (State_Account_spec (state t) (Owner txn)) as Hspec.
          rewrite Hacc in Hspec. destruct Hspec as (Hr & Hv & _).
          assert (Hown : accountView s1 !! pkAddr (PK acc) = Some acc).
          { rewrite Hv. symmetry in Hr. by rewrite (proj1 Hok _ _ Hr). }
          rewrite <- Hv in Hok.
          destruct Hcase as [[_ (ptxn & Hgob & Hp)]|[HT (stxn & Hgob & Hs)]].
          -- by destruct (placeOrder_step _ _ _ _ Hok Hown Hp (Hwfp _ _ Hgob)) as (Hok' & _).
          -- assert (Hto : accountView s1 !! pkAddr (To stxn) = None).
             { rewrite Hv. by apply (Hlazy eq_refl txn stxn). }
             by destruct (sendToken_step _ _ _ _ Hok Hown Hto Hs (Hwfs _ _ Hgob)) as (Hok' & _).
        * apply Record_failure_state in Hrec as [_ Hst].
          destruct (validateSigAndNonce_observable (state t) b) as (Hv & _).
          rewrite <- Hst in Hv. by rewrite Hv.
      + destruct success.
        * apply Record_success in Hrec as (_ & _ & txn & acc & s1 & Hdec & Hacc & Hcase).
          pose proof (State_Account_spec (state t) (Owner txn)) as Hspec.
          rewrite Hacc in Hspec. destruct Hspec as (Hr & Hv & _).
          assert (Hown : accountView s1 !! pkAddr (PK acc) = Some acc).
          { rewrite Hv. symmetry in Hr. by rewrite (proj1 Hok _ _ Hr). }
          assert (Htot : forall id, totalUnits s1 id = totalUnits (state t) id).
          { intros id. unfold totalUnits. by rewrite Hv. }
          rewrite <- Hv in Hok.
          destruct Hcase as [[_ (ptxn & Hgob & Hp)]|[HT (stxn & Hgob & Hs)]].
          -- destruct (placeOrder_step _ _ _ _ Hok Hown Hp (Hwfp _ _ Hgob)) as (_ & _ & Hsum').
             intros tok Hin. rewrite Hsum'; rewrite Htot, Hsum by done; [done|].
             apply mul_div_le_total; [lia|]. by apply (genesisTokens_uint64 additionalTokens).
          -- assert (Hto : accountView s1 !! pkAddr (To stxn) = None).
             { rewrite Hv. by apply (Hlazy eq_refl txn stxn). }
             destruct (sendToken_step _ _ _ _ Hok Hown Hto Hs (Hwfs _ _ Hgob)) as (_ & _ & Hsum').
             intros tok Hin. by rewrite Hsum', Htot, Hsum.
        * apply Record_failure_state in Hrec as [_ Hst].
          destruct (validateSigAndNonce_observable (state t) b) as (Hv & _).
          rewrite <- Hst in Hv. unfold totalUnits. rewrite Hv. done.
    - destruct IH as (Hok & Hcoh & Hsum).
      pose proof (accountView_Transition_Commit _ round (balancesOk_cacheKeyed _ Hok) Hcoh)
        as Hv.
      unfold Transition_Commit, totalUnits. rewrite Hv.
      split; [done|]. split; [apply cacheCoherent_newState|]. exact Hsum. }
  destruct Hinv as (Hok & _ & Hsum).
  assert (Hc : totalUnits (Transition_Commit t) (ID tok) = n * (TotalUnits (Info tok) / n)).
  { unfold Transition_Commit, totalUnits.
    rewrite (proj1 (CommitCache_spec (state t) Hok)). by apply Hsum. }
  split; [by apply Hsum|]. split; [exact Hc|].
  intros [k Hk]. rewrite Hc, Hk.
  destruct (Z.eq_dec n 0) as [->|Hne]; [lia|].
  rewrite Z.div_mul by done. lia.
Qed.


(** C8 (amended). Genesis with two recipients of distinct addresses and
    the extra token ACME gives each of them exactly 500_000 ACME and
    10_000_000_000_000_000 BNB available, nothing pending and no other
    token; the same is read from the genesis state, from the state with
    its cache committed and from a transition opened on it. *)
Theorem genesis_two_recipients (p1 p2 : consensus_PK) (round : Z) :
  pkAddr p1 <> pkAddr p2 ->
  let s := CreateGenesisState [p1; p2] [ACME] in
  forall s',
    s' = s \/ s' = CommitCache s \/ s' = state (State_Transition (CommitCache s) round) ->
    forall p, p = p1 \/ p = p2 ->
      balanceOf s' (pkAddr p) ACME_ID = Some {| Available := 500000; Pending := 0 |} /\
      balanceOf s' (pkAddr p) BNB_ID
      = Some {| Available := 10000000000000000; Pending := 0 |} /\
      (forall id, id <> ACME_ID -> id <> BNB_ID -> balanceOf s' (pkAddr p) id = None).
Proof.
  intros Hne s.
  set (toks := genesisTokens [ACME]).
  set (s0 := foldl UpdateToken NewState toks).
  set (acc := fun p => {| PK := p; NonceVec := []; Balances := genesisBalances 2 toks;
                          OrderMarkets := [] |}).
  assert (Hs : s = UpdateAccount (UpdateAccount s0 (acc p1)) (acc p2)) by reflexivity.
  assert (Hacme : genesisBalances 2 toks !! ACME_ID
                  = Some {| Available := 500000; Pending := 0 |}) by (vm_compute; reflexivity).
  assert (Hbnb : genesisBalances 2 toks !! BNB_ID
                 = Some {| Available := 10000000000000000; Pending := 0 |})
    by (vm_compute; reflexivity).
  assert (Hother : forall id, id <> ACME_ID -> id <> BNB_ID ->
                              genesisBalances 2 toks !! id = None).
  { intros id H1 H0. unfold ACME_ID, BNB_ID in *. cbn.
    rewrite !lookup_insert_ne by done. apply lookup_empty. }
  assert (Hbal : forall p id, p = p1 \/ p = p2 ->
                              balanceOf s (pkAddr p) id = genesisBalances 2 toks !! id).
  { intros p id [->| ->]; rewrite Hs, !balanceOf_UpdateAccount; cbn.
    - rewrite decide_False by done. by rewrite decide_True.
    - by rewrite decide_True. }
  assert (Hnd : NoDup (pkAddr <$> [p1; p2])).
  { cbn. apply NoDup_cons. split; [|apply NoDup_singleton].
    intros Hin. by apply list_elem_of_singleton in Hin. }
  assert (Hall : Forall (fun ti => is_uint64 (TotalUnits ti)) [ACME]).
  { apply Forall_cons. split; [cbn; unfold is_uint64; lia|apply Forall_nil_2]. }
  destruct (genesis_totalUnits [p1; p2] [ACME] Hnd Hall) as [Hok _]; [cbn; lia|].
  fold s in Hok.
  assert (Hview : forall s',
             s' = s \/ s' = CommitCache s \/
             s' = state (State_Transition (CommitCache s) round) ->
             accountView s' = accountView s).
  { intros s' [->|[->| ->]]; [done| |].
    - apply (CommitCache_spec s Hok).
    - apply accountView_Transition_Commit; [by apply balancesOk_cacheKeyed|].
      apply cacheCoherent_genesis. }
  intros s' Hs' p Hp.
  assert (Hb' : forall id, balanceOf s' (pkAddr p) id = genesisBalances 2 toks !! id).
  { intros id. rewrite <- (Hbal p id Hp). unfold balanceOf. by rewrite (Hview s' Hs'). }
  rewrite !Hb'. split; [done|]. split; [done|]. intros id H1 H0. rewrite Hb'. by apply Hother.
Qed.

End Conservation.

Lemma exampleCodec_wf : CodecWf (codec := exampleCodec).
Proof.
  split; intros b p H; cbn in H.
  - unfold example_gobDecodePlaceOrder in H.
    repeat match type of H with
           | context [match ?x with _ => _ end] => destruct x; try discriminate
           end; inversion H; subst; cbn; unfold is_uint64; lia.
  - unfold example_gobDecodeSendToken in H.
    repeat match type of H with
           | context [match ?x with _ => _ end] => destruct x; try discriminate
           end; inversion H; subst; cbn; unfold is_uint64; lia.
Qed.

Lemma conservation_from_genesis_witness :
  Transition_Record (codec := exampleCodec) transitionA [5]
  = Returned (true, true, transitionA5) /\
  totalUnits (Transition_Commit (codec := exampleCodec) transitionA5) ACME_ID
  = 2 * (1000000 / 2) /\
  totalUnits (Transition_Commit (codec := exampleCodec) transitionA5) ACME_ID = 1000000.
Proof.
  assert (Hrec : Transition_Record (codec := exampleCodec) transitionA [5]
                 = Returned (true, true, transitionA5)) by (vm_compute; reflexivity).
  split; [exact Hrec|].
  assert (Hnd : NoDup (pkAddr (Codec := exampleCodec) <$> [P1; P2])).
  { apply NoDup_cons. split; [|apply NoDup_singleton].
    intros Hin. apply list_elem_of_singleton in Hin. vm_compute in Hin. discriminate. }
  assert (Hall : Forall (fun ti => is_uint64 (TotalUnits ti)) [ACME]).
  { apply Forall_cons. split; [cbn; unfold is_uint64; lia|apply Forall_nil_2]. }
  assert (Hlen : Z.of_nat (length [ACME]) < 2 ^ 64 - 1) by (cbn; lia).
  assert (Hreach : reachable (codec := exampleCodec) [P1; P2] [ACME] transitionA5).
  { eapply reachable_Record; [apply (reachable_genesis _ _ 1)|exact Hrec|].
    intros _ txn stxn Hd HT Hg. cbn in Hd. inversion Hd; subst txn. clear Hd.
    cbn in Hg. inversion Hg; subst stxn. vm_compute. reflexivity. }
  assert (Hin : {| ID := ACME_ID; Info := ACME |} ∈ genesisTokens [ACME]).
  { right. left. }
  destruct (conservation_from_genesis (codec := exampleCodec) [P1; P2] [ACME] transitionA5 _
              exampleCodec_wf Hnd Hall Hlen Hreach Hin) as (_ & H1 & H2).
  split; [exact H1|]. apply H2. exists 500000. reflexivity.
Defined.

(** C1, as stated, fails twice.  At genesis: with three recipients the
    BNB units add up to [3 * floor(2*10^16 / 3)], two short of
    [TotalUnits].  And by two transfers to one new recipient in a
    transition: the second transfer looks the recipient up in the trie,
    where the first one has not been written yet, and replaces the
    account the first one created, so 10_000 of the 1_000_000 ACME are
    gone after the commit. *)
Lemma conservation_counterexample :
  (totalUnits (CommitCache (codec := exampleCodec)
                 (CreateGenesisState (codec := exampleCodec) [P1; P2; P3] [])) BNB_ID
   = 19999999999999998 /\
   TotalUnits BNBInfo = 20000000000000000) /\
  (totalUnits genesisA_committed ACME_ID = 1000000 /\
   TotalUnits ACME = 1000000 /\
   Transition_Record (codec := exampleCodec) transitionA [5]
   = Returned (true, true, transitionA5) /\
   Transition_Record (codec := exampleCodec) transitionA5 [5]
   = Returned (true, true, transitionA55) /\
   totalUnits (Transition_Commit (codec := exampleCodec) transitionA55) ACME_ID = 990000).
Proof.
  split; [split; vm_compute; reflexivity|].
  split; [vm_compute; reflexivity|]. split; [reflexivity|].
  split; [vm_compute; reflexivity|]. split; vm_compute; reflexivity.
Qed.



Lemma genesis_two_recipients_witness :
  example_pkAddr P1 <> example_pkAddr P2 /\
  balanceOf (state transitionA) (example_pkAddr P2) ACME_ID
  = Some {| Available := 500000; Pending := 0 |} /\
  balanceOf (state transitionA) (example_pkAddr P2) BNB_ID
  = Some {| Available := 10000000000000000; Pending := 0 |}.
Proof.
  assert (Hne : example_pkAddr P1 <> example_pkAddr P2) by (vm_compute; discriminate).
  split; [exact Hne|].
  destruct (genesis_two_recipients (codec := exampleCodec) P1 P2 1 Hne
              (state transitionA) (or_intror (or_intror eq_refl)) P2 (or_intror eq_refl))
    as (H1 & H2 & _).
  split; [exact H1|exact H2].
Defined.

(** C8, as stated, fails on both counts.  P1's BNB balance at genesis
    is [10^16], not [10^14].  And the Scenario A transfer, recorded in
    the transition opened on the committed genesis, reports no success
    and moves nothing: P2 has a leaf in the trie, which [sendToken]
    decodes into a nil account. *)
Lemma scenarioA_counterexample :
  balanceOf genesisA (example_pkAddr P1) BNB_ID
  = Some {| Available := 10000000000000000; Pending := 0 |} /\
  10000000000000000 <> 100000000000000 /\
  gobDecodeSendToken (Codec := exampleCodec) [1] = Some sendA /\
  Transition_Record (codec := exampleCodec) transitionA [1]
  = Returned (true, false, transitionA1) /\
  balanceOf (state transitionA1) (example_pkAddr P1) ACME_ID
  = Some {| Available := 500000; Pending := 0 |} /\
  balanceOf (state transitionA1) (example_pkAddr P2) ACME_ID
  = Some {| Available := 500000; Pending := 0 |}.
Proof.
  split; [vm_compute; reflexivity|]. split; [lia|]. split; [reflexivity|].
  split; [vm_compute; reflexivity|]. split; vm_compute; reflexivity.
Qed.

(** ** More of the state and of the transition *)

Lemma encodePath_loop (str : bytes) : forall (pre post : bytes) (k : nat),
  length pre = (k * 2)%nat ->
  foldl (fun nibbles ib =>
           let i := fst ib in
           let b := snd ib in
           let nibbles := <[(i * 2)%nat := b / 16]> nibbles in
           <[(i * 2 + 1)%nat := b mod 16]> nibbles)
        (pre ++ make_bytes (length str * 2) ++ post)
        (imap (fun i b => (k + i, b)%nat) str)
  = pre ++ flat_map (fun b => [b / 16; b mod 16]) str ++ post.
Proof.
  induction str as [|b str IH]; intros pre post k Hpre; [done|].
  cbn [imap foldl fst snd length flat_map].
  replace ((k + 0) * 2 + 1)%nat with (length pre + 1)%nat by lia.
  replace ((k + 0) * 2)%nat with (length pre + 0)%nat by lia.
  change (make_bytes (S (length str) * 2)) with (0 :: 0 :: make_bytes (length str * 2)).
  rewrite (insert_app_r pre _ 0). cbn [list_insert insert app].
  rewrite (insert_app_r pre _ 1). cbn [list_insert insert app].
  specialize (IH (pre ++ [b / 16; b mod 16]) post (S k)).
  rewrite <- !(assoc_L app) in IH. cbn in IH.
  rewrite <- IH by (rewrite length_app; cbn; lia).
  f_equal. apply imap_ext. intros i x _. cbn. f_equal. lia.
Qed.

Lemma encodePath_flat_map (str : bytes) :
  encodePath str = flat_map (fun b => [b / 16; b mod 16]) str.
Proof.
  unfold encodePath.
  pose proof (encodePath_loop str [] [] 0 eq_refl) as H.
  rewrite app_nil_r in H. cbn [app] in H. rewrite app_nil_r in H. exact H.
Qed.

(** X1. [encodePath] writes two nibbles per byte, high nibble first:
    the result is twice as long, its entries [2i] and [2i+1] are the
    quotient and the remainder of byte [i] by 16, they are nibbles when
    the input is a byte string, and no two inputs share a result. *)
Theorem encodePath_nibbles (str : bytes) :
  length (encodePath str) = (length str * 2)%nat /\
  (forall i b, str !! i = Some b ->
     encodePath str !! (i * 2)%nat = Some (b / 16) /\
     encodePath str !! (i * 2 + 1)%nat = Some (b mod 16)) /\
  (Forall (fun b => 0 <= b < 256) str -> Forall (fun n => 0 <= n < 16) (encodePath str)) /\
  (forall str', encodePath str = encodePath str' -> str = str').
Proof.
  rewrite encodePath_flat_map. repeat split.
  - induction str as [|b str IH]; cbn; [done|]. rewrite IH. lia.
  - revert i H. induction str as [|x str IH]; intros i Hi; [done|].
    destruct i as [|i]; cbn in *; [by inversion Hi|]. by apply IH.
  - revert i H. induction str as [|x str IH]; intros i Hi; [done|].
    destruct i as [|i]; cbn in *; [by inversion Hi|]. by apply IH.
  - induction 1 as [|b str Hb _ IH]; cbn; [constructor|].
    constructor; [|constructor; [|exact IH]].
    + split; [apply Z.div_pos; lia|apply Z.div_lt_upper_bound; lia].
    + apply Z.mod_pos_bound. lia.
  - intros str'. rewrite encodePath_flat_map. revert str'.
    induction str as [|b str IH]; intros [|b' str'] H; cbn in H; try done.
    inversion H as [[Hd Hm Hrest]]. f_equal; [|by apply IH].
    rewrite (Z.div_mod b 16), (Z.div_mod b' 16) by lia. congruence.
Qed.

Lemma encodePath_nibbles_witness :
  [171; 18] !! 0%nat = Some 171 /\
  Forall (fun b => 0 <= b < 256) [171; 18] /\
  encodePath [171; 18] = [10; 11; 1; 2] /\
  Forall (fun n => 0 <= n < 16) (encodePath [171; 18]) /\
  encodePath [171; 18] !! (0 * 2)%nat = Some (171 / 16).
Proof.
  assert (Hf : Forall (fun b => 0 <= b < 256) [171; 18]) by (repeat constructor; lia).
  split; [reflexivity|]. split; [exact Hf|]. split; [reflexivity|].
  split; [exact (proj1 (proj2 (proj2 (encodePath_nibbles [171; 18]))) Hf)|].
  exact (proj1 (proj1 (proj2 (encodePath_nibbles [171; 18])) 0%nat 171 eq_refl)).
Defined.

(** *** Paths *)

Lemma LE64_inj a b : is_uint64 a -> is_uint64 b -> LE64 a = LE64 b -> a = b.
Proof.
  intros Ha Hb H.
  rewrite <- (Uint64_LE64 a [] Ha), <- (Uint64_LE64 b [] Hb). by rewrite H.
Qed.

Lemma PutUint64_make64_inj a b :
  is_uint64 a -> is_uint64 b ->
  PutUint64 (make_bytes 64) a = PutUint64 (make_bytes 64) b -> a = b.
Proof.
  intros Ha Hb. rewrite !PutUint64_make64. intros H.
  apply app_inj_1 in H as [H _]; [|reflexivity]. by apply LE64_inj.
Qed.

(** X2. The paths of the state trie do not collide: a token, expiration
    or freeze path is the domain byte followed by 64 bytes and
    determines its [uint64] key, a market path is 129 bytes and
    determines the market symbol, an account path determines the
    address, and paths of different domains differ in their first
    byte. *)
Theorem trie_paths_collision_free :
  (forall a b, is_uint64 a -> is_uint64 b ->
     (tokenPath a = tokenPath b -> a = b) /\
     (expirationToPath a = expirationToPath b -> a = b) /\
     (freezeAtRoundToPath a = freezeAtRoundToPath b -> a = b)) /\
  (forall m1 m2, is_uint64 (Base m1) -> is_uint64 (Quote m1) ->
     is_uint64 (Base m2) -> is_uint64 (Quote m2) ->
     marketPath (Encode m1) = marketPath (Encode m2) -> m1 = m2) /\
  (forall a1 a2, accountAddrToPath a1 = accountAddrToPath a2 -> a1 = a2) /\
  (forall k m addr,
     length (tokenPath k) = 65%nat /\ length (expirationToPath k) = 65%nat /\
     length (freezeAtRoundToPath k) = 65%nat /\ length (marketPath (Encode m)) = 129%nat /\
     length (accountAddrToPath addr) = S (length addr) /\
     head (accountAddrToPath addr) = Some 0 /\ head (marketPath (Encode m)) = Some 1 /\
     head (tokenPath k) = Some 2 /\ head (expirationToPath k) = Some 3 /\
     head (freezeAtRoundToPath k) = Some 4).
Proof.
  split; [|split; [|split]].
  - intros a b Ha Hb.
    unfold tokenPath, expirationToPath, freezeAtRoundToPath. cbn zeta.
    repeat split; intros H; apply (f_equal (drop 1)) in H; cbn [drop app] in H;
      by apply PutUint64_make64_inj.
  - intros m1 m2 Hb1 Hq1 Hb2 Hq2 H. unfold marketPath in H.
    apply (f_equal (drop 1)) in H. cbn [drop app marketPrefix] in H.
    unfold Encode in H. cbn zeta in H.
    apply app_inj_1 in H as [HQ HB]; [|reflexivity].
    apply PutUint64_make64_inj in HQ, HB; try done.
    destruct m1, m2; cbn in *; congruence.
  - intros a1 a2 H. unfold accountAddrToPath in H. by apply (f_equal (drop 1)) in H.
  - intros k m addr. repeat split; reflexivity.
Qed.

Lemma trie_paths_collision_free_witness :
  is_uint64 7 /\ tokenPath 7 = tokenPath 7 /\ tokenPath 7 <> expirationToPath 7 /\
  (tokenPath 7 = tokenPath 7 -> 7 = 7).
Proof.
  assert (H7 : is_uint64 7) by (unfold is_uint64; lia).
  split; [exact H7|]. split; [reflexivity|]. split; [discriminate|].
  exact (proj1 (proj1 trie_paths_collision_free 7 7 H7 H7)).
Defined.


(** *** Order expirations *)

Lemma RemoveOrderExpirations_loop (ids : gmap Z bool) (all acc0 : list orderExpiration) :
  foldl (fun newExps exp =>
           if negb (default false (ids !! exp_ID exp)) then newExps ++ [exp] else newExps)
        acc0 all
  = acc0 ++ List.filter (fun exp => negb (default false (ids !! exp_ID exp))) all.
Proof.
  revert acc0. induction all as [|e all IH]; intros acc0; cbn; [by rewrite app_nil_r|].
  rewrite IH. destruct (negb _); [by rewrite <- (assoc_L app)|done].
Qed.

(** X3. The expiration index of a round is a list that
    [AddOrderExpirations] extends at the end and
    [RemoveOrderExpirations] filters: after an add the round holds the
    old entries followed by the new ones; after a remove it holds, in
    order, exactly the entries whose id is not flagged [true]; both
    leave every other round alone; and removing what was just added
    gives back the old list when no old entry is flagged. *)
Theorem orderExpirations_add_remove (s : State) (round : Z) :
  (forall ids,
      getOrderExpirations (AddOrderExpirations s round ids) round
      = getOrderExpirations s round ++ ids) /\
  (forall del,
      getOrderExpirations (RemoveOrderExpirations s round del) round
      = List.filter (fun exp => negb (default false (del !! exp_ID exp)))
                    (getOrderExpirations s round)) /\
  (forall ids del r',
      r' <> round ->
      getOrderExpirations (AddOrderExpirations s round ids) r' = getOrderExpirations s r' /\
      getOrderExpirations (RemoveOrderExpirations s round del) r' = getOrderExpirations s r') /\
  (forall ids del,
      Forall (fun e => del !! exp_ID e = Some true) ids ->
      Forall (fun e => del !! exp_ID e <> Some true) (getOrderExpirations s round) ->
      getOrderExpirations
        (RemoveOrderExpirations (AddOrderExpirations s round ids) round del) round
      = getOrderExpirations s round).
Proof.
  assert (Hadd : forall ids,
             getOrderExpirations (AddOrderExpirations s round ids) round
             = getOrderExpirations s round ++ ids).
  { intros ids. unfold getOrderExpirations at 1. cbn. by rewrite lookup_insert_eq. }
  assert (Hdel : forall s0 del,
             getOrderExpirations (RemoveOrderExpirations s0 round del) round
             = List.filter (fun exp => negb (default false (del !! exp_ID exp)))
                           (getOrderExpirations s0 round)).
  { intros s0 del. unfold getOrderExpirations at 1. cbn. rewrite lookup_insert_eq. cbn.
    by rewrite RemoveOrderExpirations_loop. }
  split; [exact Hadd|]. split; [apply Hdel|]. split.
  - intros ids del r' Hne. unfold getOrderExpirations. cbn.
    by rewrite !lookup_insert_ne.
  - intros ids del Hnew Hold. rewrite Hdel, Hadd, List.filter_app.
    assert (H1 : List.filter (fun exp => negb (default false (del !! exp_ID exp))) ids = []).
    { clear -Hnew. induction Hnew as [|e l He _ IH]; cbn; [done|]. by rewrite He. }
    assert (H2 : List.filter (fun exp => negb (default false (del !! exp_ID exp)))
                   (getOrderExpirations s round) = getOrderExpirations s round).
    { clear -Hold. induction Hold as [|e l He _ IH]; cbn; [done|].
      rewrite IH. destruct (del !! exp_ID e) as [[]|]; cbn; congruence. }
    rewrite H1, H2. apply app_nil_r.
Qed.

Lemma orderExpirations_add_remove_witness :
  let e1 := {| exp_ID := 1; exp_Owner := 10 |} in
  let e2 := {| exp_ID := 2; exp_Owner := 20 |} in
  let s := AddOrderExpirations NewState 100 [e1] in
  (100 <> 101) /\
  getOrderExpirations (AddOrderExpirations s 101 [e2]) 100 = [e1] /\
  getOrderExpirations
    (RemoveOrderExpirations (AddOrderExpirations s 100 [e2]) 100 (<[2 := true]> ∅)) 100
  = [e1].
Proof.
  intros e1 e2 s.
  assert (Hne : 100 <> 101) by lia.
  split; [exact Hne|]. split.
  - exact (proj1 (proj1 (proj2 (proj2 (orderExpirations_add_remove s 101)))
                    [e2] ∅ 100 Hne)).
  - apply (proj2 (proj2 (proj2 (orderExpirations_add_remove s 100)))).
    + repeat constructor.
    + repeat constructor. cbn. discriminate.
Defined.

(** *** The account cache *)

Section Cache.
Context {codec : Codec}.

Lemma State_eq (s1 s2 : State) :
  tokens s1 = tokens s2 -> accounts s1 = accounts s2 ->
  orderExpirations s1 = orderExpirations s2 -> pendingOrders s1 = pendingOrders s2 ->
  accountCache s1 = accountCache s2 -> accountDirty s1 = accountDirty s2 -> s1 = s2.
Proof. destruct s1, s2. cbn. by intros -> -> -> -> -> ->. Qed.

(** X4. On a state whose cached accounts are stored under their own
    addresses and whose dirty addresses are cached, [CommitCache] writes
    every dirty account to its leaf and touches no other leaf; the cache
    and the dirty flags stay as they are (no flag is cleared), so a
    second [CommitCache] changes nothing, and what is read for any
    address is the same before and after. *)
Theorem CommitCache_writes_dirty (s : State) :
  cacheKeyed s -> dirtyCached s ->
  (forall addr acc,
      accountDirty s !! addr = Some true -> accountCache s !! addr = Some acc ->
      accounts (CommitCache s) !! addr = Some acc) /\
  (forall addr,
      accountDirty s !! addr <> Some true ->
      accounts (CommitCache s) !! addr = accounts s !! addr) /\
  accountCache (CommitCache s) = accountCache s /\
  accountDirty (CommitCache s) = accountDirty s /\
  CommitCache (CommitCache s) = CommitCache s /\
  (forall addr, snd (State_Account (CommitCache s) addr) = snd (State_Account s addr)).
Proof.
  intros Hkey _.
  pose proof (CommitCache_accounts s Hkey) as Hacc.
  destruct (CommitCache_fields s) as (Ht & He & Hp & Hc & Hd).
  assert (Hkey' : cacheKeyed (CommitCache s)).
  { intros addr acc. rewrite Hc. apply Hkey. }
  pose proof (CommitCache_accounts (CommitCache s) Hkey') as Hacc'.
  destruct (CommitCache_fields (CommitCache s)) as (Ht' & He' & Hp' & Hc' & Hd').
  split; [|split; [|split; [|split; [|split]]]]; try done.
  - intros addr acc Hdirty Hcache. by rewrite Hacc, Hdirty, Hcache.
  - intros addr Hdirty. rewrite Hacc.
    destruct (accountDirty s !! addr) as [[]|]; [done| |]; by destruct (accountCache s !! addr).
  - apply State_eq; try congruence.
    apply map_eq. intros k. rewrite Hacc', Hd, Hc, Hacc.
    destruct (accountDirty s !! k) as [[]|]; [|done|done].
    by destruct (accountCache s !! k).
  - intros addr.
    pose proof (State_Account_spec (CommitCache s) addr) as H1.
    pose proof (State_Account_spec s addr) as H2.
    destruct (State_Account (CommitCache s) addr) as [s1 r1].
    destruct (State_Account s addr) as [s2 r2]. cbn.
    destruct H1 as [-> _], H2 as [-> _].
    rewrite !lookup_accountView, Hc.
    destruct (accountCache s !! addr) as [a|] eqn:Hca; [done|].
    rewrite Hacc, Hca. by destruct (accountDirty s !! addr) as [[]|].
Qed.

(** X5. [State.Transition] starts from the trie alone: its transition
    has no transactions and reads for every address the account leaf of
    the trie, so an account that is only in the cache is not there.
    After [CommitCache], on a coherent cache, the transition reads for
    every address what the state reads. *)
Theorem State_Transition_reads_trie (s : State) (round : Z) :
  Txns (State_Transition s round) = [] /\
  (forall addr,
      snd (State_Account (state (State_Transition s round)) addr) = accounts s !! addr) /\
  (cacheKeyed s -> cacheCoherent s -> dirtyCached s ->
   forall addr,
     snd (State_Account (state (State_Transition (CommitCache s) round)) addr)
     = snd (State_Account s addr)).
Proof.
  assert (Hread : forall s0 addr,
             snd (State_Account (state (State_Transition s0 round)) addr)
             = accounts s0 !! addr).
  { intros s0 addr. unfold State_Account. cbn. rewrite lookup_empty.
    by destruct (accounts s0 !! addr). }
  split; [done|]. split; [apply Hread|].
  intros Hkey Hcoh _ addr. rewrite Hread, (CommitCache_accounts s Hkey).
  pose proof (State_Account_spec s addr) as H2.
  destruct (State_Account s addr) as [s2 r2]. cbn. destruct H2 as [-> _].
  rewrite lookup_accountView.
  destruct (accountCache s !! addr) as [acc|] eqn:Hc.
  - destruct (Hcoh _ _ Hc) as [Hd|Ha]; [by rewrite Hd|].
    rewrite Ha. by destruct (accountDirty s !! addr) as [[]|].
  - by destruct (accountDirty s !! addr) as [[]|].
Qed.

End Cache.

Lemma genesisA_cacheKeyed : cacheKeyed (codec := exampleCodec) genesisA.
Proof.
  apply balancesOk_cacheKeyed.
  apply (genesis_totalUnits (codec := exampleCodec) [P1; P2] [ACME]).
  - apply NoDup_cons. split; [|apply NoDup_singleton].
    intros Hin. apply list_elem_of_singleton in Hin. vm_compute in Hin. discriminate.
  - apply Forall_cons. split; [cbn; unfold is_uint64; lia|apply Forall_nil_2].
  - cbn. lia.
Qed.

Lemma genesisA_cacheCoherent : cacheCoherent genesisA.
Proof. apply (cacheCoherent_genesis (codec := exampleCodec)). Qed.

Lemma genesisA_dirtyCached : dirtyCached genesisA.
Proof. apply (dirtyCached_genesis (codec := exampleCodec)). Qed.

Lemma CommitCache_writes_dirty_witness :
  cacheKeyed (codec := exampleCodec) genesisA /\
  accounts genesisA !! 1 = None /\
  accounts (CommitCache (codec := exampleCodec) genesisA) !! 1 = accountCache genesisA !! 1 /\
  CommitCache (codec := exampleCodec) (CommitCache (codec := exampleCodec) genesisA)
  = CommitCache (codec := exampleCodec) genesisA.
Proof.
  split; [exact genesisA_cacheKeyed|]. split; [reflexivity|].
  pose proof (CommitCache_writes_dirty (codec := exampleCodec) genesisA genesisA_cacheKeyed
                genesisA_dirtyCached) as (H1 & _ & _ & _ & H5 & _).
  split; [|exact H5].
  destruct (accountCache genesisA !! 1) as [acc|] eqn:Hc; [|vm_compute in Hc; discriminate].
  apply H1; [vm_compute; reflexivity|exact Hc].
Defined.

Lemma State_Transition_reads_trie_witness :
  cacheKeyed (codec := exampleCodec) genesisA /\ cacheCoherent genesisA /\
  snd (State_Account (state (State_Transition genesisA 1)) 1) = None /\
  snd (State_Account
         (state (State_Transition (CommitCache (codec := exampleCodec) genesisA) 1)) 1)
  = snd (State_Account genesisA 1) /\
  is_Some (snd (State_Account genesisA 1)).
Proof.
  split; [exact genesisA_cacheKeyed|]. split; [exact genesisA_cacheCoherent|].
  split; [reflexivity|].
  split; [|vm_compute; eauto].
  exact (proj2 (proj2 (State_Transition_reads_trie (codec := exampleCodec) genesisA 1))
           genesisA_cacheKeyed genesisA_cacheCoherent genesisA_dirtyCached 1).
Defined.


Section Record.
Context {codec : Codec}.

Lemma State_Account_absent s addr :
  accountView s !! addr = None -> State_Account s addr = (s, None).
Proof.
  rewrite lookup_accountView. unfold State_Account.
  destruct (accountCache s !! addr); [done|]. by intros ->.
Qed.

Lemma State_Account_present s addr acc :
  accountView s !! addr = Some acc ->
  exists s', State_Account s addr = (s', Some acc).
Proof.
  intros H. pose proof (State_Account_spec s addr) as Hs.
  destruct (State_Account s addr) as [s' r]. destruct Hs as [-> _]. rewrite H. eauto.
Qed.

(** X6. The flags of [Record].  It returns [valid = false] exactly when
    the bytes do not decode or the owner has no account, and then the
    transition is returned as it was; [success] is only reported
    together with [valid], and exactly the successful calls append
    their bytes to [Txns()]. *)
Theorem Record_flags (t : Transition) (b : bytes) :
  ((decodeTxn b = None \/
    exists txn, decodeTxn b = Some txn /\ accountView (state t) !! Owner txn = None) <->
   exists success t', Transition_Record t b = Returned (false, success, t')) /\
  (forall success t',
      Transition_Record t b = Returned (false, success, t') ->
      success = false /\ t' = t) /\
  (forall valid t',
      Transition_Record t b = Returned (valid, true, t') ->
      valid = true /\ Txns t' = Txns t ++ [b]) /\
  (forall valid t',
      Transition_Record t b = Returned (valid, false, t') -> Txns t' = Txns t).
Proof.
  assert (Hinv : forall success t',
             Transition_Record t b = Returned (false, success, t') ->
             success = false /\ t' = t /\
             (decodeTxn b = None \/
              exists txn, decodeTxn b = Some txn /\ accountView (state t) !! Owner txn = None)).
  { intros success t'. unfold Transition_Record, validateSigAndNonce, validateNonce.
    destruct (decodeTxn b) as [txn|] eqn:Hd.
    2:{ cbn. intros [= <- <-]. destruct t. split; [done|]. split; [done|]. by left. }
    pose proof (State_Account_spec (state t) (Owner txn)) as Hs.
    destruct (State_Account (state t) (Owner txn)) as [s1 [acc|]] eqn:Hacc; cbn.
    - intros H.
      repeat match type of H with
             | context [match ?x with _ => _ end] => destruct x
             | context [if ?x then _ else _] => destruct x
             end; discriminate.
    - destruct Hs as [Hr _]. intros [= <- <-].
      rewrite (State_Account_absent (state t) (Owner txn)) in Hacc by done.
      inversion Hacc; subst s1. destruct t. split; [done|]. split; [done|]. right. eauto. }
  split; [split|split; [|split]].
  - intros [Hd|(txn & Hd & Hown)]; exists false, t;
      unfold Transition_Record, validateSigAndNonce, validateNonce; rewrite Hd.
    + by destruct t.
    + rewrite (State_Account_absent _ _ Hown). by destruct t.
  - intros (success & t' & H). by apply Hinv in H as (_ & _ & H).
  - intros success t' H. apply Hinv in H. tauto.
  - intros valid t' H. apply Record_success in H as (Hv & Ht & _). done.
  - intros valid t' H. by apply Record_failure_state in H as [H _].
Qed.

(** X7. [Record] panics exactly on a decodable transaction of an
    existing owner whose kind is neither [PlaceOrder] nor [SendToken]
    ([CancelOrder], [IssueToken], [FreezeToken], [BurnToken] and unknown
    kinds). *)
Theorem Record_panics_iff (t : Transition) (b : bytes) :
  (exists msg, Transition_Record t b = Panicked msg) <->
  (exists txn, decodeTxn b = Some txn /\
               is_Some (accountView (state t) !! Owner txn) /\
               T txn <> PlaceOrder /\ T txn <> SendToken).
Proof.
  unfold Transition_Record, validateSigAndNonce, validateNonce.
  destruct (decodeTxn b) as [txn|] eqn:Hd.
  2:{ cbn. split; [intros [? ?]; discriminate|]. intros (txn & ? & _). discriminate. }
  pose proof (State_Account_spec (state t) (Owner txn)) as Hs.
  destruct (State_Account (state t) (Owner txn)) as [s1 [acc|]] eqn:Hacc;
    destruct Hs as [Hr _]; cbn.
  2:{ split; [intros [? ?]; discriminate|].
      intros (txn' & [= <-] & [x Hx] & _). congruence. }
  destruct (Z.eqb_spec (T txn) PlaceOrder) as [HP|HP].
  { split.
    - intros [msg H]. destruct (gobDecodePlaceOrder (Data txn)); [|discriminate].
      destruct (placeOrder s1 acc p) as [[] ?]; discriminate.
    - intros (txn' & [= <-] & _ & H & _). done. }
  destruct (Z.eqb_spec (T txn) CancelOrder) as [HC|HC].
  { split; [|eauto]. intros _. exists txn. split; [done|].
    split; [rewrite <- Hr; eauto|]. split; [done|]. rewrite HC. discriminate. }
  destruct (Z.eqb_spec (T txn) CreateToken) as [HI|HI].
  { split; [|eauto]. intros _. exists txn. split; [done|].
    split; [rewrite <- Hr; eauto|]. split; [done|]. rewrite HI. discriminate. }
  destruct (Z.eqb_spec (T txn) SendToken) as [HS|HS].
  { split.
    - intros [msg H]. destruct (gobDecodeSendToken (Data txn)); [|discriminate].
      destruct (sendToken s1 acc s) as [[] ?]; discriminate.
    - intros (txn' & [= <-] & _ & _ & H). done. }
  split; [|eauto]. intros _. exists txn. split; [done|].
  split; [rewrite <- Hr; eauto|]. done.
Qed.

End Record.


Section Orders.
Context {codec : Codec}.

(** X8. [placeOrder] succeeds exactly when both tokens of the market
    are registered, the owner has a balance of the token that is sold
    and that balance's [Available] is strictly greater than the
    quantity: an order for the whole available balance is rejected.  A
    rejected order leaves the state as it is; an accepted one debits
    [Available] by exactly the quantity, without wrapping. *)
Theorem placeOrder_succeeds_iff (s : State) (owner : Account) (txn : PlaceOrderTxn) :
  let q := fst (sellQuantAndToken txn) in
  let sell := snd (sellQuantAndToken txn) in
  (fst (placeOrder s owner txn) = true <->
   is_Some (tokens s !! Base (Market txn)) /\
   is_Some (tokens s !! Quote (Market txn)) /\
   exists sb, Balances owner !! sell = Some sb /\ q < Available sb) /\
  (fst (placeOrder s owner txn) = false -> snd (placeOrder s owner txn) = s) /\
  (forall sb,
      fst (placeOrder s owner txn) = true ->
      Balances owner !! sell = Some sb ->
      is_uint64 (Available sb) -> is_uint64 (Quant txn) ->
      balanceOf (snd (placeOrder s owner txn)) (pkAddr (PK owner)) sell
      = Some {| Available := Available sb - q; Pending := wrap64 (Pending sb + q) |} /\
      0 <= Available sb - q).
Proof.
  intros q sell. split; [|split].
  - split.
    + intros H. destruct (placeOrder s owner txn) as [ok s'] eqn:Hp. cbn in H. subst ok.
      apply placeOrder_true in Hp as (sb & ? & ? & ? & ? & _). eauto 10.
    + intros ([tb Htb] & [tq Htq] & sb & Hsb & Hlt).
      unfold placeOrder, tokenCache_Info. rewrite Htb, Htq. cbn.
      subst q sell. destruct (sellQuantAndToken txn) as [q sell]. cbn in *.
      rewrite Hsb. destruct (Z.leb_spec (Available sb) q); [lia|done].
  - intros H. destruct (placeOrder s owner txn) as [ok s'] eqn:Hp. cbn in *. subst ok.
    by apply placeOrder_false in Hp.
  - intros sb H Hsb HA HQ.
    destruct (placeOrder s owner txn) as [ok s'] eqn:Hp. cbn in H. subst ok.
    apply placeOrder_true in Hp as (sb' & _ & _ & Hsb' & Hlt & ->).
    fold sell in Hsb'. fold q in Hlt. rewrite Hsb in Hsb'. inversion Hsb'; subst sb'.
    assert (Hq0 : 0 <= q).
    { subst q. unfold sellQuantAndToken. destruct (SellSide txn); cbn; [apply HQ|].
      apply uint64_of_float64_uint64. }
    cbn [snd]. unfold balanceOf.
    rewrite accountView_UpdatePendingOrder, accountView_UpdateAccount. cbn [setBalance PK].
    rewrite lookup_insert_eq. cbn. fold sell q. rewrite lookup_insert_eq.
    split; [|lia]. f_equal. f_equal. apply wrap64_small. unfold is_uint64 in *. lia.
Qed.

(** X9. [sendToken] succeeds exactly when the quantity is not zero, the
    owner has a balance of the token with [Available] at least the
    quantity (the whole balance can be sent), and the recipient has no
    account leaf in the trie: a transfer to a recipient whose account
    is stored in the trie always fails.  A failed transfer leaves the
    state as it is; a successful one debits the owner by exactly the
    quantity. *)
Theorem sendToken_succeeds_iff (s : State) (owner : Account) (txn : SendTokenTxn) :
  (fst (sendToken s owner txn) = true <->
   send_Quant txn <> 0 /\
   (exists b, Balances owner !! send_TokenID txn = Some b /\ send_Quant txn <= Available b) /\
   accounts s !! pkAddr (To txn) = None) /\
  (is_Some (accounts s !! pkAddr (To txn)) -> sendToken s owner txn = (false, s)) /\
  (fst (sendToken s owner txn) = false -> snd (sendToken s owner txn) = s) /\
  (forall b,
      fst (sendToken s owner txn) = true ->
      Balances owner !! send_TokenID txn = Some b ->
      is_uint64 (Available b) -> is_uint64 (send_Quant txn) ->
      balanceOf (snd (sendToken s owner txn)) (pkAddr (PK owner)) (send_TokenID txn)
      = Some {| Available := Available b - send_Quant txn; Pending := Pending b |} /\
      0 <= Available b - send_Quant txn).
Proof.
  assert (Hiff : fst (sendToken s owner txn) = true <->
                 send_Quant txn <> 0 /\
                 (exists b, Balances owner !! send_TokenID txn = Some b /\
                            send_Quant txn <= Available b) /\
                 accounts s !! pkAddr (To txn) = None).
  { split.
    - intros H. destruct (sendToken s owner txn) as [ok s'] eqn:Hp. cbn in H. subst ok.
      apply sendToken_true in Hp as (b & ? & ? & ? & ? & _). eauto 10.
    - intros (Hq & (b & Hb & Hle) & Hto). unfold sendToken.
      destruct (Z.eqb_spec (send_Quant txn) 0); [done|]. rewrite Hb.
      destruct (Z.ltb_spec (Available b) (send_Quant txn)); [lia|].
      rewrite Hto. done. }
  assert (Hfalse : fst (sendToken s owner txn) = false -> snd (sendToken s owner txn) = s).
  { intros H. destruct (sendToken s owner txn) as [ok s'] eqn:Hp. cbn in *. subst ok.
    by apply sendToken_false in Hp. }
  split; [exact Hiff|]. split; [|split; [exact Hfalse|]].
  - intros [leaf Hleaf].
    destruct (sendToken s owner txn) as [[] s'] eqn:Hp; cbn [fst snd] in *.
    + destruct (proj1 Hiff eq_refl) as (_ & _ & Hnone). congruence.
    + by rewrite (Hfalse eq_refl).
  - intros b H Hb HA HQ.
    destruct (sendToken s owner txn) as [ok s'] eqn:Hp. cbn in H. subst ok.
    apply sendToken_true in Hp as (b' & Hb' & Hq0 & Hle & _ & ->).
    rewrite Hb in Hb'. inversion Hb'; subst b'.
    cbn [snd]. unfold balanceOf. rewrite accountView_UpdateAccount. cbn [setBalance PK].
    rewrite lookup_insert_eq. cbn. rewrite lookup_insert_eq.
    split; [|lia]. f_equal. f_equal. apply wrap64_small. unfold is_uint64 in *. lia.
Qed.

(** X10. What an order or a transfer leaves alone.  A successful
    [placeOrder] changes no account but the owner's and, of the owner's
    balances, only that of the token sold; a successful [sendToken]
    changes no account but the owner's and the recipient's and, of the
    owner's balances, only that of the token sent.  Neither touches the
    token registry, the account leaves of the trie or the expiration
    index, and a transfer leaves the pending orders alone. *)
Theorem order_and_transfer_frame (s s' : State) (owner : Account) :
  (forall txn,
      placeOrder s owner txn = (true, s') ->
      (forall addr, addr <> pkAddr (PK owner) ->
                    accountView s' !! addr = accountView s !! addr) /\
      (forall id, id <> snd (sellQuantAndToken txn) ->
                  balanceOf s' (pkAddr (PK owner)) id = Balances owner !! id) /\
      tokens s' = tokens s /\ accounts s' = accounts s /\
      orderExpirations s' = orderExpirations s) /\
  (forall txn,
      sendToken s owner txn = (true, s') ->
      (forall addr, addr <> pkAddr (PK owner) -> addr <> pkAddr (To txn) ->
                    accountView s' !! addr = accountView s !! addr) /\
      (forall id, id <> send_TokenID txn ->
                  balanceOf s' (pkAddr (PK owner)) id = Balances owner !! id) /\
      tokens s' = tokens s /\ accounts s' = accounts s /\
      orderExpirations s' = orderExpirations s /\ pendingOrders s' = pendingOrders s).
Proof.
  split.
  - intros txn Hp. apply placeOrder_true in Hp as (sb & _ & _ & _ & _ & ->).
    split; [|split; [|done]].
    + intros addr Hne.
      rewrite accountView_UpdatePendingOrder, accountView_UpdateAccount. cbn [setBalance PK].
      by rewrite lookup_insert_ne.
    + intros id Hne. unfold balanceOf.
      rewrite accountView_UpdatePendingOrder, accountView_UpdateAccount. cbn [setBalance PK].
      rewrite lookup_insert_eq. cbn. by rewrite lookup_insert_ne.
  - intros txn Hs. apply sendToken_true in Hs as (b & _ & _ & _ & _ & ->).
    split; [|split; [|done]].
    + intros addr Hne1 Hne2. rewrite !accountView_UpdateAccount. cbn [setBalance PK freshRecipient].
      by rewrite !lookup_insert_ne.
    + intros id Hne. unfold balanceOf. rewrite accountView_UpdateAccount. cbn [setBalance PK].
      rewrite lookup_insert_eq. cbn. by rewrite lookup_insert_ne.
Qed.

End Orders.

Lemma Record_flags_witness :
  decodeTxn (Codec := exampleCodec) [9] = None /\
  (exists success t',
      Transition_Record (codec := exampleCodec) transitionA [9]
      = Returned (false, success, t')) /\
  Transition_Record (codec := exampleCodec) transitionA [5]
  = Returned (true, true, transitionA5) /\
  Txns transitionA5 = Txns transitionA ++ [[5]].
Proof.
  assert (Hd : decodeTxn (Codec := exampleCodec) [9] = None) by reflexivity.
  assert (H5 : Transition_Record (codec := exampleCodec) transitionA [5]
               = Returned (true, true, transitionA5)) by (vm_compute; reflexivity).
  split; [exact Hd|].
  split; [exact (proj1 (proj1 (Record_flags (codec := exampleCodec) transitionA [9]))
                   (or_introl Hd))|].
  split; [exact H5|].
  exact (proj2 (proj1 (proj2 (proj2 (Record_flags (codec := exampleCodec) transitionA [5])))
                  true transitionA5 H5)).
Defined.

Lemma Record_panics_iff_witness :
  exists msg, Transition_Record (codec := exampleCodec) transitionA [7] = Panicked msg.
Proof.
  apply (proj2 (Record_panics_iff (codec := exampleCodec) transitionA [7])).
  exists {| T := CancelOrder; Data := []; NonceIdx := 0; NonceValue := 0;
            Owner := example_pkAddr P1; TxnSig := [] |}.
  split; [reflexivity|]. split; [vm_compute; eauto|].
  split; vm_compute; discriminate.
Defined.

Lemma placeOrder_succeeds_iff_witness :
  fst (placeOrder (codec := exampleCodec) (state transitionA) accountP1 orderB) = true /\
  fst (placeOrder (codec := exampleCodec) (state transitionA) accountP1 orderAll) = false /\
  balanceOf (snd (placeOrder (codec := exampleCodec) (state transitionA) accountP1 orderB))
    (example_pkAddr P1) ACME_ID
  = Some {| Available := 500000 - 1000; Pending := wrap64 (0 + 1000) |}.
Proof.
  pose proof (placeOrder_succeeds_iff (codec := exampleCodec) (state transitionA)
                accountP1 orderB) as (Hiff & _ & Hdebit).
  pose proof (placeOrder_succeeds_iff (codec := exampleCodec) (state transitionA)
                accountP1 orderAll) as (Hall & _ & _).
  assert (Hok : fst (placeOrder (codec := exampleCodec) (state transitionA) accountP1 orderB)
                = true).
  { apply Hiff. split; [vm_compute; eauto|]. split; [vm_compute; eauto|].
    exists {| Available := 500000; Pending := 0 |}. split; [vm_compute; reflexivity|].
    cbn. lia. }
  split; [exact Hok|]. split.
  - apply not_true_is_false. intros H. apply Hall in H as (_ & _ & sb & Hsb & Hlt).
    vm_compute in Hsb. inversion Hsb; subst sb. cbn in Hlt. lia.
  - apply (Hdebit {| Available := 500000; Pending := 0 |} Hok).
    + vm_compute. reflexivity.
    + unfold is_uint64. cbn. lia.
    + unfold is_uint64. cbn. lia.
Defined.

Lemma sendToken_succeeds_iff_witness :
  fst (sendToken (codec := exampleCodec) (state transitionA) accountP1 sendP3) = true /\
  is_Some (accounts (state transitionA) !! example_pkAddr (To sendA)) /\
  sendToken (codec := exampleCodec) (state transitionA) accountP1 sendA
  = (false, state transitionA).
Proof.
  pose proof (sendToken_succeeds_iff (codec := exampleCodec) (state transitionA)
                accountP1 sendP3) as (Hiff & _).
  pose proof (sendToken_succeeds_iff (codec := exampleCodec) (state transitionA)
                accountP1 sendA) as (_ & Hleaf & _).
  assert (Hs : is_Some (accounts (state transitionA) !! example_pkAddr (To sendA)))
    by (vm_compute; eauto).
  split; [|split; [exact Hs|exact (Hleaf Hs)]].
  apply Hiff. split; [cbn; lia|]. split; [|vm_compute; reflexivity].
  exists {| Available := 500000; Pending := 0 |}. split; [vm_compute; reflexivity|].
  cbn. lia.
Defined.

Lemma order_and_transfer_frame_witness :
  exists s',
    sendToken (codec := exampleCodec) (state transitionA) accountP1 sendP3 = (true, s') /\
    accountView s' !! example_pkAddr P2 = accountView (state transitionA) !! example_pkAddr P2 /\
    balanceOf s' (example_pkAddr P1) BNB_ID = Balances accountP1 !! BNB_ID.
Proof.
  eexists. split; [vm_compute; reflexivity|].
  match goal with
  | |- accountView ?s' !! _ = _ /\ _ =>
      assert (Hs : sendToken (codec := exampleCodec) (state transitionA) accountP1 sendP3
                   = (true, s')) by (vm_compute; reflexivity);
      destruct (proj2 (order_and_transfer_frame (codec := exampleCodec) (state transitionA)
                         s' accountP1) sendP3 Hs) as (Hother & Hbal & _)
  end.
  split.
  - apply Hother; vm_compute; discriminate.
  - apply (Hbal BNB_ID). vm_compute. discriminate.
Defined.

Section Registry.
Context {codec : Codec}.

Lemma foldl_UpdateToken_tokens (toks : list Token) (s : State) id :
  tokens (foldl UpdateToken s toks) !! id =
  match last (List.filter (fun t => ID t =? id) toks) with
  | Some t => Some t
  | None => tokens s !! id
  end.
Proof.
  revert s. induction toks as [|t toks IH]; intros s; [done|].
  cbn [foldl List.filter]. rewrite IH. cbn [UpdateToken tokens].
  destruct (Z.eqb_spec (ID t) id) as [<-|Hne].
  - destruct (List.filter (fun t0 => ID t0 =? ID t) toks) as [|t1 l] eqn:Hf.
    + cbn. apply lookup_insert_eq.
    + change (last (t :: t1 :: l)) with (last (t1 :: l)).
      destruct (last (t1 :: l)) as [x|] eqn:Hl; [done|].
      apply last_None in Hl. discriminate.
  - destruct (last _); [done|]. by rewrite lookup_insert_ne.
Qed.

Lemma foldl_UpdateAccount_tokens (f : consensus_PK -> Account) rs s :
  tokens (foldl (fun s pk => UpdateAccount s (f pk)) s rs) = tokens s /\
  accounts (foldl (fun s pk => UpdateAccount s (f pk)) s rs) = accounts s.
Proof.
  revert s. induction rs as [|pk rs IH]; intros s; [done|]. cbn [foldl].
  destruct (IH (UpdateAccount s (f pk))) as [-> ->]. done.
Qed.

Lemma filter_ID_genesisTokens additionalTokens id :
  Z.of_nat (length additionalTokens) < 2 ^ 64 - 1 ->
  List.filter (fun t => ID t =? id) (genesisTokens additionalTokens) =
  if id =? 0 then [{| ID := 0; Info := BNBInfo |}]
  else match additionalTokens !! Z.to_nat (id - 1) with
       | Some t => if 0 <? id then [{| ID := id; Info := t |}] else []
       | None => []
       end.
Proof.
  intros Hlen. unfold genesisTokens. cbn [List.filter ID].
  assert (Hgen : forall (k : nat) l,
             Z.of_nat (k + length l) < 2 ^ 64 - 1 ->
             List.filter (fun t => ID t =? id)
               (imap (fun i t => {| ID := wrap64 (Z.of_nat (k + i) + 1); Info := t |}) l) =
             match l !! (Z.to_nat (id - 1) - k)%nat with
             | Some t => if (Z.of_nat k <? id) then [{| ID := id; Info := t |}] else []
             | None => []
             end).
  { intros k l. revert k. induction l as [|t l IH]; intros k Hk; [done|].
    cbn [imap List.filter ID length] in *.
    rewrite Nat.add_0_r.
    rewrite wrap64_small by (unfold is_uint64; lia).
    assert (Hrest : imap ((fun i t0 => {| ID := wrap64 (Z.of_nat (k + i) + 1); Info := t0 |}) ∘ S) l
                    = imap (fun i t0 => {| ID := wrap64 (Z.of_nat (S k + i) + 1); Info := t0 |}) l).
    { apply imap_ext. intros i x _. cbn. do 3 f_equal. lia. }
    rewrite Hrest, (IH (S k)) by lia.
    destruct (Z.eqb_spec (Z.of_nat k + 1) id) as [<-|Hne].
    - replace (Z.to_nat (Z.of_nat k + 1 - 1) - k)%nat with 0%nat by lia.
      replace (Z.to_nat (Z.of_nat k + 1 - 1) - S k)%nat with 0%nat by lia.
      cbn [lookup list_lookup].
      destruct (Z.ltb_spec (Z.of_nat k) (Z.of_nat k + 1)); [|lia].
      destruct (Z.ltb_spec (Z.of_nat (S k)) (Z.of_nat k + 1)); [lia|].
      by destruct (l !! 0%nat).
    - destruct (Z.ltb_spec (Z.of_nat k) id) as [Hlt|Hge].
      + replace (Z.to_nat (id - 1) - k)%nat with (S (Z.to_nat (id - 1) - S k)) by lia.
        cbn [lookup list_lookup].
        destruct (Z.ltb_spec (Z.of_nat (S k)) id); [done|lia].
      + destruct (Z.ltb_spec (Z.of_nat (S k)) id); [lia|].
        destruct (l !! (Z.to_nat (id - 1) - S k)%nat);
          destruct ((t :: l) !! (Z.to_nat (id - 1) - k)%nat); reflexivity. }
  specialize (Hgen 0%nat additionalTokens Hlen).
  rewrite Nat.sub_0_r in Hgen. cbn [Nat.add] in Hgen. change (Z.of_nat 0) with 0 in Hgen.
  rewrite Hgen.
  destruct (Z.eqb_spec 0 id) as [<-|Hne].
  - rewrite Z.eqb_refl. change (0 <? 0) with false.
    by destruct (additionalTokens !! _).
  - destruct (Z.eqb_spec id 0); [lia|]. done.
Qed.

(** X11. [CreateGenesisState] registers BNB as token 0 and the i-th
    additional token as token [i + 1], and no other token; it writes no
    account leaf (the recipients' accounts are in the cache only), no
    expiration and no pending order. *)
Theorem genesis_registry (recipients : list consensus_PK) (additionalTokens : list TokenInfo) :
  Z.of_nat (length additionalTokens) < 2 ^ 64 - 1 ->
  let s := CreateGenesisState recipients additionalTokens in
  tokens s !! 0 = Some {| ID := 0; Info := BNBInfo |} /\
  (forall i t, additionalTokens !! i = Some t ->
               tokens s !! (Z.of_nat i + 1) = Some {| ID := Z.of_nat i + 1; Info := t |}) /\
  (forall id, tokens s !! id = None <->
              id < 0 \/ Z.of_nat (length additionalTokens) < id) /\
  accounts s = ∅ /\ orderExpirations s = ∅ /\ pendingOrders s = ∅.
Proof.
  intros Hlen s.
  assert (Htok : forall id,
             tokens s !! id =
             last (List.filter (fun t => ID t =? id) (genesisTokens additionalTokens))).
  { intros id. unfold s, CreateGenesisState.
    rewrite (proj1 (foldl_UpdateAccount_tokens _ _ _)), foldl_UpdateToken_tokens.
    cbn [NewState tokens]. rewrite lookup_empty. by destruct (last _). }
  split; [|split; [|split]].
  - rewrite Htok, filter_ID_genesisTokens by done. reflexivity.
  - intros i t Hi. rewrite Htok, filter_ID_genesisTokens by done.
    destruct (Z.eqb_spec (Z.of_nat i + 1) 0); [lia|].
    replace (Z.to_nat (Z.of_nat i + 1 - 1)) with i by lia. rewrite Hi.
    destruct (Z.ltb_spec 0 (Z.of_nat i + 1)); [done|lia].
  - intros id. rewrite Htok, filter_ID_genesisTokens by done.
    destruct (Z.eqb_spec id 0) as [->|Hne]; [cbn; split; [done|lia]|].
    destruct (additionalTokens !! Z.to_nat (id - 1)) as [t|] eqn:Ht.
    + apply lookup_lt_Some in Ht.
      destruct (Z.ltb_spec 0 id); cbn; split; try done; lia.
    + apply lookup_ge_None in Ht. split; [|done]. intros _. lia.
  - unfold s, CreateGenesisState.
    rewrite (proj2 (foldl_UpdateAccount_tokens _ _ _)).
    assert (H : forall toks s0,
               accounts (foldl UpdateToken s0 toks) = accounts s0 /\
               orderExpirations (foldl UpdateToken s0 toks) = orderExpirations s0 /\
               pendingOrders (foldl UpdateToken s0 toks) = pendingOrders s0).
    { induction toks as [|t toks IH]; intros s0; [done|]. cbn [foldl].
      destruct (IH (UpdateToken s0 t)) as (-> & -> & ->). done. }
    destruct (H (genesisTokens additionalTokens) NewState) as (Ha & He & Hp).
    split; [by rewrite Ha|].
    assert (H2 : forall (f : consensus_PK -> Account) rs s0,
               orderExpirations (foldl (fun s pk => UpdateAccount s (f pk)) s0 rs)
               = orderExpirations s0 /\
               pendingOrders (foldl (fun s pk => UpdateAccount s (f pk)) s0 rs)
               = pendingOrders s0).
    { intros f rs. induction rs as [|pk rs IH]; intros s0; [done|]. cbn [foldl].
      destruct (IH (UpdateAccount s0 (f pk))) as (-> & ->). done. }
    destruct (H2 (fun pk => {| PK := pk; NonceVec := [];
                               Balances := genesisBalances (length recipients)
                                             (genesisTokens additionalTokens);
                               OrderMarkets := [] |}) recipients
                 (foldl UpdateToken NewState (genesisTokens additionalTokens))) as (-> & ->).
    by rewrite He, Hp.
Qed.

End Registry.

Lemma genesis_registry_witness :
  tokens genesisA !! BNB_ID = Some {| ID := BNB_ID; Info := BNBInfo |} /\
  tokens genesisA !! ACME_ID = Some {| ID := ACME_ID; Info := ACME |} /\
  tokens genesisA !! 2 = None.
Proof.
  assert (Hlen : Z.of_nat (length [ACME]) < 2 ^ 64 - 1) by (cbn; lia).
  destruct (genesis_registry (codec := exampleCodec) [P1; P2] [ACME] Hlen)
    as (H0 & H1 & H2 & _).
  split; [exact H0|]. split; [exact (H1 0%nat ACME eq_refl)|].
  apply H2. right. cbn. lia.
Defined.

End DexTheory.

Module ConsensusTheory.
Import Consensus.

Section Chain.
Context {env : Env}.

(** ** The pointer [findPrevBlock] returns *)



(** A found node carries the hash that was looked for. *)
Lemma findPrevBlock_node_Block prevBlock :
  forall n i r j, findPrevBlock_node prevBlock n i = Some (r, j) -> bn_Block r = prevBlock.
Proof.
  fix IH 1. intros [blk bp w cs bps] i r j. cbn.
  destruct (Z.eqb_spec blk prevBlock) as [->|_]; [by intros [= <- <-]|].
  generalize 0%nat.
  induction cs as [|c cs IHcs]; intros k; cbn; [done|].
  destruct (findPrevBlock_node prevBlock c k) as [[r' j']|] eqn:Hc.
  - intros [= <- <-]. by apply (IH c k r' j').
  - apply IHcs.
Qed.

(** ** Adding twice *)

Lemma finalize_hashToBlock c r c' :
  finalize c r = Returned c' -> hashToBlock c' = hashToBlock c.
Proof.
  unfold finalize. intros H.
  repeat match type of H with
         | context [if ?x then _ else _] => destruct x
         | context [match fork ?c with _ => _ end] => destruct (fork c)
         end; try discriminate; by inversion H.
Qed.

Lemma addBP_stores c bp w added c1 fx :
  addBP c bp w = Returned (added, None, c1, fx) ->
  is_Some (hashToBP c1 !! BlockProposal_Hash bp).
Proof.
  unfold addBP. intros H.
  destruct (hashToBP c !! BlockProposal_Hash bp) eqn:Hh.
  { inversion H; subst. by rewrite Hh. }
  repeat match type of H with
         | context [match ?x with _ => _ end] => destruct x
         end; try discriminate; inversion H; subst; cbn; by rewrite lookup_insert_eq.
Qed.

Lemma addBP_error c bp w added err c1 fx :
  addBP c bp w = Returned (added, Some err, c1, fx) ->
  added = false /\ c1 = c /\ fx = [].
Proof.
  unfold addBP. intros H.
  repeat match type of H with
         | context [match ?x with _ => _ end] => destruct x
         end; try discriminate; by inversion H.
Qed.

Lemma addBlock_stores c b bp s w added err c1 fx :
  addBlock c b bp s w = Returned (added, err, c1, fx) ->
  is_Some (hashToBlock c1 !! Block_Hash b).
Proof.
  unfold addBlock. intros H.
  destruct (hashToBlock c !! Block_Hash b) eqn:Hh.
  { inversion H; subst. by rewrite Hh. }
  destruct (last (finalized _)) as [tip|]; [|discriminate].
  match type of H with
  | context [if ?x then _ else _] => destruct x; [discriminate|]
  end.
  match type of H with
  | (match ?att with _ => _ end) = _ => destruct att as [c2|] eqn:Hatt; [|discriminate]
  end.
  assert (Hc2 : hashToBlock c2 = hashToBlock c).
  { repeat match type of Hatt with
           | context [match ?x with _ => _ end] => destruct x
           end; try discriminate; by inversion Hatt. }
  match type of H with
  | (match ?fin with _ => _ end) = _ => destruct fin as [c3|] eqn:Hfin; [|discriminate]
  end.
  assert (Hc3 : hashToBlock c3 !! Block_Hash b = Some b).
  { destruct (3 <? _).
    - apply finalize_hashToBlock in Hfin. rewrite Hfin. cbn. apply lookup_insert_eq.
    - inversion Hfin; subst. cbn. apply lookup_insert_eq. }
  repeat match type of H with
         | context [match ?x with _ => _ end] => destruct x
         end; try discriminate; inversion H; subst; by rewrite Hc3.
Qed.

(** C5. [AddBP] and [AddBlock] are idempotent: whenever a call returns,
    the same call again leaves the chain exactly as the first call left
    it, fires nothing, and reports [added = false]; a proposal or block
    that is stored is reported with a [nil] error ("already exists"),
    and [AddBP] repeats its error only for a proposal that was rejected
    and never stored. *)
Theorem add_idempotent :
  (forall c bp w added err c1 fx,
      addBP c bp w = Returned (added, err, c1, fx) ->
      addBP c1 bp w = Returned (false, err, c1, []) /\
      (is_Some (hashToBP c1 !! BlockProposal_Hash bp) -> err = None)) /\
  (forall c b bp s w added err c1 fx,
      addBlock c b bp s w = Returned (added, err, c1, fx) ->
      addBlock c1 b bp s w = Returned (false, None, c1, [])).
Proof.
  split.
  - intros c bp w added err c1 fx H. destruct err as [e|].
    + destruct (addBP_error _ _ _ _ _ _ _ H) as (-> & -> & ->).
      split; [done|]. intros [x Hx]. unfold addBP in H. by rewrite Hx in H.
    + split; [|done]. destruct (addBP_stores _ _ _ _ _ _ H) as [x Hx].
      unfold addBP. by rewrite Hx.
  - intros c b bp s w added err c1 fx H.
    destruct (addBlock_stores _ _ _ _ _ _ _ _ _ H) as [x Hx].
    unfold addBlock. by rewrite Hx.
Qed.

(** ** Notarization shares *)

Lemma blockToState_set_bpToNtShares v c h :
  blockToState (set_bpToNtShares v c) h = blockToState c h.
Proof. reflexivity. Qed.

Lemma remove_dups_NoDup (l : list Z) : NoDup l -> remove_dups l = l.
Proof.
  induction 1 as [|x l Hx _ IH]; [done|].
  cbn. destruct (decide_rel elem_of x l) as [Hin|_]; [done|]. by rewrite IH.
Qed.

(** The state [blockToState] returns, by the fields it reads. *)
Lemma blockToState_Some c h st :
  blockToState c h = Returned (Some st) <->
  exists tip,
    last (finalized c) = Some tip /\
    (h = tip /\ lastFinalizedState c = Some st \/
     h <> tip /\ unFinalizedState c !! h = Some (Some st)).
Proof.
  unfold blockToState. split.
  - destruct (last (finalized c)) as [tip|]; [|discriminate].
    intros H. exists tip. split; [done|].
    destruct (Z.eqb_spec h tip) as [->|Hne].
    + left. split; [done|]. by inversion H.
    + right. split; [done|]. inversion H as [H1].
      destruct (unFinalizedState c !! h) as [o|]; cbn in *; by subst.
  - intros (tip & -> & [[-> Hs]|[Hne Hs]]).
    + by rewrite Z.eqb_refl, Hs.
    + destruct (Z.eqb_spec h tip) as [|_]; [done|]. by rewrite Hs.
Qed.

(** A batch that [recordAll] applies without an error has been applied
    transaction by transaction. *)
Lemma recordAll_foldl tr txns tr' :
  recordAll tr txns = (tr', None) ->
  tr' = foldl (fun t x => snd (Transition_Record t x)) tr txns.
Proof.
  revert tr. induction txns as [|x txns IH]; intros tr; cbn.
  - by intros [= ->].
  - destruct (Transition_Record tr x) as [[valid success] tr1]. cbn.
    destruct (negb valid || negb success); [discriminate|]. apply IH.
Qed.

Lemma getTransition_foldl st data round trans :
  getTransition (Some st) data round = Returned (trans, None) ->
  exists txns,
    (if Nat.eqb (length data) 0 then txns = [] else rlpDecodeTxns data = Some txns) /\
    trans = foldl (fun t x => snd (Transition_Record t x)) (State_Transition st round) txns.
Proof.
  unfold getTransition. destruct (Nat.eqb (length data) 0).
  - intros [= <-]. by exists [].
  - destruct (rlpDecodeTxns data) as [txns|]; [|discriminate].
    intros [= H]. exists txns. split; [done|]. by apply recordAll_foldl.
Qed.

(** Every share of the list is deleted from the map. *)
Lemma foldl_delete_shares (l : list NtShare) (m : gmap Z NtShare) s :
  s ∈ l ->
  foldl (fun m share => delete (NtShare_Hash share) m) m l !! NtShare_Hash s = None.
Proof.
  revert m. induction l as [|x l IH]; intros m Hs; [by apply elem_of_nil in Hs|].
  cbn [foldl]. apply elem_of_cons in Hs as [->|Hs]; [|by apply IH].
  clear IH. generalize (lookup_delete_eq m (NtShare_Hash x)).
  generalize (delete (NtShare_Hash x) m).
  induction l as [|y l IH]; intros m1 Hm1; [done|].
  cbn [foldl]. apply IH.
  destruct (decide (NtShare_Hash y = NtShare_Hash x)) as [->|Hne].
  - apply lookup_delete_eq.
  - by rewrite lookup_delete_ne.
Qed.

(** C3. [addNtShare] and the group threshold.  (1) No block is
    returned while the shares stored for the proposal, the new one
    included, are fewer than [GroupThreshold]; a share of an owner that
    already has a share stored is refused, whatever the count: no
    block, nothing added, the chain as it was; so, the stored shares
    having distinct owners, no block is returned while the distinct
    owners, the new one included, are fewer than [GroupThreshold]; and
    stored shares keep distinct owners.  (2) A returned block is built
    from a known proposal awaiting notarization, by a share of a new
    owner that reaches the threshold: its [StateRoot] is the [StateHash]
    of the transition opened on the state the chain holds for the
    proposal's parent block (the last finalized state when the parent
    is the finalized tip, else the state stored under the parent's
    hash) with the proposal's batch recorded transaction by
    transaction; its [NotarizationSig] is recovered from the stored
    shares and the new one and verifies against the selected group's
    public key; and the shares stored for the proposal are cleared.
    (3) When the share that reaches the threshold arrives for a
    proposal awaiting notarization, and the shares recover a signature
    that verifies for the block over the re-applied batch, the block is
    returned (the source panics otherwise). *)
Theorem addNtShare_threshold (c : Chain) (n : NtShare) (groupID : Z) :
  (forall b added success c',
      addNtShare c n groupID = Returned (b, added, success, c') ->
      (Z.of_nat (length (sharesOf c (nt_BP n))) + 1 < cfg_GroupThreshold c -> b = None) /\
      ((exists s, s ∈ sharesOf c (nt_BP n) /\ nt_Owner s = nt_Owner n) ->
       b = None /\ added = false /\ c' = c) /\
      (NoDup (nt_Owner <$> sharesOf c (nt_BP n)) ->
       Z.of_nat (length (remove_dups (nt_Owner <$> sharesOf c (nt_BP n) ++ [n])))
       < cfg_GroupThreshold c ->
       b = None) /\
      (forall h, NoDup (nt_Owner <$> sharesOf c h) -> NoDup (nt_Owner <$> sharesOf c' h))) /\
  (forall b added success c',
      addNtShare c n groupID = Returned (Some b, added, success, c') ->
      exists bp tip pstate txns groupPK,
        let trans := foldl (fun t x => snd (Transition_Record t x))
                           (State_Transition pstate (bp_Round bp)) txns in
        hashToBP c !! nt_BP n = Some bp /\
        bpNeedNotarize c !! nt_BP n = Some true /\
        (forall s, s ∈ sharesOf c (nt_BP n) -> nt_Owner s <> nt_Owner n) /\
        cfg_GroupThreshold c <= Z.of_nat (length (sharesOf c (nt_BP n))) + 1 /\
        last (finalized c) = Some tip /\
        (bp_PrevBlock bp = tip /\ lastFinalizedState c = Some pstate \/
         bp_PrevBlock bp <> tip /\
         unFinalizedState c !! bp_PrevBlock bp = Some (Some pstate)) /\
        (if Nat.eqb (length (bp_Data bp)) 0 then txns = []
         else rlpDecodeTxns (bp_Data bp) = Some txns) /\
        getTransition (Some pstate) (bp_Data bp) (bp_Round bp) = Returned (trans, None) /\
        b_StateRoot b = Transition_StateHash trans /\
        0 <= groupID /\ groups c !! Z.to_nat groupID = Some groupPK /\
        recoverNtSig (sharesOf c (nt_BP n) ++ [n]) = Some (b_NotarizationSig b) /\
        b = set_NotarizationSig (b_NotarizationSig b) (blockOfProposal bp trans) /\
        Sig_Verify (b_NotarizationSig b) groupPK
          (Block_Encode (blockOfProposal bp trans) false) = true /\
        added = true /\ success = true /\
        bpToNtShares c' !! nt_BP n = None /\
        bpNeedNotarize c' !! nt_BP n = None /\
        (forall s, s ∈ sharesOf c (nt_BP n) ++ [n] ->
                   hashToNtShare c' !! NtShare_Hash s = None)) /\
  (forall bp tip pstate trans sig groupPK,
      hashToBP c !! nt_BP n = Some bp ->
      bpNeedNotarize c !! nt_BP n = Some true ->
      (forall s, s ∈ sharesOf c (nt_BP n) -> nt_Owner s <> nt_Owner n) ->
      cfg_GroupThreshold c <= Z.of_nat (length (sharesOf c (nt_BP n))) + 1 ->
      recoverNtSig (sharesOf c (nt_BP n) ++ [n]) = Some sig ->
      last (finalized c) = Some tip ->
      (bp_PrevBlock bp = tip /\ lastFinalizedState c = Some pstate \/
       bp_PrevBlock bp <> tip /\ unFinalizedState c !! bp_PrevBlock bp = Some (Some pstate)) ->
      getTransition (Some pstate) (bp_Data bp) (bp_Round bp) = Returned (trans, None) ->
      0 <= groupID -> groups c !! Z.to_nat groupID = Some groupPK ->
      Sig_Verify sig groupPK (Block_Encode (blockOfProposal bp trans) false) = true ->
      exists c',
        addNtShare c n groupID
        = Returned (Some (set_NotarizationSig sig (blockOfProposal bp trans)), true, true, c')).
Proof.
  split; [|split].
  - intros b added success c' H. unfold addNtShare in H.
    destruct (hashToBP c !! nt_BP n) as [bp|].
    2:{ inversion H; subst. repeat split; done. }
    destruct (negb _).
    { inversion H; subst. repeat split; done. }
    destruct (existsb _ _) eqn:Hex.
    { inversion H; subst. repeat split; done. }
    assert (Hnew : forall s, s ∈ sharesOf c (nt_BP n) -> nt_Owner s <> nt_Owner n).
    { intros s Hin Heq.
      assert (existsb (fun s0 => nt_Owner s0 =? nt_Owner n) (sharesOf c (nt_BP n)) = true);
        [|congruence].
      apply existsb_exists. exists s. split; [by apply list_elem_of_In|lia]. }
    rewrite length_app in H. cbn [length set_bpToNtShares cfg_GroupThreshold] in H.
    assert (Hnd1 : NoDup (nt_Owner <$> sharesOf c (nt_BP n)) ->
                   NoDup (nt_Owner <$> sharesOf c (nt_BP n) ++ [n])).
    { intros Hh. rewrite fmap_app. apply NoDup_app.
      split; [done|]. split; [|apply NoDup_singleton].
      intros o Ho Hn. apply list_elem_of_singleton in Hn. subst o.
      apply list_elem_of_fmap in Ho as (s & Hs & Hin). by apply (Hnew s). }
    assert (Hnd : forall h, NoDup (nt_Owner <$> sharesOf c h) ->
                  NoDup (nt_Owner <$> default [] (<[nt_BP n := sharesOf c (nt_BP n) ++ [n]]>
                                                    (bpToNtShares c) !! h))).
    { intros h Hh. destruct (decide (nt_BP n = h)) as [<-|Hne].
      - rewrite lookup_insert_eq. cbn. by apply Hnd1.
      - rewrite lookup_insert_ne by done. exact Hh. }
    assert (Hb : Z.of_nat (length (sharesOf c (nt_BP n))) + 1 < cfg_GroupThreshold c ->
                 b = None).
    { intros Hlt.
      destruct (Z.leb_spec (cfg_GroupThreshold c)
                  (Z.of_nat (length (sharesOf c (nt_BP n)) + 1))) as [Hle|_]; [lia|].
      by inversion H. }
    split; [exact Hb|]. split.
    { intros (s & Hin & Heq). by destruct (Hnew s Hin). }
    split.
    { intros Hh Hlt. apply Hb.
      rewrite remove_dups_NoDup in Hlt by (by apply Hnd1).
      rewrite length_fmap, length_app in Hlt. cbn in Hlt. lia. }
    destruct (Z.leb_spec (cfg_GroupThreshold c)
                (Z.of_nat (length (sharesOf c (nt_BP n)) + 1))) as [Hle|Hlt].
    + intros h Hh.
      repeat match type of H with
             | context [match ?x with _ => _ end] => destruct x; try discriminate
             end.
      inversion H; subst. unfold sharesOf. cbn.
      destruct (decide (nt_BP n = h)) as [<-|Hne].
      * rewrite lookup_delete_eq. cbn. apply NoDup_nil_2.
      * rewrite lookup_delete_ne by done. by apply Hnd.
    + inversion H; subst. intros h Hh. unfold sharesOf. cbn. by apply Hnd.
  - intros b added success c' H. unfold addNtShare in H.
    destruct (hashToBP c !! nt_BP n) as [bp|]; [|by inversion H].
    destruct (bpNeedNotarize c !! nt_BP n) as [[]|] eqn:Hneed; cbn [default negb] in H;
      [|by inversion H|by inversion H].
    destruct (existsb _ _) eqn:Hex; [by inversion H|].
    assert (Hnew : forall s, s ∈ sharesOf c (nt_BP n) -> nt_Owner s <> nt_Owner n).
    { intros s Hin Heq.
      assert (existsb (fun s0 => nt_Owner s0 =? nt_Owner n) (sharesOf c (nt_BP n)) = true);
        [|congruence].
      apply existsb_exists. exists s. split; [by apply list_elem_of_In|lia]. }
    rewrite length_app in H. cbn [length set_bpToNtShares cfg_GroupThreshold] in H.
    destruct (Z.leb_spec (cfg_GroupThreshold c)
                (Z.of_nat (length (sharesOf c (nt_BP n)) + 1))) as [Hle|Hlt];
      [|by inversion H].
    destruct (recoverNtSig _) as [sig|] eqn:Hrec; [|discriminate].
    rewrite blockToState_set_bpToNtShares in H.
    destruct (blockToState c (bp_PrevBlock bp)) as [[pstate|]|] eqn:Hst; try discriminate.
    destruct (getTransition _ _ _) as [[trans [e|]]|] eqn:Htr; try discriminate.
    destruct (Z.ltb_spec groupID 0) as [|Hg]; [discriminate|].
    cbn [groups set_bpToNtShares] in H.
    destruct (groups c !! Z.to_nat groupID) as [groupPK|] eqn:Hgr; [|discriminate].
    destruct (Sig_Verify sig groupPK _) eqn:Hver; cbn [negb] in H; [|discriminate].
    inversion H; subst. clear H.
    apply blockToState_Some in Hst as (tip & Htip & Hparent).
    destruct (getTransition_foldl _ _ _ _ Htr) as (txns & Htxns & ->).
    exists bp, tip, pstate, txns, groupPK. cbn zeta.
    split; [done|]. split; [done|]. split; [done|]. split; [lia|].
    split; [done|]. split; [done|]. split; [done|]. split; [done|].
    split; [done|]. split; [done|]. split; [done|]. split; [done|].
    split; [done|]. split; [done|]. split; [done|]. split; [done|].
    split; [cbn; apply lookup_delete_eq|].
    split; [cbn; apply lookup_delete_eq|].
    intros s Hs. cbn. by apply foldl_delete_shares.
  - intros bp tip pstate trans sig groupPK Hbp Hneed Hown Hthr Hrec Htip Hparent Htr Hg Hgr Hver.
    assert (Hst : blockToState c (bp_PrevBlock bp) = Returned (Some pstate)).
    { apply blockToState_Some. eauto. }
    unfold addNtShare. rewrite Hbp, Hneed. cbn [default negb].
    assert (Hex : existsb (fun s => nt_Owner s =? nt_Owner n) (sharesOf c (nt_BP n)) = false).
    { apply not_true_is_false. intros Hex. apply existsb_exists in Hex as (s & Hin & Heq).
      apply (Hown s); [by apply list_elem_of_In|lia]. }
    rewrite Hex. rewrite length_app. cbn [length set_bpToNtShares cfg_GroupThreshold].
    destruct (Z.leb_spec (cfg_GroupThreshold c)
                (Z.of_nat (length (sharesOf c (nt_BP n)) + 1))) as [_|Hlt]; [|lia].
    rewrite Hrec, blockToState_set_bpToNtShares, Hst, Htr.
    destruct (Z.ltb_spec groupID 0) as [|_]; [lia|].
    cbn [groups set_bpToNtShares]. rewrite Hgr, Hver. cbn [negb]. eauto.
Qed.

(** ** The syncer and the state root *)

(** C6 (amended). A fetched block whose declared [StateRoot] differs
    from the [StateHash] of the transition recomputed from its proposal
    on the parent state: [SyncBlock] returns the invalid-state-root
    error and does not insert the block; the chain is left as the
    connection of the parent left it, so it is unchanged when the parent
    is genesis (round 1) or was already connected, and otherwise holds
    the ancestors that were fetched and validated on the way. *)
Theorem SyncBlock_invalid_state_root (r : requester) (c c1 : Chain) (hash : Hash)
    (m : nat) (b : Block) (bp : BlockProposal) (state : option State) (trans : Transition) :
  Chain_Block c hash = None ->
  FinalizedRound c < Z.of_nat (S m) ->
  RequestBlock r hash = inl b ->
  (if Z.of_nat (S m) =? 1
   then Genesis c = Some (b_PrevBlock b) /\
        blockToState c (b_PrevBlock b) = Returned state /\ c1 = c
   else exists pb,
        syncBlockAndConnectToChain r c (b_PrevBlock b) m = Returned (inl (pb, state), c1)) ->
  RequestBlockProposal r (b_BlockProposal b) = inl bp ->
  getTransition state (bp_Data bp) (bp_Round bp) = Returned (trans, None) ->
  Transition_StateHash trans <> b_StateRoot b ->
  SyncBlock r c hash (Z.of_nat (S m)) = Returned ((None, Some errInvalidStateRoot), c1) /\
  (Z.of_nat (S m) = 1 -> c1 = c) /\
  (is_Some (Chain_Block c (b_PrevBlock b)) -> Z.of_nat (S m) <> 1 -> c1 = c).
Proof.
  intros Hblk Hfin Hreq Hparent Hbpr Htr Hroot.
  assert (Hsync : syncBlockAndConnectToChain r c hash (S m)
                  = Returned (inr errInvalidStateRoot, c1)).
  { cbn [syncBlockAndConnectToChain]. rewrite Hblk.
    destruct (Z.leb_spec (Z.of_nat (S m)) (FinalizedRound c)) as [|_]; [lia|].
    rewrite Hreq, Hbpr.
    destruct (Z.of_nat (S m) =? 1).
    - destruct Hparent as (Hg & Hst & ->). rewrite Hg, Z.eqb_refl. cbn [negb].
      rewrite Hst, Htr.
      destruct (Z.eqb_spec (Transition_StateHash trans) (b_StateRoot b)); [done|].
      reflexivity.
    - destruct Hparent as (pb & ->). rewrite Htr.
      destruct (Z.eqb_spec (Transition_StateHash trans) (b_StateRoot b)); [done|].
      reflexivity. }
  split; [|split].
  - unfold SyncBlock. rewrite Nat2Z.id, Hsync. reflexivity.
  - intros H1. apply Z.eqb_eq in H1. rewrite H1 in Hparent. tauto.
  - intros [pb Hpb] Hne. apply Z.eqb_neq in Hne. rewrite Hne in Hparent.
    destruct Hparent as (pb' & Hrec).
    destruct m; cbn [syncBlockAndConnectToChain] in Hrec; rewrite Hpb in Hrec;
      destruct (blockToState c (b_PrevBlock b)); by inversion Hrec.
Qed.

End Chain.

(** ** The scenarios, evaluated *)

Lemma add_idempotent_witness :
  addBP (env := exampleEnv) genesisChain bp1 (S754_zero false)
  = Returned (true, None, chainE0, [recvBPForNotary (env := exampleEnv) bp1]) /\
  addBP (env := exampleEnv) chainE0 bp1 (S754_zero false)
  = Returned (false, None, chainE0, []) /\
  addBlock (env := exampleEnv) chainE0 block1 bp1 (Some 5) (S754_zero false)
  = Returned (true, None, chainB1,
              [txnPool_Remove (env := exampleEnv) 5; Update (env := exampleEnv) (Some 5);
               EndRound (env := exampleEnv) 1]) /\
  addBlock (env := exampleEnv) chainB1 block1 bp1 (Some 5) (S754_zero false)
  = Returned (false, None, chainB1, []).
Proof.
  assert (H1 : addBP (env := exampleEnv) genesisChain bp1 (S754_zero false)
               = Returned (true, None, chainE0, [recvBPForNotary (env := exampleEnv) bp1]))
    by (vm_compute; reflexivity).
  assert (H2 : addBlock (env := exampleEnv) chainE0 block1 bp1 (Some 5) (S754_zero false)
               = Returned (true, None, chainB1,
                           [txnPool_Remove (env := exampleEnv) 5;
                            Update (env := exampleEnv) (Some 5);
                            EndRound (env := exampleEnv) 1]))
    by (vm_compute; reflexivity).
  split; [exact H1|].
  split; [exact (proj1 (proj1 (add_idempotent (env := exampleEnv)) _ _ _ _ _ _ _ H1))|].
  split; [exact H2|].
  exact (proj2 (add_idempotent (env := exampleEnv)) _ _ _ _ _ _ _ _ _ H2).
Defined.

Lemma addNtShare_threshold_witness :
  (exists c1, addNtShare (env := exampleEnv) (chainE 0) (shareOf 1) 0
              = Returned (None, true, true, c1)) /\
  (exists c2, addNtShare (env := exampleEnv) (chainE 1) (shareOf 2) 0
              = Returned (None, true, true, c2)) /\
  (* a second share of owner 2 is refused *)
  addNtShare (env := exampleEnv) (chainE 2) (shareOf 2) 0
  = Returned (None, false, true, chainE 2) /\
  (exists c3, addNtShare (env := exampleEnv) (chainE 2) (shareOf 3) 0
              = Returned (Some (set_NotarizationSig [1; 2; 3]
                                  (blockOfProposal (env := exampleEnv) bp1 5)),
                          true, true, c3)) /\
  b_StateRoot (blockOfProposal (env := exampleEnv) bp1 5) = 5.
Proof.
  assert (Hl : sharesOf (chainE 2) (nt_BP (shareOf 3)) = [shareOf 1; shareOf 2])
    by (vm_compute; reflexivity).
  split; [eexists; vm_compute; reflexivity|].
  split; [eexists; vm_compute; reflexivity|].
  split.
  { assert (H : addNtShare (env := exampleEnv) (chainE 2) (shareOf 2) 0
                 = Returned (None, false, true, chainE 2)) by (vm_compute; reflexivity).
    destruct (proj1 (addNtShare_threshold (env := exampleEnv) (chainE 2) (shareOf 2) 0)
                _ _ _ _ H) as (_ & Hdup & _).
    destruct Hdup as (_ & _ & _); [|exact H].
    exists (shareOf 2). split; [|reflexivity].
    change (nt_BP (shareOf 2)) with (nt_BP (shareOf 3)). rewrite Hl.
    apply elem_of_cons. right. apply list_elem_of_singleton. reflexivity. }
  split; [|reflexivity].
  apply (proj2 (proj2 (addNtShare_threshold (env := exampleEnv) (chainE 2) (shareOf 3) 0))
           bp1 1 0 5 [1; 2; 3] [42]).
  - vm_compute. reflexivity.
  - vm_compute. reflexivity.
  - intros s Hs. rewrite Hl in Hs.
    apply elem_of_cons in Hs as [->|Hs]; [cbn; lia|].
    apply list_elem_of_singleton in Hs as ->. cbn. lia.
  - vm_compute. discriminate.
  - vm_compute. reflexivity.
  - vm_compute. reflexivity.
  - left. split; vm_compute; reflexivity.
  - vm_compute. reflexivity.
  - lia.
  - reflexivity.
  - reflexivity.
Defined.

(** C6, as stated, fails when the parent has to be fetched: the
    mismatching round-2 block is rejected, but its parent [block1] has
    been inserted, so the chain's block set has changed. *)
Lemma SyncBlock_block_set_counterexample :
  RequestBlock examplePeer (Block_Hash (Env := exampleEnv) badBlock2) = inl badBlock2 /\
  getTransition (env := exampleEnv) (Some 5) (bp_Data bp2) (bp_Round bp2)
  = Returned (12, None) /\
  b_StateRoot badBlock2 = 99 /\
  SyncBlock (env := exampleEnv) examplePeer genesisChain
    (Block_Hash (Env := exampleEnv) badBlock2) 2
  = Returned ((None, Some errInvalidStateRoot), chainS1) /\
  Chain_Block genesisChain (Block_Hash (Env := exampleEnv) block1) = None /\
  Chain_Block chainS1 (Block_Hash (Env := exampleEnv) block1) = Some block1 /\
  hashToBlock chainS1 <> hashToBlock genesisChain.
Proof.
  split; [reflexivity|]. split; [reflexivity|]. split; [reflexivity|].
  split; [vm_compute; reflexivity|].
  split; [vm_compute; reflexivity|].
  split; [vm_compute; reflexivity|].
  intros H. apply (f_equal (fun m => m !! 1051)) in H. vm_compute in H. discriminate.
Qed.

Lemma SyncBlock_invalid_state_root_witness :
  SyncBlock (env := exampleEnv) examplePeer genesisChain
    (Block_Hash (Env := exampleEnv) badBlock2) (Z.of_nat 2)
  = Returned ((None, Some errInvalidStateRoot), chainS1) /\
  SyncBlock (env := exampleEnv) examplePeer genesisChain
    (Block_Hash (Env := exampleEnv) badBlock1) (Z.of_nat 1)
  = Returned ((None, Some errInvalidStateRoot), genesisChain).
Proof.
  split.
  - apply (SyncBlock_invalid_state_root (env := exampleEnv) examplePeer genesisChain chainS1
             (Block_Hash (Env := exampleEnv) badBlock2) 1 badBlock2 bp2 (Some 5) 12).
    + vm_compute. reflexivity.
    + vm_compute. reflexivity.
    + reflexivity.
    + change (Z.of_nat 2 =? 1) with false. cbv iota. exists block1. vm_compute. reflexivity.
    + reflexivity.
    + reflexivity.
    + vm_compute. discriminate.
  - apply (SyncBlock_invalid_state_root (env := exampleEnv) examplePeer genesisChain
             genesisChain (Block_Hash (Env := exampleEnv) badBlock1) 0 badBlock1 bp1
             (Some 0) 5).
    + vm_compute. reflexivity.
    + vm_compute. reflexivity.
    + reflexivity.
    + change (Z.of_nat 1 =? 1) with true. cbv iota. repeat split; reflexivity.
    + reflexivity.
    + reflexivity.
    + vm_compute. discriminate.
Defined.

(** ** More of the chain *)

Section Forest.
Context {env : Env}.

Lemma blocksOf_node_eq blk bp w cs bps :
  blocksOf_node (mkBlockNode blk bp w cs bps) = blk :: blocksOf cs.
Proof. reflexivity. Qed.



Lemma findPrevBlock_node_eq prevBlock blk bp w cs bps i :
  findPrevBlock_node prevBlock (mkBlockNode blk bp w cs bps) i =
  if blk =? prevBlock then Some (mkBlockNode blk bp w cs bps, i)
  else findPrevBlock_from prevBlock cs 0.
Proof.
  cbn. destruct (blk =? prevBlock); [done|].
  generalize 0%nat. induction cs as [|c cs IH]; intros j; cbn; [done|].
  destruct (findPrevBlock_node prevBlock c j); [done|]. apply IH.
Qed.


(** Induction on fork trees. *)
Lemma blockNode_forest_ind (P : blockNode -> Prop) (Q : list blockNode -> Prop) :
  Q [] ->
  (forall n ns, P n -> Q ns -> Q (n :: ns)) ->
  (forall blk bp w cs bps, Q cs -> P (mkBlockNode blk bp w cs bps)) ->
  (forall n, P n) /\ (forall ns, Q ns).
Proof.
  intros Hnil Hcons Hnode.
  assert (HP : forall n, P n).
  { fix IH 1. intros [blk bp w cs bps]. apply Hnode.
    induction cs as [|c cs IHcs]; [exact Hnil|]. apply Hcons; [apply IH|exact IHcs]. }
  split; [exact HP|].
  induction ns as [|n ns IH]; [exact Hnil|]. apply Hcons; [apply HP|exact IH].
Qed.

(** [findPrevBlock] finds nothing exactly when no block of the forest
    has the hash; what it finds has the hash. *)
Lemma findPrevBlock_from_None prevBlock :
  (forall n i, findPrevBlock_node prevBlock n i = None <-> prevBlock ∉ blocksOf_node n) /\
  (forall ns i, findPrevBlock_from prevBlock ns i = None <-> prevBlock ∉ blocksOf ns).
Proof.
  assert (H : (forall n, forall i,
                  findPrevBlock_node prevBlock n i = None <-> prevBlock ∉ blocksOf_node n) /\
              (forall ns, forall i,
                  findPrevBlock_from prevBlock ns i = None <-> prevBlock ∉ blocksOf ns)).
  { apply blockNode_forest_ind.
    - intros i. cbn. split; [intros _; apply not_elem_of_nil|done].
    - intros n ns Hn Hns i. cbn. rewrite not_elem_of_app.
      specialize (Hn i). specialize (Hns (S i)).
      destruct (findPrevBlock_node prevBlock n i) as [r|].
      + split; [discriminate|]. intros [H _]. by apply Hn in H.
      + rewrite Hns. split; [|tauto]. intros H. split; [by apply Hn|done].
    - intros blk bp w cs bps Hcs i.
      rewrite findPrevBlock_node_eq, blocksOf_node_eq, not_elem_of_cons.
      destruct (Z.eqb_spec blk prevBlock) as [->|Hne].
      + split; [discriminate|]. intros [H _]. done.
      + rewrite (Hcs 0%nat). split; [|tauto]. intros H. split; [congruence|done]. }
  exact H.
Qed.

End Forest.

Section Forest2.
Context {env : Env}.

Lemma findPrevBlock_None (prevBlock : Hash) (ns : list blockNode) :
  findPrevBlock prevBlock ns = None <-> prevBlock ∉ blocksOf ns.
Proof. apply (proj2 (findPrevBlock_from_None prevBlock)). Qed.

Lemma findPrevBlock_Some (prevBlock : Hash) (ns : list blockNode) n i :
  findPrevBlock prevBlock ns = Some (n, i) ->
  bn_Block n = prevBlock /\ prevBlock ∈ blocksOf ns.
Proof.
  intros H. split.
  - revert H. unfold findPrevBlock. generalize 0%nat.
    induction ns as [|m ns IH]; intros k; cbn; [done|].
    destruct (findPrevBlock_node prevBlock m k) as [[r j]|] eqn:Hm.
    + intros [= <- <-]. by apply (findPrevBlock_node_Block prevBlock m k r j).
    + apply IH.
  - destruct (decide (prevBlock ∈ blocksOf ns)) as [|Hn]; [done|].
    apply findPrevBlock_None in Hn. congruence.
Qed.

(** X12. [findPrevBlock] finds nothing exactly when no block of the
    forest, at any depth, has the hash; a node it returns has the hash
    that was looked for; and a root with the hash is returned, with its
    index, when no earlier root holds the hash in its tree. *)
Theorem findPrevBlock_finds (prevBlock : Hash) (ns : list blockNode) :
  (findPrevBlock prevBlock ns = None <-> prevBlock ∉ blocksOf ns) /\
  (forall n i, findPrevBlock prevBlock ns = Some (n, i) ->
               bn_Block n = prevBlock /\ prevBlock ∈ blocksOf ns) /\
  (forall n i, ns !! i = Some n -> bn_Block n = prevBlock ->
               (forall j m, (j < i)%nat -> ns !! j = Some m -> prevBlock ∉ blocksOf_node m) ->
               findPrevBlock prevBlock ns = Some (n, i)).
Proof.
  split; [apply findPrevBlock_None|]. split; [apply findPrevBlock_Some|].
  unfold findPrevBlock.
  assert (H : forall k n i, ns !! i = Some n -> bn_Block n = prevBlock ->
              (forall j m, (j < i)%nat -> ns !! j = Some m -> prevBlock ∉ blocksOf_node m) ->
              findPrevBlock_from prevBlock ns k = Some (n, (k + i)%nat)).
  { induction ns as [|m ns IH]; intros k n i Hi Hn Hbefore; [done|].
    destruct i as [|i]; cbn in Hi.
    - inversion Hi; subst m. cbn. destruct n as [blk bp w cs bps].
      rewrite findPrevBlock_node_eq. cbn in Hn. rewrite Hn, Z.eqb_refl.
      by rewrite Nat.add_0_r.
    - cbn.
      assert (Hm : findPrevBlock_node prevBlock m k = None).
      { apply (proj1 (findPrevBlock_from_None prevBlock)).
        apply (Hbefore 0%nat m); [lia|done]. }
      rewrite Hm. rewrite (IH (S k) n i Hi Hn).
      + do 2 f_equal. lia.
      + intros j m' Hj Hm'. apply (Hbefore (S j) m'); [lia|done]. }
  intros n i Hi Hn Hb. by rewrite (H 0%nat n i Hi Hn Hb).
Qed.

Lemma findPrevBlock_finds_witness :
  let leaf := mkBlockNode 7 70 (S754_zero false) [] [] in
  let root := mkBlockNode 5 50 (S754_zero false) [leaf] [] in
  ([root] !! 0%nat = Some root) /\
  findPrevBlock 5 [root] = Some (root, 0%nat) /\
  findPrevBlock 7 [root] = Some (leaf, 0%nat) /\
  (9 ∉ blocksOf [root]) /\
  findPrevBlock 9 [root] = None.
Proof.
  intros leaf root.
  assert (H9 : 9 ∉ blocksOf [root]).
  { cbn. intros H. repeat (apply elem_of_cons in H as [H|H]; [discriminate|]).
    by apply elem_of_nil in H. }
  split; [reflexivity|].
  split.
  { apply (proj2 (proj2 (findPrevBlock_finds 5 [root])) root 0%nat eq_refl eq_refl).
    intros j m Hj. lia. }
  split; [reflexivity|]. split; [exact H9|].
  exact (proj2 (proj1 (findPrevBlock_finds 9 [root])) H9).
Defined.

(** ** Appending below a node *)





End Forest2.


Section Shares2.
Context {env : Env}.

(** X14. What [addNtShare] does with a share.  For an unknown proposal
    it reports failure.  A share that is not added leaves the chain as
    it is and yields no block.  A share that is added below the
    threshold is appended to the proposal's shares and stored under its
    hash.  Once a block has been built for a proposal every later share
    for it is dropped (not added, success reported), although
    [NeedNotarize] answers true for it again.  [addNtShare] never
    changes the proposals, the blocks, the fork tree, the finalized
    chain or the states. *)
Theorem addNtShare_outcomes (c : Chain) (n : NtShare) (groupID : Z) :
  (Chain_BlockProposal c (nt_BP n) = None ->
   addNtShare c n groupID = Returned (None, false, false, c)) /\
  (forall b success c',
      addNtShare c n groupID = Returned (b, false, success, c') -> b = None /\ c' = c) /\
  (forall success c',
      addNtShare c n groupID = Returned (None, true, success, c') ->
      success = true /\
      sharesOf c' (nt_BP n) = sharesOf c (nt_BP n) ++ [n] /\
      Z.of_nat (length (sharesOf c' (nt_BP n))) < cfg_GroupThreshold c /\
      Chain_NtShare c' (NtShare_Hash n) = Some n /\
      NeedNotarize c' (nt_BP n) = true) /\
  (forall b added success c',
      addNtShare c n groupID = Returned (Some b, added, success, c') ->
      NeedNotarize c' (nt_BP n) = true /\
      forall n' g', nt_BP n' = nt_BP n ->
                    addNtShare c' n' g' = Returned (None, false, true, c')) /\
  (forall b added success c',
      addNtShare c n groupID = Returned (b, added, success, c') ->
      hashToBP c' = hashToBP c /\ hashToBlock c' = hashToBlock c /\
      fork c' = fork c /\ bpNotOnFork c' = bpNotOnFork c /\ finalized c' = finalized c /\
      lastFinalizedState c' = lastFinalizedState c /\
      unFinalizedState c' = unFinalizedState c).
Proof.
  unfold Chain_BlockProposal, Chain_NtShare, NeedNotarize.
  split; [|split; [|split; [|split]]].
  - intros Hbp. unfold addNtShare. by rewrite Hbp.
  - intros b success c' H. unfold addNtShare in H.
    destruct (hashToBP c !! nt_BP n) as [bp|]; [|by inversion H].
    destruct (negb _); [by inversion H|].
    destruct (existsb _ _); [by inversion H|].
    repeat match type of H with
           | context [match ?x with _ => _ end] => destruct x; try discriminate
           | context [if ?x then _ else _] => destruct x; try discriminate
           end.
  - intros success c' H. unfold addNtShare in H.
    destruct (hashToBP c !! nt_BP n) as [bp|]; [|by inversion H].
    destruct (bpNeedNotarize c !! nt_BP n) as [[]|] eqn:Hneed; cbn [from_option id negb] in H;
      [|by inversion H|by inversion H].
    destruct (existsb _ _); [by inversion H|].
    rewrite length_app in H. cbn [length set_bpToNtShares cfg_GroupThreshold] in H.
    destruct (Z.leb_spec (cfg_GroupThreshold c)
                (Z.of_nat (length (sharesOf c (nt_BP n)) + 1))) as [Hle|Hlt].
    { repeat match type of H with
             | context [match ?x with _ => _ end] => destruct x; try discriminate
             | context [if ?x then _ else _] => destruct x; try discriminate
             end. }
    inversion H; subst. unfold sharesOf. cbn.
    rewrite !lookup_insert_eq. cbn. rewrite length_app. cbn.
    rewrite Hneed. repeat split; try done; unfold sharesOf in Hlt; lia.
  - intros b added success c' H. unfold addNtShare in H.
    destruct (hashToBP c !! nt_BP n) as [bp|] eqn:Hbp; [|by inversion H].
    destruct (negb _); [by inversion H|].
    destruct (existsb _ _); [by inversion H|].
    destruct (_ <=? _); [|by inversion H].
    repeat match type of H with
           | context [match ?x with _ => _ end] => destruct x; try discriminate
           | context [if ?x then _ else _] => destruct x; try discriminate
           end.
    inversion H; subst. clear H. cbn. rewrite lookup_delete_eq. split; [done|].
    intros n' g' Hn'. unfold addNtShare. cbn. rewrite Hn', Hbp, lookup_delete_eq. done.
  - intros b added success c' H. unfold addNtShare in H.
    destruct (hashToBP c !! nt_BP n) as [bp|]; [|by inversion H].
    destruct (negb _); [by inversion H|].
    destruct (existsb _ _); [by inversion H|].
    repeat match type of H with
           | context [match ?x with _ => _ end] => destruct x; try discriminate
           | context [if ?x then _ else _] => destruct x; try discriminate
           end; by inversion H.
Qed.

(** ** Re-applying a batch *)

Lemma recordAll_app tr pre rest :
  (forall i x, pre !! i = Some x ->
     fst (Transition_Record (foldl (fun t y => snd (Transition_Record t y)) tr (take i pre)) x)
     = (true, true)) ->
  recordAll tr (pre ++ rest)
  = recordAll (foldl (fun t y => snd (Transition_Record t y)) tr pre) rest.
Proof.
  revert tr. induction pre as [|x pre IH]; intros tr Hok; [done|].
  cbn [app recordAll foldl].
  pose proof (Hok 0%nat x eq_refl) as H0. cbn in H0.
  destruct (Transition_Record tr x) as [[valid success] tr1] eqn:Hx. cbn in H0.
  inversion H0; subst. cbn [negb orb snd].
  apply IH. intros i y Hi. specialize (Hok (S i) y Hi). cbn in Hok.
  by rewrite Hx in Hok.
Qed.

(** X15. [getTransition] on an empty batch returns the fresh
    transition; on a batch that does not decode, the fresh transition
    with the invalid-transactions error; on a decodable batch it records
    the transactions in order and stops at the first that is not both
    valid and successful, returning the transition as that call left it
    with the failed-to-apply error, the rest not applied; when all
    succeed, the transition after the whole batch.  On no state it
    panics. *)
Theorem getTransition_outcomes (st : State) (data : bytes) (round : Z) :
  let step := fun t x => snd (Transition_Record t x) in
  let ok := fun t x => fst (Transition_Record t x) = (true, true) in
  let t0 := State_Transition st round in
  (data = [] -> getTransition (Some st) data round = Returned (t0, None)) /\
  (data <> [] -> rlpDecodeTxns data = None ->
   getTransition (Some st) data round = Returned (t0, Some errInvalidTransactions)) /\
  (forall txns,
      data <> [] -> rlpDecodeTxns data = Some txns ->
      (forall i x, txns !! i = Some x -> ok (foldl step t0 (take i txns)) x) ->
      getTransition (Some st) data round = Returned (foldl step t0 txns, None)) /\
  (forall pre x post,
      data <> [] -> rlpDecodeTxns data = Some (pre ++ x :: post) ->
      (forall i y, pre !! i = Some y -> ok (foldl step t0 (take i pre)) y) ->
      ~ ok (foldl step t0 pre) x ->
      getTransition (Some st) data round
      = Returned (step (foldl step t0 pre) x, Some errFailedToApply)) /\
  (exists msg, getTransition None data round = Panicked msg).
Proof.
  intros step ok t0.
  assert (Hlen : data <> [] -> Nat.eqb (length data) 0 = false).
  { intros Hd. destruct data; [done|reflexivity]. }
  split; [by intros ->|]. split; [|split; [|split]].
  - intros Hd Hdec. unfold getTransition. by rewrite (Hlen Hd), Hdec.
  - intros txns Hd Hdec Hok. unfold getTransition. rewrite (Hlen Hd), Hdec.
    fold t0. f_equal.
    rewrite <- (app_nil_r txns) at 1. rewrite recordAll_app by exact Hok. reflexivity.
  - intros pre x post Hd Hdec Hok Hbad. unfold getTransition. rewrite (Hlen Hd), Hdec.
    fold t0. f_equal. rewrite recordAll_app by exact Hok. cbn [recordAll].
    fold step. unfold ok in Hbad. unfold step at 2.
    destruct (Transition_Record (foldl step t0 pre) x) as [[valid success] tr1]. cbn in *.
    destruct valid, success; cbn; try done.
  - by eexists.
Qed.

End Shares2.

Section Finality.
Context {env : Env}.

(** X16. [finalize] for a round below the length of the finalized chain
    does nothing.  At the length: with more than one root in the fork
    tree it only clears [bpNotOnFork]; with exactly one root the root is
    appended to the finalized chain, its children become the fork tree,
    its state becomes the last finalized state (and is what
    [blockToState] returns for it); with no root it panics.  Beyond the
    length it panics (not implemented). *)
Theorem finalize_outcomes (c : Chain) (round : Z) :
  is_uint64 round ->
  Z.of_nat (length (finalized c)) < 2 ^ 64 ->
  let count := Z.of_nat (length (finalized c)) in
  (round < count -> finalize c round = Returned c) /\
  (round = count -> (1 < length (fork c))%nat ->
   finalize c round = Returned (set_bpNotOnFork [] c)) /\
  (forall f,
      round = count -> fork c = [f] ->
      exists c',
        finalize c round = Returned c' /\
        finalized c' = finalized c ++ [bn_Block f] /\
        fork c' = bn_blockChildren f /\
        bpNotOnFork c' = bn_bpChildren f /\
        lastFinalizedState c' = default None (unFinalizedState c !! bn_Block f) /\
        unFinalizedState c' = delete (bn_Block f) (unFinalizedState c) /\
        blockToState c' (bn_Block f)
        = Returned (default None (unFinalizedState c !! bn_Block f)) /\
        hashToBlock c' = hashToBlock c /\ hashToBP c' = hashToBP c) /\
  (round = count -> fork c = [] -> exists msg, finalize c round = Panicked msg) /\
  (count < round -> exists msg, finalize c round = Panicked msg).
Proof.
  intros Hr Hlen count. unfold finalize.
  rewrite (DexTheory.wrap64_small (Z.of_nat (length (finalized c)))) by (unfold is_uint64; lia).
  fold count.
  split; [|split; [|split; [|split]]].
  - intros Hlt. destruct (Z.ltb_spec round count); [done|lia].
  - intros -> Hfork. destruct (Z.ltb_spec count count); [lia|].
    rewrite Z.sub_diag. change (wrap64 0) with 0. cbn [Z.eqb].
    cbn [fork set_bpNotOnFork].
    destruct (Nat.ltb_spec 1 (length (fork c))); [done|lia].
  - intros f -> Hfork. destruct (Z.ltb_spec count count); [lia|].
    rewrite Z.sub_diag. change (wrap64 0) with 0. cbn [Z.eqb].
    cbn [fork set_bpNotOnFork]. rewrite Hfork. cbn [length Nat.ltb Nat.leb].
    eexists. split; [reflexivity|]. cbn.
    repeat split; try done.
    unfold blockToState. cbn. rewrite last_snoc, Z.eqb_refl. done.
  - intros -> Hfork. destruct (Z.ltb_spec count count); [lia|].
    rewrite Z.sub_diag. change (wrap64 0) with 0. cbn [Z.eqb].
    cbn [fork set_bpNotOnFork]. rewrite Hfork. cbn. by eexists.
  - intros Hgt. destruct (Z.ltb_spec round count); [lia|].
    rewrite DexTheory.wrap64_small by (unfold is_uint64 in *; lia).
    destruct (Z.eqb_spec (round - count) 0); [lia|]. by eexists.
Qed.

(** X17. [SyncBlock] returns a block that is already connected without
    asking the peer; refuses an unknown block of a round not above the
    finalized round; passes on the peer's error; refuses a round-1 block
    whose parent is not the genesis block; in all these cases the chain
    is unchanged. *)
Theorem SyncBlock_early_exits (r : requester) (c : Chain) (hash : Hash) (round : Z) :
  0 <= round ->
  (forall b tip,
      Chain_Block c hash = Some b -> last (finalized c) = Some tip ->
      SyncBlock r c hash round = Returned ((Some b, None), c)) /\
  (Chain_Block c hash = None -> round <= FinalizedRound c ->
   SyncBlock r c hash round = Returned ((None, Some errCanNotConnectToChain), c)) /\
  (forall err,
      Chain_Block c hash = None -> FinalizedRound c < round ->
      RequestBlock r hash = inr err ->
      SyncBlock r c hash round = Returned ((None, Some err), c)) /\
  (forall b g,
      Chain_Block c hash = None -> FinalizedRound c < round -> round = 1 ->
      RequestBlock r hash = inl b ->
      Genesis c = Some g -> b_PrevBlock b <> g ->
      SyncBlock r c hash round = Returned ((None, Some errCanNotConnectToChain), c)).
Proof.
  intros Hr. unfold SyncBlock.
  assert (Hround : Z.of_nat (Z.to_nat round) = round) by lia.
  revert Hround. generalize (Z.to_nat round). intros n Hn.
  split; [|split; [|split]].
  - intros b tip Hb Htip. destruct n; cbn [syncBlockAndConnectToChain];
      rewrite Hb; unfold blockToState; rewrite Htip; by destruct (hash =? tip).
  - intros Hb Hle.
    assert (H : syncBlockAndConnectToChain r c hash n
                = Returned (inr errCanNotConnectToChain, c)).
    { destruct n; cbn [syncBlockAndConnectToChain]; rewrite Hb;
        match goal with
        | |- context [?a <=? FinalizedRound c] => destruct (Z.leb_spec a (FinalizedRound c))
        end; try done; lia. }
    by rewrite H.
  - intros err Hb Hgt Hreq.
    assert (H : syncBlockAndConnectToChain r c hash n = Returned (inr err, c)).
    { destruct n; cbn [syncBlockAndConnectToChain]; rewrite Hb;
        match goal with
        | |- context [?a <=? FinalizedRound c] => destruct (Z.leb_spec a (FinalizedRound c))
        end; try lia; by rewrite Hreq. }
    by rewrite H.
  - intros b g Hb Hgt -> Hreq Hg Hne.
    assert (n = 1%nat) as -> by lia.
    cbn [syncBlockAndConnectToChain]. rewrite Hb.
    change (Z.of_nat 1) with 1.
    destruct (Z.leb_spec 1 (FinalizedRound c)); [lia|].
    rewrite Hreq. cbn [Z.eqb Pos.eqb]. rewrite Hg.
    destruct (Z.eqb_spec (b_PrevBlock b) g); [done|]. reflexivity.
Qed.


End Finality.

Section AddBlock.
Context {env : Env}.

Lemma finalize_fields c r c' :
  finalize c r = Returned c' ->
  hashToBlock c' = hashToBlock c /\ hashToBP c' = hashToBP c /\
  bpNeedNotarize c' = bpNeedNotarize c /\ bpToNtShares c' = bpToNtShares c /\
  hashToNtShare c' = hashToNtShare c /\
  (finalized c' = finalized c \/ exists f, finalized c' = finalized c ++ [f]).
Proof.
  unfold finalize. intros H.
  repeat match type of H with
         | context [if ?x then _ else _] => destruct x
         | context [match fork ?c with _ => _ end] => destruct (fork c)
         end; try discriminate; inversion H; subst; cbn; eauto 10.
Qed.

(** X18. Whenever [addBlock] returns for a block that was not stored,
    the block is stored and the other blocks are as before, also when
    it reports [added = false]: that happens only for a non-empty batch
    that does not decode, the error being returned after the block was
    inserted.  The proposals are untouched, the notarization flag and
    the shares of the block's proposal are dropped, the finalized chain
    is as it was or one block longer.  When it reports [added = true]
    the effects are the removal of the batch's transactions from the
    pool, one [Update] with the leader's state and possibly [EndRound]
    of the round at which the call began. *)
Theorem addBlock_outcomes (c : Chain) (b : Block) (bp : BlockProposal) (s : option State)
    (w : float64) (added : bool) (err : option error) (c1 : Chain) (fx : list Effect) :
  Chain_Block c (Block_Hash b) = None ->
  addBlock c b bp s w = Returned (added, err, c1, fx) ->
  Chain_Block c1 (Block_Hash b) = Some b /\
  (forall h, h <> Block_Hash b -> Chain_Block c1 h = Chain_Block c h) /\
  hashToBP c1 = hashToBP c /\
  bpNeedNotarize c1 = delete (b_BlockProposal b) (bpNeedNotarize c) /\
  sharesOf c1 (b_BlockProposal b) = [] /\
  (finalized c1 = finalized c \/ exists f, finalized c1 = finalized c ++ [f]) /\
  (added = false ->
   err = Some errInvalidTxnData /\ fx = [] /\
   bp_Data bp <> [] /\ rlpDecodeTxns (bp_Data bp) = None) /\
  (added = true ->
   err = None /\
   exists txns leaderBlock leaderState leaderSys endRound,
     (if Nat.ltb 0 (length (bp_Data bp)) then rlpDecodeTxns (bp_Data bp) = Some txns
      else txns = []) /\
     leader c1 = Returned (leaderBlock, leaderState, leaderSys) /\
     (endRound = [] \/ endRound = [EndRound (round c)]) /\
     fx = map (fun txn => txnPool_Remove (SHA3 txn)) txns ++ [Update leaderState] ++ endRound).
Proof.
  unfold Chain_Block. intros Hnew H. unfold addBlock in H. rewrite Hnew in H.
  destruct (last (finalized _)) as [tip|]; [|discriminate].
  match type of H with
  | context [if ?x then _ else _] => destruct x; [discriminate|]
  end.
  match type of H with
  | (match ?att with _ => _ end) = _ => destruct att as [c2|] eqn:Hatt; [|discriminate]
  end.
  assert (Hc2 : hashToBlock c2 = hashToBlock c /\ hashToBP c2 = hashToBP c /\
                bpNeedNotarize c2 = bpNeedNotarize c /\ bpToNtShares c2 = bpToNtShares c /\
                finalized c2 = finalized c).
  { repeat match type of Hatt with
           | context [match ?x with _ => _ end] => destruct x
           end; try discriminate; by inversion Hatt. }
  destruct Hc2 as (Hb2 & Hp2 & Hn2 & Hs2 & Hf2).
  match type of H with
  | (match ?fin with _ => _ end) = _ => destruct fin as [c3|] eqn:Hfin; [|discriminate]
  end.
  assert (Hc3 : hashToBlock c3 = <[Block_Hash b := b]> (hashToBlock c) /\
                hashToBP c3 = hashToBP c /\
                bpNeedNotarize c3 = delete (b_BlockProposal b) (bpNeedNotarize c) /\
                bpToNtShares c3 = delete (b_BlockProposal b) (bpToNtShares c) /\
                (finalized c3 = finalized c \/ exists f, finalized c3 = finalized c ++ [f])).
  { destruct (3 <? _).
    - apply finalize_fields in Hfin as (-> & -> & -> & -> & _ & Hf). cbn in *.
      rewrite Hb2, Hp2, Hn2, Hs2. rewrite Hf2 in Hf. done.
    - inversion Hfin; subst. cbn. rewrite Hb2, Hp2, Hn2, Hs2, Hf2. eauto 10. }
  destruct Hc3 as (Hb3 & Hp3 & Hn3 & Hs3 & Hf3).
  assert (Hpost : forall c',
             c' = c3 ->
             hashToBlock c' !! Block_Hash b = Some b /\
             (forall h, h <> Block_Hash b -> hashToBlock c' !! h = hashToBlock c !! h) /\
             hashToBP c' = hashToBP c /\
             bpNeedNotarize c' = delete (b_BlockProposal b) (bpNeedNotarize c) /\
             sharesOf c' (b_BlockProposal b) = [] /\
             (finalized c' = finalized c \/ exists f, finalized c' = finalized c ++ [f])).
  { intros c' ->. rewrite Hb3. split; [apply lookup_insert_eq|].
    split; [intros h Hh; by rewrite lookup_insert_ne|].
    split; [done|]. split; [done|]. split; [|done].
    unfold sharesOf. by rewrite Hs3, lookup_delete_eq. }
  destruct (Nat.ltb 0 (length (bp_Data bp))) eqn:Hdata.
  - destruct (rlpDecodeTxns (bp_Data bp)) as [txns|] eqn:Hdec.
    + destruct (leader c3) as [[[lb ls] lsys]|] eqn:Hlead; [|discriminate].
      inversion H; subst. clear H.
      destruct (Hpost c1 eq_refl) as (? & ? & ? & ? & ? & ?).
      do 6 (split; [done|]). split; [done|]. intros _. split; [done|].
      eexists txns, lb, ls, lsys, _. split; [done|]. split; [done|].
      split; [|reflexivity].
      match goal with |- context [if ?x then _ else _] => destruct x end; eauto.
    + inversion H; subst. clear H.
      destruct (Hpost c1 eq_refl) as (? & ? & ? & ? & ? & ?).
      do 6 (split; [done|]). split; [|done]. intros _.
      split; [done|]. split; [done|]. split; [|done].
      intros Hd. rewrite Hd in Hdata. discriminate.
  - destruct (leader c3) as [[[lb ls] lsys]|] eqn:Hlead; [|discriminate].
    inversion H; subst. clear H.
    destruct (Hpost c1 eq_refl) as (? & ? & ? & ? & ? & ?).
    do 6 (split; [done|]). split; [done|]. intros _. split; [done|].
    eexists [], lb, ls, lsys, _. split; [done|]. split; [done|].
    split; [|reflexivity].
    match goal with |- context [if ?x then _ else _] => destruct x end; eauto.
Qed.

End AddBlock.

Lemma addNtShare_outcomes_witness :
  addNtShare (env := exampleEnv) (chainE 2) (shareOf 3) 0
  = Returned (Some (set_NotarizationSig [1; 2; 3]
                      (blockOfProposal (env := exampleEnv) bp1 5)),
              true, true, chainE 3) /\
  addNtShare (env := exampleEnv) (chainE 3) (shareOf 4) 0
  = Returned (None, false, true, chainE 3) /\
  NeedNotarize (chainE 3) (nt_BP (shareOf 3)) = true.
Proof.
  assert (H : addNtShare (env := exampleEnv) (chainE 2) (shareOf 3) 0
              = Returned (Some (set_NotarizationSig [1; 2; 3]
                                  (blockOfProposal (env := exampleEnv) bp1 5)),
                          true, true, chainE 3)) by (vm_compute; reflexivity).
  split; [exact H|].
  destruct (proj1 (proj2 (proj2 (proj2
              (addNtShare_outcomes (env := exampleEnv) (chainE 2) (shareOf 3) 0))))
              _ _ _ _ H) as [Hneed Hlater].
  split; [exact (Hlater (shareOf 4) 0 eq_refl)|exact Hneed].
Defined.

Lemma getTransition_outcomes_witness :
  getTransition (env := exampleEnv) (Some 0) [5; 7] 2 = Returned (12, None) /\
  getTransition (env := exampleEnv) (Some 0) [5; 255] 2
  = Returned (0, Some errInvalidTransactions).
Proof.
  pose proof (getTransition_outcomes (env := exampleEnv) 0 [5; 7] 2) as (_ & _ & H3 & _).
  pose proof (getTransition_outcomes (env := exampleEnv) 0 [5; 255] 2) as (_ & H2 & _).
  split.
  - apply (H3 [[5]; [7]]); [discriminate|reflexivity|].
    intros [|[|i]] x Hx; inversion Hx; subst; reflexivity.
  - apply H2; [discriminate|reflexivity].
Defined.

Lemma finalize_outcomes_witness :
  exists c',
    finalize (env := exampleEnv) chainB1 1 = Returned c' /\
    finalized c' = finalized chainB1 ++ [Block_Hash (Env := exampleEnv) block1] /\
    blockToState c' (Block_Hash (Env := exampleEnv) block1) = Returned (Some 5).
Proof.
  assert (H1 : is_uint64 1) by (unfold is_uint64; lia).
  assert (Hlen : Z.of_nat (length (finalized chainB1)) < 2 ^ 64) by (vm_compute; reflexivity).
  destruct (proj1 (proj2 (proj2 (finalize_outcomes (env := exampleEnv) chainB1 1 H1 Hlen)))
              (mkBlockNode (Block_Hash (Env := exampleEnv) block1)
                 (BlockProposal_Hash (Env := exampleEnv) bp1) (S754_zero false) [] [])
              eq_refl eq_refl)
    as (c' & Hfin & Hf & _ & _ & _ & _ & Hst & _).
  exists c'. split; [exact Hfin|]. split; [exact Hf|exact Hst].
Defined.

Lemma SyncBlock_early_exits_witness :
  SyncBlock (env := exampleEnv) examplePeer genesisChain
    (Block_Hash (Env := exampleEnv) genesisBlock) 5
  = Returned ((Some genesisBlock, None), genesisChain) /\
  SyncBlock (env := exampleEnv) examplePeer genesisChain 777 1
  = Returned ((None, Some (errRequest 404)), genesisChain).
Proof.
  split.
  - apply (proj1 (SyncBlock_early_exits (env := exampleEnv) examplePeer genesisChain
                    (Block_Hash (Env := exampleEnv) genesisBlock) 5 ltac:(lia))
             genesisBlock (Block_Hash (Env := exampleEnv) genesisBlock));
      vm_compute; reflexivity.
  - apply (proj1 (proj2 (proj2 (SyncBlock_early_exits (env := exampleEnv) examplePeer
                                  genesisChain 777 1 ltac:(lia)))));
      vm_compute; reflexivity.
Defined.

Lemma addBlock_outcomes_witness :
  addBlock (env := exampleEnv) chainE0 block1 bp1 (Some 5) (S754_zero false)
  = Returned (true, None, chainB1,
              [txnPool_Remove (env := exampleEnv) 5; Update (env := exampleEnv) (Some 5);
               EndRound (env := exampleEnv) 1]) /\
  Chain_Block chainB1 (Block_Hash (Env := exampleEnv) block1) = Some block1 /\
  sharesOf chainB1 (b_BlockProposal block1) = [].
Proof.
  assert (H : addBlock (env := exampleEnv) chainE0 block1 bp1 (Some 5) (S754_zero false)
              = Returned (true, None, chainB1,
                          [txnPool_Remove (env := exampleEnv) 5;
                           Update (env := exampleEnv) (Some 5);
                           EndRound (env := exampleEnv) 1]))
    by (vm_compute; reflexivity).
  split; [exact H|].
  destruct (addBlock_outcomes (env := exampleEnv) chainE0 block1 bp1 (Some 5) (S754_zero false)
              _ _ _ _ eq_refl H) as (H1 & _ & _ & _ & H5 & _).
  split; [exact H1|exact H5].
Defined.


End ConsensusTheory.
